(** * NeoSnake: the simulation controller, the gesture classifier and the
    theme provider, embedded from the TypeScript sources.

    Numbers follow the JavaScript values the code manipulates: grid
    coordinates, scores, levels and pixel sizes are integers by construction
    and are modelled in [Z]; landmark coordinates and [Math.random()] draws
    are IEEE binary64 values and are modelled by Rocq's primitive [float]. *)

From Stdlib Require Import String Ascii DecimalString.
From Stdlib Require Import ZArith List Bool Lia.
From Stdlib Require Import Floats Uint63.
Import ListNotations.

Set Warnings "-inexact-float,-register-all".

(* ===================================================================== *)
(** ** JavaScript built-ins used by the sources *)
(* ===================================================================== *)

Module JS.

(** How a call completes: with a value, or by throwing. *)
Inductive Completion (A : Type) :=
| Normal (a : A)
| Throws.
Arguments Normal {A} a.
Arguments Throws {A}.

(** [Math.floor] on a finite double.  [Z.shiftl] by a negative amount is a
    flooring division by a power of two.  NaN and the infinities have no
    integer floor; they are sent to 0 and are never produced from
    [Math.random()], whose draws lie in the unit interval. *)
Definition floor (f : float) : Z :=
  match Prim2SF f with
  | S754_finite s m e => Z.shiftl (if s then Z.neg m else Z.pos m) e
  | _ => 0
  end.

(** An integer-valued JavaScript number, of magnitude below 2^63, as a
    double. *)
Definition ofZ (z : Z) : float :=
  if (z <? 0)%Z then PrimFloat.opp (PrimFloat.of_uint63 (Uint63.of_Z (- z)))
  else PrimFloat.of_uint63 (Uint63.of_Z z).

(** [`${n}`] for an integer-valued number. *)
Definition numberToString (n : Z) : string :=
  NilZero.string_of_int (Z.to_int n).

(** Truthiness of a possibly undefined string: [undefined] and the empty
    string are falsy. *)
Definition truthy (s : option string) : bool :=
  match s with
  | Some EmptyString => false
  | Some _ => true
  | None => false
  end.

(** [arr.slice(-n)]: the last [n] elements. *)
Definition sliceLast {A : Type} (n : nat) (l : list A) : list A :=
  skipn (List.length l - n) l.

(** A tape of [Math.random()] draws.  A computation reads draws from the
    front; [None] means that it asked for more draws than the tape holds,
    i.e. it is still running when the tape ends. *)
Definition Rand (A : Type) : Type := list float -> option (A * list float).

Definition ret {A : Type} (a : A) : Rand A := fun tape => Some (a, tape).

Definition bind {A B : Type} (m : Rand A) (k : A -> Rand B) : Rand B :=
  fun tape =>
    match m tape with
    | Some (a, tape') => k a tape'
    | None => None
    end.

End JS.

Notation "x <- m ;; k" := (JS.bind m (fun x => k))
  (at level 61, m at next level, right associativity).

(* ===================================================================== *)
(** ** types.ts *)
(* ===================================================================== *)

Module Types.

Inductive Direction := UP | DOWN | LEFT | RIGHT.

Inductive GameStatus := MENU | PLAYING | GAME_OVER.

Record Point := mkPoint { x : Z; y : Z }.

Record GameTheme := mkTheme {
  name : string;
  gridColor : string;
  snakeHeadColor : string;
  snakeBodyColor : string;
  foodColor : string;
  backgroundColor : string;
  glowColor : string;
  storyText : string
}.

Record ScoreEntry := mkEntry { gameId : Z; score : Z; level : Z }.

Definition Direction_eqb (a b : Direction) : bool :=
  match a, b with
  | UP, UP | DOWN, DOWN | LEFT, LEFT | RIGHT, RIGHT => true
  | _, _ => false
  end.

Definition GameStatus_eqb (a b : GameStatus) : bool :=
  match a, b with
  | MENU, MENU | PLAYING, PLAYING | GAME_OVER, GAME_OVER => true
  | _, _ => false
  end.

End Types.

(* ===================================================================== *)
(** ** services/visionService.ts *)
(* ===================================================================== *)

Module Vision.
Import Types.
Local Open Scope float_scope.

(** A hand landmark as delivered by the detector; only [x] and [y] are read. *)
Record NormalizedLandmark := mkLandmark { x : float; y : float }.

(** The two module-level variables: whether [handLandmarker] has been
    created, and [lastVideoTime] (initially -1). *)
Record VisionState := mkVision { handLandmarker : bool; lastVideoTime : float }.

Definition initialVision : VisionState :=
  {| handLandmarker := false; lastVideoTime := -1 |}.

Definition SENSITIVITY : float := 0.08.

(** JavaScript's [a > b] on numbers. *)
Definition gtb (a b : float) : bool := b <? a.

(** Lines 41-77 of [detectGesture]: the decision taken once the wrist
    (landmark 0) and the index finger tip (landmark 8) are known. *)
Definition classify (wrist indexTip : NormalizedLandmark) : option Direction :=
  let deltaX := indexTip.(x) - wrist.(x) in
  let deltaY := indexTip.(y) - wrist.(y) in
  if gtb (abs deltaX) (abs deltaY) then
    if gtb (abs deltaX) SENSITIVITY then
      Some (if deltaX <? - SENSITIVITY then RIGHT else LEFT)
    else None
  else
    if gtb (abs deltaY) SENSITIVITY then
      Some (if deltaY <? - SENSITIVITY then UP else DOWN)
    else None.

(** [detectGesture video], with the video reduced to its [currentTime] and
    the detector reduced to the [results.landmarks] it returns for this
    frame ([None] when the field is absent).  A hand with fewer than nine
    landmarks makes [landmarks[8].x] read a field of [undefined], which
    throws a TypeError. *)
Definition detectGesture (st : VisionState) (currentTime : float)
    (landmarks : option (list (list NormalizedLandmark)))
    : JS.Completion (option Direction) * VisionState :=
  if negb st.(handLandmarker) || (currentTime =? st.(lastVideoTime)) then
    (JS.Normal None, st)
  else
    let st' := {| handLandmarker := st.(handLandmarker);
                  lastVideoTime := currentTime |} in
    match landmarks with
    | Some (hand :: _) =>
        match nth_error hand 0, nth_error hand 8 with
        | Some wrist, Some indexTip => (JS.Normal (classify wrist indexTip), st')
        | _, _ => (JS.Throws, st')
        end
    | _ => (JS.Normal None, st')
    end.

(** The displacement vector [classify] computes, named for the statements
    about it. *)
Definition deltaX (wrist indexTip : NormalizedLandmark) : float :=
  indexTip.(x) - wrist.(x).

Definition deltaY (wrist indexTip : NormalizedLandmark) : float :=
  indexTip.(y) - wrist.(y).

End Vision.

(* ===================================================================== *)
(** ** services/geminiService.ts *)
(* ===================================================================== *)

Module Gemini.
Import Types.
Local Open Scope string_scope.

Definition DEFAULT_THEME : GameTheme := {|
  name := "Neon Genesis";
  gridColor := "#1f2937";
  snakeHeadColor := "#00ffcc";
  snakeBodyColor := "#00ccaa";
  foodColor := "#ff00ff";
  backgroundColor := "#000000";
  glowColor := "rgba(0, 255, 204, 0.5)";
  storyText := "System initialized. Grid online. Consume energy nodes to survive."
|}.

(** The values [JSON.parse] can return. *)
Inductive JsValue :=
| JsNull
| JsBool (b : bool)
| JsNumber (f : float)
| JsString (s : string)
| JsArray (items : list JsValue)
| JsObject (fields : list (string * JsValue)).

(** What [generateLevelTheme] resolves to at run time: a record the code
    built itself, or whatever [JSON.parse] returned, cast to [GameTheme]
    without any check. *)
Inductive ThemeValue :=
| Theme (t : GameTheme)
| Unchecked (v : JsValue).

(** The string held by the own property [key] of a parsed object, if any. *)
Definition stringField (key : string) (fields : list (string * JsValue))
    : option string :=
  match find (fun kv => String.eqb (fst kv) key) fields with
  | Some (_, JsString v) => Some v
  | _ => None
  end.

(** Reading a parsed value as a theme: it must be an object with the eight
    properties of [GameTheme], each a string. *)
Definition asTheme (v : JsValue) : option GameTheme :=
  match v with
  | JsObject fields =>
      match stringField "name" fields, stringField "gridColor" fields,
            stringField "snakeHeadColor" fields,
            stringField "snakeBodyColor" fields,
            stringField "foodColor" fields,
            stringField "backgroundColor" fields,
            stringField "glowColor" fields, stringField "storyText" fields with
      | Some n, Some g, Some h, Some b, Some f, Some bg, Some gl, Some st =>
          Some (mkTheme n g h b f bg gl st)
      | _, _, _, _, _, _, _, _ => None
      end
  | _ => None
  end.

(** A complete theme record. *)
Definition complete (t : ThemeValue) : Prop :=
  match t with
  | Theme _ => True
  | Unchecked v => asTheme v <> None
  end.

(** The [contents] field of the request. *)
Definition contents (level : Z) (previousThemeName : string) : string :=
  "Generate a visual theme for Level " ++ JS.numberToString level
    ++ " of a cyber-snake game. 
      Previous theme was: " ++ previousThemeName ++ ". Make it distinct and cool.
      Return JSON only. Colors must be hex codes.".

Section Provider.

(** The two external collaborators.  [generateContent] is the awaited
    [ai.models.generateContent] call (model and response schema are
    constants of the request): it throws, or yields a response of which
    only [text] is read, possibly undefined.  [JSON_parse] throws a
    SyntaxError on text that is not JSON. *)
Variable generateContent : string -> JS.Completion (option string).
Variable JSON_parse : string -> JS.Completion JsValue.

(** The body of the [try] block. *)
Definition tryBlock (level : Z) (previousThemeName : string)
    : JS.Completion ThemeValue :=
  match generateContent (contents level previousThemeName) with
  | JS.Throws => JS.Throws
  | JS.Normal text =>
      if JS.truthy text then
        match text with
        | Some t =>
            match JSON_parse t with
            | JS.Normal v => JS.Normal (Unchecked v)
            | JS.Throws => JS.Throws
            end
        | None => JS.Normal (Theme DEFAULT_THEME)
        end
      else JS.Normal (Theme DEFAULT_THEME)
  end.

(** The theme built by the [catch] block:
    [{...DEFAULT_THEME, name: ..., storyText: ...}]. *)
Definition offlineTheme (level : Z) : GameTheme := {|
  name := "Level " ++ JS.numberToString level ++ " (Offline Mode)";
  gridColor := DEFAULT_THEME.(gridColor);
  snakeHeadColor := DEFAULT_THEME.(snakeHeadColor);
  snakeBodyColor := DEFAULT_THEME.(snakeBodyColor);
  foodColor := DEFAULT_THEME.(foodColor);
  backgroundColor := DEFAULT_THEME.(backgroundColor);
  glowColor := DEFAULT_THEME.(glowColor);
  storyText := "Uplink failed. Running local simulation."
|}.

(** The value the returned promise resolves to. *)
Definition generateLevelTheme (level : Z) (previousThemeName : string)
    : ThemeValue :=
  match tryBlock level previousThemeName with
  | JS.Normal t => t
  | JS.Throws => Theme (offlineTheme level)
  end.

End Provider.

End Gemini.

(* ===================================================================== *)
(** ** App.tsx: the simulation controller *)
(* ===================================================================== *)

Module App.
Import Types.
Local Open Scope Z_scope.

Definition GRID_SIZE : Z := 20.
Definition INITIAL_SPEED : Z := 250.
Definition SPEED_INCREMENT : Z := 5.

Record Size := mkSize { width : Z; height : Z }.

(** What the [gameTick] of one render holds in its closure: [food]; the
    board size, from which its [gridCountX] and [gridCountY] and the
    [generateFood] it calls are computed; and the [score], [level] and
    [gameCount] of the [gameOver] it calls.  Everything else a tick reads
    it reads through a ref or a functional updater, so at the time it
    runs. *)
Record Closure := mkClosure {
  capturedFood : Point;
  capturedScore : Z;
  capturedLevel : Z;
  capturedGameCount : Z;
  capturedBoardSize : Size
}.

(** An interval of the window: [setInterval(gameTick, delay)] keeps calling
    the [gameTick] of the render that made the call until
    [clearInterval(handle)]. *)
Record Interval := mkInterval { handle : Z; delay : Z; callback : Closure }.

(** The [useState] cells and [useRef] cells of the component that the game
    logic reads or writes, and the intervals of the window ([nextHandle] is
    the handle the next [setInterval] returns).  The audio context carries
    no game state. *)
Record State := mkState {
  status : GameStatus;
  snake : list Point;
  food : Point;
  direction : Direction;
  score : Z;
  level : Z;
  theme : Gemini.ThemeValue;
  isVisionMode : bool;
  boardSize : Size;
  history : list ScoreEntry;
  gameCount : Z;
  directionRef : Direction;
  nextDirectionRef : Direction;
  speedRef : Z;
  gameLoopRef : option Z;
  intervals : list Interval;
  nextHandle : Z
}.

Definition initialState : State := {|
  status := MENU;
  snake := [ {| x := 10; y := 10 |} ];
  food := {| x := 15; y := 5 |};
  direction := RIGHT;
  score := 0;
  level := 1;
  theme := Gemini.Theme Gemini.DEFAULT_THEME;
  isVisionMode := false;
  boardSize := {| width := 600; height := 400 |};
  history := [];
  gameCount := 0;
  directionRef := RIGHT;
  nextDirectionRef := RIGHT;
  speedRef := INITIAL_SPEED;
  gameLoopRef := None;
  intervals := [];
  nextHandle := 1
|}.

(** *** Setters *)

Definition setStatus (v : GameStatus) (s : State) : State :=
  mkState v s.(snake) s.(food) s.(direction) s.(score) s.(level) s.(theme)
    s.(isVisionMode) s.(boardSize) s.(history) s.(gameCount) s.(directionRef)
    s.(nextDirectionRef) s.(speedRef) s.(gameLoopRef) s.(intervals)
    s.(nextHandle).

Definition setSnake (v : list Point) (s : State) : State :=
  mkState s.(status) v s.(food) s.(direction) s.(score) s.(level) s.(theme)
    s.(isVisionMode) s.(boardSize) s.(history) s.(gameCount) s.(directionRef)
    s.(nextDirectionRef) s.(speedRef) s.(gameLoopRef) s.(intervals)
    s.(nextHandle).

Definition setFood (v : Point) (s : State) : State :=
  mkState s.(status) s.(snake) v s.(direction) s.(score) s.(level) s.(theme)
    s.(isVisionMode) s.(boardSize) s.(history) s.(gameCount) s.(directionRef)
    s.(nextDirectionRef) s.(speedRef) s.(gameLoopRef) s.(intervals)
    s.(nextHandle).

Definition setDirection (v : Direction) (s : State) : State :=
  mkState s.(status) s.(snake) s.(food) v s.(score) s.(level) s.(theme)
    s.(isVisionMode) s.(boardSize) s.(history) s.(gameCount) s.(directionRef)
    s.(nextDirectionRef) s.(speedRef) s.(gameLoopRef) s.(intervals)
    s.(nextHandle).

Definition setScore (v : Z) (s : State) : State :=
  mkState s.(status) s.(snake) s.(food) s.(direction) v s.(level) s.(theme)
    s.(isVisionMode) s.(boardSize) s.(history) s.(gameCount) s.(directionRef)
    s.(nextDirectionRef) s.(speedRef) s.(gameLoopRef) s.(intervals)
    s.(nextHandle).

Definition setLevel (v : Z) (s : State) : State :=
  mkState s.(status) s.(snake) s.(food) s.(direction) s.(score) v s.(theme)
    s.(isVisionMode) s.(boardSize) s.(history) s.(gameCount) s.(directionRef)
    s.(nextDirectionRef) s.(speedRef) s.(gameLoopRef) s.(intervals)
    s.(nextHandle).

Definition setTheme (v : Gemini.ThemeValue) (s : State) : State :=
  mkState s.(status) s.(snake) s.(food) s.(direction) s.(score) s.(level) v
    s.(isVisionMode) s.(boardSize) s.(history) s.(gameCount) s.(directionRef)
    s.(nextDirectionRef) s.(speedRef) s.(gameLoopRef) s.(intervals)
    s.(nextHandle).

Definition setIsVisionMode (v : bool) (s : State) : State :=
  mkState s.(status) s.(snake) s.(food) s.(direction) s.(score) s.(level)
    s.(theme) v s.(boardSize) s.(history) s.(gameCount) s.(directionRef)
    s.(nextDirectionRef) s.(speedRef) s.(gameLoopRef) s.(intervals)
    s.(nextHandle).

Definition setBoardSize (v : Size) (s : State) : State :=
  mkState s.(status) s.(snake) s.(food) s.(direction) s.(score) s.(level)
    s.(theme) s.(isVisionMode) v s.(history) s.(gameCount) s.(directionRef)
    s.(nextDirectionRef) s.(speedRef) s.(gameLoopRef) s.(intervals)
    s.(nextHandle).

Definition setHistory (v : list ScoreEntry) (s : State) : State :=
  mkState s.(status) s.(snake) s.(food) s.(direction) s.(score) s.(level)
    s.(theme) s.(isVisionMode) s.(boardSize) v s.(gameCount) s.(directionRef)
    s.(nextDirectionRef) s.(speedRef) s.(gameLoopRef) s.(intervals)
    s.(nextHandle).

Definition setGameCount (v : Z) (s : State) : State :=
  mkState s.(status) s.(snake) s.(food) s.(direction) s.(score) s.(level)
    s.(theme) s.(isVisionMode) s.(boardSize) s.(history) v s.(directionRef)
    s.(nextDirectionRef) s.(speedRef) s.(gameLoopRef) s.(intervals)
    s.(nextHandle).

Definition setDirectionRef (v : Direction) (s : State) : State :=
  mkState s.(status) s.(snake) s.(food) s.(direction) s.(score) s.(level)
    s.(theme) s.(isVisionMode) s.(boardSize) s.(history) s.(gameCount) v
    s.(nextDirectionRef) s.(speedRef) s.(gameLoopRef) s.(intervals)
    s.(nextHandle).

Definition setNextDirectionRef (v : Direction) (s : State) : State :=
  mkState s.(status) s.(snake) s.(food) s.(direction) s.(score) s.(level)
    s.(theme) s.(isVisionMode) s.(boardSize) s.(history) s.(gameCount)
    s.(directionRef) v s.(speedRef) s.(gameLoopRef) s.(intervals)
    s.(nextHandle).

Definition setSpeedRef (v : Z) (s : State) : State :=
  mkState s.(status) s.(snake) s.(food) s.(direction) s.(score) s.(level)
    s.(theme) s.(isVisionMode) s.(boardSize) s.(history) s.(gameCount)
    s.(directionRef) s.(nextDirectionRef) v s.(gameLoopRef) s.(intervals)
    s.(nextHandle).

Definition setGameLoopRef (v : option Z) (s : State) : State :=
  mkState s.(status) s.(snake) s.(food) s.(direction) s.(score) s.(level)
    s.(theme) s.(isVisionMode) s.(boardSize) s.(history) s.(gameCount)
    s.(directionRef) s.(nextDirectionRef) s.(speedRef) v s.(intervals)
    s.(nextHandle).

Definition setIntervals (v : list Interval) (s : State) : State :=
  mkState s.(status) s.(snake) s.(food) s.(direction) s.(score) s.(level)
    s.(theme) s.(isVisionMode) s.(boardSize) s.(history) s.(gameCount)
    s.(directionRef) s.(nextDirectionRef) s.(speedRef) s.(gameLoopRef) v
    s.(nextHandle).

Definition setNextHandle (v : Z) (s : State) : State :=
  mkState s.(status) s.(snake) s.(food) s.(direction) s.(score) s.(level)
    s.(theme) s.(isVisionMode) s.(boardSize) s.(history) s.(gameCount)
    s.(directionRef) s.(nextDirectionRef) s.(speedRef) s.(gameLoopRef)
    s.(intervals) v.

(** *** Grid *)

(** [Math.floor(boardSize.width / GRID_SIZE)]: [Z.div] rounds down. *)
Definition gridCountX (s : State) : Z := s.(boardSize).(width) / GRID_SIZE.
Definition gridCountY (s : State) : Z := s.(boardSize).(height) / GRID_SIZE.

(** The closure of the [gameTick] that the render of [s] creates. *)
Definition capture (s : State) : Closure := {|
  capturedFood := s.(food);
  capturedScore := s.(score);
  capturedLevel := s.(level);
  capturedGameCount := s.(gameCount);
  capturedBoardSize := s.(boardSize)
|}.

(** [gridCountX] and [gridCountY] as a [gameTick] holds them. *)
Definition capturedGridCountX (c : Closure) : Z :=
  c.(capturedBoardSize).(width) / GRID_SIZE.
Definition capturedGridCountY (c : Closure) : Z :=
  c.(capturedBoardSize).(height) / GRID_SIZE.

(** [handleResize], from [window.innerWidth] and [window.innerHeight]. *)
Definition handleResize (innerWidth innerHeight : Z) (s : State) : State :=
  let isLargeScreen := innerWidth >=? 1024 in
  let sidebarWidth := if isLargeScreen then 320 else 0 in
  let paddingX := 48 in
  let paddingY := 200 in
  let availableWidth := innerWidth - sidebarWidth - paddingX in
  let availableHeight := innerHeight - paddingY in
  let availableWidth := Z.max 300 availableWidth in
  let availableHeight := Z.max 300 availableHeight in
  let snap := fun v => (v / GRID_SIZE) * GRID_SIZE in
  setBoardSize {| width := snap availableWidth;
                  height := snap availableHeight |} s.

(** [segment.x === newFood.x && segment.y === newFood.y] *)
Definition samePoint (a b : Point) : bool :=
  (a.(x) =? b.(x)) && (a.(y) =? b.(y)).

Notation "s |> f" := (f s) (at level 45, left associativity, only parsing).

(** *** generateFood *)

Definition margin : Z := 2.

(** The body of the [do ... while (isCollision)] loop, iterated.  Every
    iteration reads two draws, first the one for [x], then the one for
    [y]; the loop is still running when the tape ends. *)
Fixpoint generateFood_loop (availableX availableY : Z)
    (currentSnake : list Point) (tape : list float)
    : option (Point * list float) :=
  match tape with
  | rx :: ry :: rest =>
      let newFood :=
        {| x := JS.floor (rx * JS.ofZ availableX)%float + margin;
           y := JS.floor (ry * JS.ofZ availableY)%float + margin |} in
      let isCollision :=
        existsb (fun segment => samePoint segment newFood) currentSnake in
      if isCollision
      then generateFood_loop availableX availableY currentSnake rest
      else Some (newFood, rest)
  | _ => None
  end.

Definition generateFood (size : Size) (currentSnake : list Point)
    : JS.Rand Point :=
  let maxX := size.(width) / GRID_SIZE in
  let maxY := size.(height) / GRID_SIZE in
  let availableX := Z.max 1 (maxX - margin * 2) in
  let availableY := Z.max 1 (maxY - margin * 2) in
  generateFood_loop availableX availableY currentSnake.

(** *** Intervals *)

Definition clearInterval (h : Z) (l : list Interval) : list Interval :=
  filter (fun i => negb (i.(handle) =? h)) l.

(** [if (gameLoopRef.current) clearInterval(gameLoopRef.current)]: [null]
    and 0 are falsy. *)
Definition clearGameLoop (s : State) : State :=
  setIntervals
    match s.(gameLoopRef) with
    | Some h => if h =? 0 then s.(intervals) else clearInterval h s.(intervals)
    | None => s.(intervals)
    end s.

(** [gameLoopRef.current = setInterval(gameTick, speedRef.current)], run by
    an effect of the render of [s]: the interval will call the [gameTick] of
    that render.  The window hands out handles counting up from 1. *)
Definition startGameLoop (s : State) : State :=
  s |> setIntervals
         (s.(intervals)
          ++ [mkInterval s.(nextHandle) s.(speedRef) (capture s)])
    |> setNextHandle (s.(nextHandle) + 1)
    |> setGameLoopRef (Some s.(nextHandle)).

(** *** gameOver *)

(** The [gameOver] that a [gameTick] with closure [c] calls: the entry is
    built from the captured [gameCount], [score] and [level]; the history
    and the game count go through functional updaters. *)
Definition gameOverOf (c : Closure) (s : State) : State :=
  s |> clearGameLoop
    |> setStatus GAME_OVER
    |> setHistory
         (JS.sliceLast 10
            (s.(history)
             ++ [mkEntry (c.(capturedGameCount) + 1) c.(capturedScore)
                   c.(capturedLevel)]))
    |> setGameCount (s.(gameCount) + 1).

(** The [gameOver] of the render of [s], called in that state. *)
Definition gameOver (s : State) : State := gameOverOf (capture s) s.

(** *** resetGame *)

Definition resetGame (s : State) : JS.Rand State :=
  let startX := gridCountX s / 2 in
  let startY := gridCountY s / 2 in
  let initialSnake :=
    [ {| x := startX; y := startY |};
      {| x := startX - 1; y := startY |};
      {| x := startX - 2; y := startY |} ] in
  newFood <- generateFood s.(boardSize) initialSnake ;;
  JS.ret (s |> setSnake initialSnake
            |> setFood newFood
            |> setScore 0
            |> setLevel 1
            |> setSpeedRef INITIAL_SPEED
            |> setDirection RIGHT
            |> setDirectionRef RIGHT
            |> setNextDirectionRef RIGHT
            |> setTheme (Gemini.Theme Gemini.DEFAULT_THEME)
            |> setStatus PLAYING).

(** *** handleDirectionChange *)

Definition handleDirectionChange (newDir : Direction) (s : State) : State :=
  let current := s.(directionRef) in
  if Direction_eqb newDir UP && Direction_eqb current DOWN then s
  else if Direction_eqb newDir DOWN && Direction_eqb current UP then s
  else if Direction_eqb newDir LEFT && Direction_eqb current RIGHT then s
  else if Direction_eqb newDir RIGHT && Direction_eqb current LEFT then s
  else setNextDirectionRef newDir s.

Definition handleKeyDown (key : string) (s : State) : State :=
  if negb (GameStatus_eqb s.(status) PLAYING) then s
  else if String.eqb key "ArrowUp" then handleDirectionChange UP s
  else if String.eqb key "ArrowDown" then handleDirectionChange DOWN s
  else if String.eqb key "ArrowLeft" then handleDirectionChange LEFT s
  else if String.eqb key "ArrowRight" then handleDirectionChange RIGHT s
  else s.

(** *** gameTick *)

(** [const newHead = { ...head }] followed by the [switch]. *)
Definition moveHead (currentDir : Direction) (head : Point) : Point :=
  match currentDir with
  | UP => {| x := head.(x); y := head.(y) - 1 |}
  | DOWN => {| x := head.(x); y := head.(y) + 1 |}
  | LEFT => {| x := head.(x) - 1; y := head.(y) |}
  | RIGHT => {| x := head.(x) + 1; y := head.(y) |}
  end.

(** The updater passed to [setSnake], together with the state changes it
    triggers, for the [gameTick] with closure [c] called in state [s]:
    [prevSnake], the refs and the arguments of the functional updaters of
    score and level are those of [s]; [food], the grid, [generateFood] and
    [gameOver] are those of [c].  On an empty [prevSnake] the head is
    [undefined]: the new head has an undefined and a NaN coordinate, every
    comparison on it is false, it is pushed and popped again, and the snake
    stays empty. *)
Definition gameTickOf (c : Closure) (s : State) : JS.Rand State :=
  let prevSnake := s.(snake) in
  let currentDir := s.(nextDirectionRef) in
  let s := s |> setDirectionRef currentDir |> setDirection currentDir in
  match prevSnake with
  | [] => JS.ret s
  | head :: _ =>
      let newHead := moveHead currentDir head in
      if (newHead.(x) <? 0) || (newHead.(x) >=? capturedGridCountX c)
         || (newHead.(y) <? 0) || (newHead.(y) >=? capturedGridCountY c)
      then JS.ret (gameOverOf c s)
      else if existsb (fun segment => samePoint segment newHead) prevSnake
      then JS.ret (gameOverOf c s)
      else
        let newSnake := newHead :: prevSnake in
        if samePoint newHead c.(capturedFood) then
          let newScore := s.(score) + 10 in
          let s := if Z.rem newScore 50 =? 0
                   then setLevel (s.(level) + 1) s else s in
          let s := setScore newScore s in
          newFood <- generateFood c.(capturedBoardSize) newSnake ;;
          JS.ret (s |> setFood newFood |> setSnake newSnake)
        else
          JS.ret (setSnake (removelast newSnake) s)
  end.

(** The [gameTick] of the render of [s], called in that state: a tick of an
    interval started by the latest render. *)
Definition gameTick (s : State) : JS.Rand State := gameTickOf (capture s) s.

(** *** Effects *)

(** The body of the effect that depends on [level]: it starts the theme
    fetch (whose answer arrives later), raises the speed and restarts the
    loop. *)
Definition levelEffect (s : State) : State :=
  if GameStatus_eqb s.(status) PLAYING && (s.(level) >? 1)
  then s |> setSpeedRef (Z.max 50 (INITIAL_SPEED - s.(level) * SPEED_INCREMENT))
         |> clearGameLoop
         |> startGameLoop
  else s.

(** The body of the effect that depends on [status] and [gameTick]; its
    clean-up is [clearGameLoop]. *)
Definition gameLoopEffect (s : State) : State :=
  if GameStatus_eqb s.(status) PLAYING
  then startGameLoop s
  else clearGameLoop s.

Definition Size_eqb (a b : Size) : bool :=
  (a.(width) =? b.(width)) && (a.(height) =? b.(height)).

Definition Closure_eqb (a b : Closure) : bool :=
  samePoint a.(capturedFood) b.(capturedFood)
  && (a.(capturedScore) =? b.(capturedScore))
  && (a.(capturedLevel) =? b.(capturedLevel))
  && (a.(capturedGameCount) =? b.(capturedGameCount))
  && Size_eqb a.(capturedBoardSize) b.(capturedBoardSize).

(** What React runs once the state changes of an event are rendered, [prev]
    being the state of the render before: of the effects one of whose
    dependencies changed, first the clean-ups, then the bodies in the order
    of the source, so the effect on [level] before the effect on [status]
    and [gameTick].  [gameTick] is a new function when one of [food],
    [gameOver] (so [score], [level] or [gameCount]), [gridCountX],
    [gridCountY] or [generateFood] (so [boardSize]) changed; [replaced]
    tells that the event stored a new [boardSize] or [food] object, whose
    fields may equal the old ones.  The effect on [level] has no
    clean-up. *)
Definition runEffects (prev : State) (replaced : bool) (s : State) : State :=
  let levelChanged := negb (s.(level) =? prev.(level)) in
  let loopChanged :=
    replaced
    || negb (GameStatus_eqb s.(status) prev.(status))
    || negb (Closure_eqb (capture s) (capture prev)) in
  let s := if loopChanged then clearGameLoop s else s in
  let s := if levelChanged then levelEffect s else s in
  if loopChanged then gameLoopEffect s else s.

(** *** The component as a transition system *)

Inductive Event :=
| Resize (innerWidth innerHeight : Z)
| ClickKeyboardMode
| ClickVisionMode
| ClickRetry
| KeyDown (key : string)
| Gesture (dir : Direction)
| Tick (handle : Z)
| ThemeResolved (t : Gemini.ThemeValue).

(** The mode buttons exist only on the menu overlay and the retry button
    only on the game-over overlay; [VisionControl] reports gestures only
    while it is active; an interval fires as long as it has not been
    cleared, whatever the status, and calls the [gameTick] it was started
    with.  [handleResize] and [resetGame] store new objects; a tick stores
    a new food only together with a new score; direction requests write a
    ref only and cause no render. *)
Definition step (e : Event) (s : State) : JS.Rand State :=
  match e with
  | Resize innerWidth innerHeight =>
      JS.ret (runEffects s true (handleResize innerWidth innerHeight s))
  | ClickKeyboardMode =>
      if GameStatus_eqb s.(status) MENU
      then s' <- resetGame (setIsVisionMode false s) ;;
           JS.ret (runEffects s true s')
      else JS.ret s
  | ClickVisionMode =>
      if GameStatus_eqb s.(status) MENU
      then s' <- resetGame (setIsVisionMode true s) ;;
           JS.ret (runEffects s true s')
      else JS.ret s
  | ClickRetry =>
      if GameStatus_eqb s.(status) GAME_OVER
      then s' <- resetGame s ;; JS.ret (runEffects s true s')
      else JS.ret s
  | KeyDown key => JS.ret (handleKeyDown key s)
  | Gesture dir =>
      if s.(isVisionMode) && GameStatus_eqb s.(status) PLAYING
      then JS.ret (handleDirectionChange dir s) else JS.ret s
  | Tick h =>
      match find (fun i => i.(handle) =? h) s.(intervals) with
      | Some i =>
          s' <- gameTickOf i.(callback) s ;;
          JS.ret (runEffects s false s')
      | None => JS.ret s
      end
  | ThemeResolved t => JS.ret (runEffects s false (setTheme t s))
  end.

Fixpoint run (events : list Event) (s : State) : JS.Rand State :=
  match events with
  | [] => JS.ret s
  | e :: rest => s' <- step e s ;; run rest s'
  end.

Inductive reachable : State -> Prop :=
| reachable_initial : reachable initialState
| reachable_step (e : Event) (s s' : State) (tape tape' : list float) :
    reachable s -> step e s tape = Some (s', tape') -> reachable s'.

(** *** Vocabulary of the properties *)

Definition opposite (d : Direction) : Direction :=
  match d with
  | UP => DOWN
  | DOWN => UP
  | LEFT => RIGHT
  | RIGHT => LEFT
  end.

(** The head the next tick computes: the pre-tick head moved one cell
    along the buffered direction. *)
Definition newHeadOf (s : State) : option Point :=
  match s.(snake) with
  | [] => None
  | head :: _ => Some (moveHead s.(nextDirectionRef) head)
  end.

Definition outOfBounds (s : State) (p : Point) : Prop :=
  p.(x) < 0 \/ p.(x) >= gridCountX s \/ p.(y) < 0 \/ p.(y) >= gridCountY s.

Definition collision (s : State) : Prop :=
  exists newHead, newHeadOf s = Some newHead /\
    (outOfBounds s newHead \/ In newHead s.(snake)).

Definition eatsFood (s : State) : Prop :=
  newHeadOf s = Some s.(food) /\ ~ collision s.

(** The wall test of [gameTick], as a function of the candidate head. *)
Definition hitsWall (s : State) (p : Point) : bool :=
  (p.(x) <? 0) || (p.(x) >=? gridCountX s)
  || (p.(y) <? 0) || (p.(y) >=? gridCountY s).

(** The cell a pair of draws designates on a board of the given size. *)
Definition drawnCell (size : Size) (rx ry : float) : Point :=
  {| x := JS.floor
            (rx * JS.ofZ (Z.max 1 (size.(width) / GRID_SIZE - margin * 2)))%float
          + margin;
     y := JS.floor
            (ry * JS.ofZ (Z.max 1 (size.(height) / GRID_SIZE - margin * 2)))%float
          + margin |}.

(** The first two assignments of [gameTick]. *)
Definition commitDirection (s : State) : State :=
  s |> setDirectionRef s.(nextDirectionRef) |> setDirection s.(nextDirectionRef).

(** The state after a tick that eats, once the new food is known. *)
Definition grown (s : State) (newHead newFood : Point) : State :=
  let s1 := commitDirection s in
  let s2 := if Z.rem (s.(score) + 10) 50 =? 0
            then setLevel (s.(level) + 1) s1 else s1 in
  setScore (s.(score) + 10) s2
    |> setFood newFood |> setSnake (newHead :: s.(snake)).

(** The four ways a tick can go. *)
Inductive TickCase (s : State) (tape : list float) : Prop :=
| tick_no_head :
    s.(snake) = [] ->
    gameTick s tape = Some (commitDirection s, tape) ->
    TickCase s tape
| tick_collision :
    collision s ->
    gameTick s tape = Some (gameOver (commitDirection s), tape) ->
    TickCase s tape
| tick_move (newHead : Point) :
    newHeadOf s = Some newHead -> ~ collision s -> newHead <> s.(food) ->
    gameTick s tape
    = Some (setSnake (removelast (newHead :: s.(snake))) (commitDirection s),
            tape) ->
    TickCase s tape
| tick_eat (newHead : Point) :
    newHeadOf s = Some newHead -> ~ collision s -> newHead = s.(food) ->
    gameTick s tape
    = match generateFood s.(boardSize) (newHead :: s.(snake)) tape with
      | Some (newFood, tape') => Some (grown s newHead newFood, tape')
      | None => None
      end ->
    TickCase s tape.

(** A tick that does not return: it eats, and the food placement it calls
    is still looking for a free cell when the tape ends. *)
Definition stuckInFoodPlacement (s : State) (tape : list float) : Prop :=
  eatsFood s
  /\ generateFood s.(boardSize) (s.(food) :: s.(snake)) tape = None.

(** [P] holds of the state a tick returns, the only ticks that do not
    return being those stuck in the food placement. *)
Definition afterTick (s : State) (tape : list float) (P : State -> Prop) : Prop :=
  match gameTick s tape with
  | Some (s', _) => P s'
  | None => stuckInFoodPlacement s tape
  end.

(** The snake [resetGame] builds. *)
Definition initialSnakeOf (s : State) : list Point :=
  [ {| x := gridCountX s / 2; y := gridCountY s / 2 |};
    {| x := gridCountX s / 2 - 1; y := gridCountY s / 2 |};
    {| x := gridCountX s / 2 - 2; y := gridCountY s / 2 |} ].

(** [P] holds of the state [resetGame] returns, and it returns unless its
    food placement uses up the tape. *)
Definition afterReset (s : State) (tape : list float) (P : State -> Prop) : Prop :=
  match resetGame s tape with
  | Some (s', _) => P s'
  | None => generateFood s.(boardSize) (initialSnakeOf s) tape = None
  end.

(** *** The same vocabulary for a tick with any closure *)

(** [p] is the cell next to [head] in direction [d], coordinate by
    coordinate; the rows count downwards, as on the canvas. *)
Definition oneCellAlong (d : Direction) (head p : Point) : Prop :=
  match d with
  | UP => p.(x) = head.(x) /\ p.(y) = head.(y) - 1
  | DOWN => p.(x) = head.(x) /\ p.(y) = head.(y) + 1
  | LEFT => p.(x) = head.(x) - 1 /\ p.(y) = head.(y)
  | RIGHT => p.(x) = head.(x) + 1 /\ p.(y) = head.(y)
  end.

(** Outside the grid that the tick with closure [c] tests. *)
Definition outOfBoundsOf (c : Closure) (p : Point) : Prop :=
  p.(x) < 0 \/ p.(x) >= capturedGridCountX c
  \/ p.(y) < 0 \/ p.(y) >= capturedGridCountY c.

(** The cell one step ahead of the head along the buffered direction is
    outside the grid of [c] or on the snake. *)
Definition headRunsInto (c : Closure) (s : State) : Prop :=
  exists head rest newHead,
    s.(snake) = head :: rest
    /\ oneCellAlong s.(nextDirectionRef) head newHead
    /\ (outOfBoundsOf c newHead \/ In newHead (head :: rest)).

Definition collisionOf (c : Closure) (s : State) : Prop :=
  exists newHead, newHeadOf s = Some newHead /\
    (outOfBoundsOf c newHead \/ In newHead s.(snake)).

Definition eatsFoodOf (c : Closure) (s : State) : Prop :=
  newHeadOf s = Some c.(capturedFood) /\ ~ collisionOf c s.

Definition hitsWallOf (c : Closure) (p : Point) : bool :=
  (p.(x) <? 0) || (p.(x) >=? capturedGridCountX c)
  || (p.(y) <? 0) || (p.(y) >=? capturedGridCountY c).

Inductive TickCaseOf (c : Closure) (s : State) (tape : list float) : Prop :=
| tickOf_no_head :
    s.(snake) = [] ->
    gameTickOf c s tape = Some (commitDirection s, tape) ->
    TickCaseOf c s tape
| tickOf_collision :
    collisionOf c s ->
    gameTickOf c s tape = Some (gameOverOf c (commitDirection s), tape) ->
    TickCaseOf c s tape
| tickOf_move (newHead : Point) :
    newHeadOf s = Some newHead -> ~ collisionOf c s ->
    newHead <> c.(capturedFood) ->
    gameTickOf c s tape
    = Some (setSnake (removelast (newHead :: s.(snake))) (commitDirection s),
            tape) ->
    TickCaseOf c s tape
| tickOf_eat (newHead : Point) :
    newHeadOf s = Some newHead -> ~ collisionOf c s ->
    newHead = c.(capturedFood) ->
    gameTickOf c s tape
    = match generateFood c.(capturedBoardSize) (newHead :: s.(snake)) tape with
      | Some (newFood, tape') => Some (grown s newHead newFood, tape')
      | None => None
      end ->
    TickCaseOf c s tape.

Definition stuckInFoodPlacementOf (c : Closure) (s : State)
    (tape : list float) : Prop :=
  eatsFoodOf c s
  /\ generateFood c.(capturedBoardSize) (c.(capturedFood) :: s.(snake)) tape
     = None.

Definition afterTickOf (c : Closure) (s : State) (tape : list float)
    (P : State -> Prop) : Prop :=
  match gameTickOf c s tape with
  | Some (s', _) => P s'
  | None => stuckInFoodPlacementOf c s tape
  end.

(** An interval that is live and that the ref of the game loop does not
    hold: no [clearInterval] of the component can reach it. *)
Definition leaked (i : Interval) (s : State) : Prop :=
  In i s.(intervals)
  /\ s.(gameLoopRef) <> Some i.(handle)
  /\ i.(handle) < s.(nextHandle).

(** Every live interval is the one the game loop holds. *)
Definition leakFree (s : State) : Prop :=
  forall i, In i s.(intervals) -> s.(gameLoopRef) = Some i.(handle).

(** The state of the game proper: everything but the speed ref, the ref
    of the game loop and the intervals, which are what the effects write. *)
Definition game (s : State) :=
  (s.(status), s.(snake), s.(food), s.(direction), s.(score), s.(level),
   s.(theme), s.(isVisionMode), s.(boardSize), s.(history), s.(gameCount),
   s.(directionRef), s.(nextDirectionRef)).

(** What holds in every reachable state. *)
Record Invariant (s : State) : Prop := {
  inv_snake : s.(snake) <> [];
  inv_direction : s.(direction) = s.(directionRef);
  inv_buffer : s.(nextDirectionRef) <> opposite s.(directionRef);
  inv_score : 0 <= s.(score) /\ (10 | s.(score));
  inv_level : s.(level) = 1 + s.(score) / 50
}.

End App.

(* ===================================================================== *)
(** ** Games on the initial 600 x 400 board *)
(* ===================================================================== *)

Module Scenario.
Import Types App.
Local Open Scope Z_scope.

Definition board : Size := {| width := 600; height := 400 |}.

(** Keyboard mode; up; ten ticks to the top row; right; one tick along the
    top row; up again.  The food of the reset is drawn at (2,2); the
    interval of the game loop has handle 1. *)
Definition towardsWall : list Event :=
  [ClickKeyboardMode; KeyDown "ArrowUp"] ++ repeat (Tick 1) 10
  ++ [KeyDown "ArrowRight"; Tick 1; KeyDown "ArrowUp"].

(** The state this leads to: moving right along the top row, with a turn
    upwards buffered. *)
Definition beforeWall : State := {|
  status := PLAYING;
  snake := [ {| x := 16; y := 0 |}; {| x := 15; y := 0 |}; {| x := 15; y := 1 |} ];
  food := {| x := 2; y := 2 |};
  direction := RIGHT;
  score := 0;
  level := 1;
  theme := Gemini.Theme Gemini.DEFAULT_THEME;
  isVisionMode := false;
  boardSize := board;
  history := [];
  gameCount := 0;
  directionRef := RIGHT;
  nextDirectionRef := UP;
  speedRef := 250;
  gameLoopRef := Some 1;
  intervals := [ mkInterval 1 250 (mkClosure {| x := 2; y := 2 |} 0 1 0 board) ];
  nextHandle := 2
|}.

(** The state after one more tick: the game is over, the interval
    cleared. *)
Definition afterWall : State := {|
  status := GAME_OVER;
  snake := [ {| x := 16; y := 0 |}; {| x := 15; y := 0 |}; {| x := 15; y := 1 |} ];
  food := {| x := 2; y := 2 |};
  direction := UP;
  score := 0;
  level := 1;
  theme := Gemini.Theme Gemini.DEFAULT_THEME;
  isVisionMode := false;
  boardSize := board;
  history := [ mkEntry 1 0 1 ];
  gameCount := 1;
  directionRef := UP;
  nextDirectionRef := UP;
  speedRef := 250;
  gameLoopRef := Some 1;
  intervals := [];
  nextHandle := 2
|}.

(** Keyboard mode, then five ticks straight ahead.  The food of the reset
    is drawn at (21,10), on the row of the snake. *)
Definition towardsFood : list Event := ClickKeyboardMode :: repeat (Tick 1) 5.

(** The state this leads to: the food is the cell ahead of the head. *)
Definition beforeFood : State := {|
  status := PLAYING;
  snake := [ {| x := 20; y := 10 |}; {| x := 19; y := 10 |}; {| x := 18; y := 10 |} ];
  food := {| x := 21; y := 10 |};
  direction := RIGHT;
  score := 0;
  level := 1;
  theme := Gemini.Theme Gemini.DEFAULT_THEME;
  isVisionMode := false;
  boardSize := board;
  history := [];
  gameCount := 0;
  directionRef := RIGHT;
  nextDirectionRef := RIGHT;
  speedRef := 250;
  gameLoopRef := Some 1;
  intervals := [ mkInterval 1 250 (mkClosure {| x := 21; y := 10 |} 0 1 0 board) ];
  nextHandle := 2
|}.

(** What [gameTick] returns in that state, the next food being drawn at
    (2,2): the state changes of the tick, before the render and its
    effects. *)
Definition afterFood : State := {|
  status := PLAYING;
  snake := [ {| x := 21; y := 10 |}; {| x := 20; y := 10 |};
             {| x := 19; y := 10 |}; {| x := 18; y := 10 |} ];
  food := {| x := 2; y := 2 |};
  direction := RIGHT;
  score := 10;
  level := 1;
  theme := Gemini.Theme Gemini.DEFAULT_THEME;
  isVisionMode := false;
  boardSize := board;
  history := [];
  gameCount := 0;
  directionRef := RIGHT;
  nextDirectionRef := RIGHT;
  speedRef := 250;
  gameLoopRef := Some 1;
  intervals := [ mkInterval 1 250 (mkClosure {| x := 21; y := 10 |} 0 1 0 board) ];
  nextHandle := 2
|}.

(** The state after the render of those changes: the game loop has been
    restarted with the new [gameTick]. *)
Definition afterFoodRendered : State :=
  afterFood
  |> setIntervals [ mkInterval 2 250 (mkClosure {| x := 2; y := 2 |} 10 1 0 board) ]
  |> setNextHandle 3
  |> setGameLoopRef (Some 2).

(** A game up to level 2.  Keyboard mode, the food drawn at (16,10) right
    ahead of the head; five ticks that each eat, the next food being drawn
    one cell further to the right and the game loop restarted with the
    handles 2 to 5; the fifth brings the score to 50 and the level to 2,
    its food is drawn at (22,10), and its render starts the intervals 6 and
    7.  Then both fire: 6 moves the snake to (21,10), 7 eats at (22,10),
    the food being drawn at (23,10), and the loop is restarted with
    handle 8. *)
Definition towardsLevelTwo : list Event :=
  [ClickKeyboardMode; Tick 1; Tick 2; Tick 3; Tick 4; Tick 5; Tick 6; Tick 7].

Definition drawsLevelTwo : list float :=
  [0.5625; 0.5; 0.59375; 0.5; 0.625; 0.5; 0.65625; 0.5; 0.71875; 0.5;
   0.78125; 0.5; 0.8125; 0.5]%float.

Definition row (y : Z) (xs : list Z) : list Point :=
  map (fun x => {| x := x; y := y |}) xs.

(** The state before the fifth of these ticks: 40 points, the food ahead
    of the head, one interval. *)
Definition beforeLevelUp : State := {|
  status := PLAYING;
  snake := row 10 [19; 18; 17; 16; 15; 14; 13];
  food := {| x := 20; y := 10 |};
  direction := RIGHT;
  score := 40;
  level := 1;
  theme := Gemini.Theme Gemini.DEFAULT_THEME;
  isVisionMode := false;
  boardSize := board;
  history := [];
  gameCount := 0;
  directionRef := RIGHT;
  nextDirectionRef := RIGHT;
  speedRef := 250;
  gameLoopRef := Some 5;
  intervals := [ mkInterval 5 250 (mkClosure {| x := 20; y := 10 |} 40 1 0 board) ];
  nextHandle := 6
|}.

(** The state after it: level 2, and two intervals with the same
    [gameTick]. *)
Definition afterLevelUp : State := {|
  status := PLAYING;
  snake := row 10 [20; 19; 18; 17; 16; 15; 14; 13];
  food := {| x := 22; y := 10 |};
  direction := RIGHT;
  score := 50;
  level := 2;
  theme := Gemini.Theme Gemini.DEFAULT_THEME;
  isVisionMode := false;
  boardSize := board;
  history := [];
  gameCount := 0;
  directionRef := RIGHT;
  nextDirectionRef := RIGHT;
  speedRef := 240;
  gameLoopRef := Some 7;
  intervals := [ mkInterval 6 240 (mkClosure {| x := 22; y := 10 |} 50 2 0 board);
                 mkInterval 7 240 (mkClosure {| x := 22; y := 10 |} 50 2 0 board) ];
  nextHandle := 8
|}.

(** The state the whole game leads to: interval 6 is live with the closure
    of the level-up, whose food (22,10) has since been eaten; the food is
    at (23,10), the cell ahead of the head. *)
Definition atLevelTwo : State := {|
  status := PLAYING;
  snake := row 10 [22; 21; 20; 19; 18; 17; 16; 15; 14];
  food := {| x := 23; y := 10 |};
  direction := RIGHT;
  score := 60;
  level := 2;
  theme := Gemini.Theme Gemini.DEFAULT_THEME;
  isVisionMode := false;
  boardSize := board;
  history := [];
  gameCount := 0;
  directionRef := RIGHT;
  nextDirectionRef := RIGHT;
  speedRef := 240;
  gameLoopRef := Some 8;
  intervals := [ mkInterval 6 240 (mkClosure {| x := 22; y := 10 |} 50 2 0 board);
                 mkInterval 8 240 (mkClosure {| x := 23; y := 10 |} 60 2 0 board) ];
  nextHandle := 9
|}.

(** The state after interval 6 fires again: the head is on the food, which
    has not been eaten. *)
Definition overTheFood : State :=
  setSnake (row 10 [23; 22; 21; 20; 19; 18; 17; 16; 15]) atLevelTwo.

End Scenario.

(* ===================================================================== *)
(** ** components/VisionControl.tsx: the frame callback *)
(* ===================================================================== *)

Module VisionControl.
Import Types.

(** What [processVideo] reads and writes: the [detectedDirection] state of
    the component, the module state of the vision service, the game state
    reached through [onDirectionChange], and whether the next animation
    frame has been requested. *)
Record Control := mkControl {
  detectedDirection : option Direction;
  vision : Vision.VisionState;
  game : App.State;
  nextFrameRequested : bool
}.

(** One call of [processVideo], [onDirectionChange] being
    [handleDirectionChange].  [hasVideo] is [videoRef.current] being set.
    An exception thrown by [detectGesture] leaves the callback before
    [requestAnimationFrame] is reached. *)
Definition processVideo (hasVideo isActive : bool) (currentTime : float)
    (landmarks : option (list (list Vision.NormalizedLandmark)))
    (c : Control) : Control :=
  if hasVideo && isActive then
    match Vision.detectGesture c.(vision) currentTime landmarks with
    | (JS.Normal (Some direction), vision') =>
        {| detectedDirection := Some direction;
           vision := vision';
           game := App.handleDirectionChange direction c.(game);
           nextFrameRequested := true |}
    | (JS.Normal None, vision') =>
        {| detectedDirection := None;
           vision := vision';
           game := c.(game);
           nextFrameRequested := true |}
    | (JS.Throws, vision') =>
        {| detectedDirection := c.(detectedDirection);
           vision := vision';
           game := c.(game);
           nextFrameRequested := false |}
    end
  else
    {| detectedDirection := c.(detectedDirection);
       vision := c.(vision);
       game := c.(game);
       nextFrameRequested := true |}.

End VisionControl.

(* ===================================================================== *)
(** ** Vocabulary for the shape of the game *)
(* ===================================================================== *)

Module Shape.
Import Types App.
Local Open Scope Z_scope.

(** Two cells that share a side. *)
Definition adjacent (a b : Point) : Prop :=
  Z.abs (a.(x) - b.(x)) + Z.abs (a.(y) - b.(y)) = 1.

(** Every segment shares a side with the next one. *)
Fixpoint connected (l : list Point) : Prop :=
  match l with
  | a :: rest =>
      match rest with
      | b :: _ => adjacent a b /\ connected rest
      | [] => True
      end
  | [] => True
  end.

Definition inGrid (s : State) (p : Point) : Prop :=
  0 <= p.(x) < gridCountX s /\ 0 <= p.(y) < gridCountY s.

(** The second segment is where the head came from along the committed
    direction. *)
Definition neckBehind (s : State) : Prop :=
  match s.(snake) with
  | head :: neck :: _ => head = moveHead s.(directionRef) neck
  | _ => True
  end.

(** The game ids of the entries count up by one from [first]. *)
Fixpoint consecutiveIds (first : Z) (h : list ScoreEntry) : Prop :=
  match h with
  | [] => True
  | e :: rest => e.(gameId) = first /\ consecutiveIds (first + 1) rest
  end.

(** The status changes the component can make. *)
Inductive lifecycle : GameStatus -> GameStatus -> Prop :=
| lifecycle_stay (st : GameStatus) : lifecycle st st
| lifecycle_start : lifecycle MENU PLAYING
| lifecycle_end : lifecycle PLAYING GAME_OVER
| lifecycle_retry : lifecycle GAME_OVER PLAYING.

(** The tick interval the level calls for. *)
Definition speedOfLevel (level : Z) : Z :=
  if level <=? 1 then INITIAL_SPEED
  else Z.max 50 (INITIAL_SPEED - level * SPEED_INCREMENT).

(** The intervals of the window: handles are positive, below the next
    handle and pairwise distinct, and every interval ticks at the speed of
    the level its [gameTick] captured. *)
Record Timers (s : State) : Prop := {
  tm_next : 0 < s.(nextHandle);
  tm_handles : forall i, In i s.(intervals) -> 0 < i.(handle) < s.(nextHandle);
  tm_unique : NoDup (map handle s.(intervals));
  tm_ref : forall h, s.(gameLoopRef) = Some h -> 0 < h < s.(nextHandle);
  tm_delay : forall i, In i s.(intervals) ->
             1 <= i.(callback).(capturedLevel)
             /\ i.(delay) = speedOfLevel i.(callback).(capturedLevel)
}.

(** The interval of the game loop: while the game is played the ref holds
    a live interval, started with the current speed and the [gameTick] of
    the latest render; otherwise the interval the ref held has been
    cleared. *)
Record GameLoop (s : State) : Prop := {
  gl_playing : s.(status) = PLAYING ->
               exists h, s.(gameLoopRef) = Some h
                         /\ In (mkInterval h s.(speedRef) (capture s))
                              s.(intervals);
  gl_idle : s.(status) <> PLAYING ->
            forall i, In i s.(intervals) -> s.(gameLoopRef) <> Some i.(handle);
  gl_menu : s.(status) = MENU -> s.(intervals) = []
}.

(** The shape of the game proper. *)
Record Playfield (s : State) : Prop := {
  pf_nodup : NoDup s.(snake);
  pf_connected : connected s.(snake);
  pf_neck : s.(status) = PLAYING -> neckBehind s;
  pf_board : 300 <= s.(boardSize).(width) /\ 300 <= s.(boardSize).(height)
             /\ (GRID_SIZE | s.(boardSize).(width))
             /\ (GRID_SIZE | s.(boardSize).(height));
  pf_history : Z.of_nat (length s.(history)) = Z.min 10 s.(gameCount);
  pf_length : match s.(status) with
              | MENU => s.(snake) = [ {| x := 10; y := 10 |} ] /\ s.(score) = 0
              | _ => Z.of_nat (length s.(snake)) = 3 + s.(score) / 10
              end
}.

(** Further facts that hold in every reachable state. *)
Record WellFormed (s : State) : Prop := {
  wf_field : Playfield s;
  wf_speed : 50 <= s.(speedRef) <= INITIAL_SPEED
             /\ (s.(status) <> GAME_OVER ->
                 s.(speedRef) = speedOfLevel s.(level));
  wf_timers : Timers s;
  wf_loop : GameLoop s
}.

(** What holds as long as every tick was one of the game loop. *)
Record Sound (s : State) : Prop := {
  sd_food : ~ In s.(food) s.(snake);
  sd_history : consecutiveIds
                 (s.(gameCount) - Z.of_nat (length s.(history)) + 1)
                 s.(history);
  sd_final : s.(status) = GAME_OVER ->
             exists older,
               s.(history)
               = older ++ [mkEntry s.(gameCount) s.(score) s.(level)]
}.

End Shape.

(* ===================================================================== *)
(** ** Properties of the gesture classifier *)
(* ===================================================================== *)

Section VisionFacts.
Import Types Vision.
Local Open Scope float_scope.

(** Two doubles that compare equal with [===] are not ordered by [<]. *)
Lemma float_eqb_not_ltb (a b : float) :
  (a =? b) = true -> (b <? a) = false.
Proof.
  rewrite FloatAxioms.eqb_spec, FloatAxioms.ltb_spec.
  unfold SFeqb, SFltb.
  destruct (Prim2SF a) as [sa|sa| |sa ma ea], (Prim2SF b) as [sb|sb| |sb mb eb];
    simpl; try discriminate; try reflexivity;
    destruct sa, sb; simpl; try discriminate; try reflexivity.
  all: destruct (Z.compare_spec ea eb) as [He|He|He]; try discriminate;
    subst eb; rewrite Z.compare_refl;
    change (PosDef.Pos.compare_cont Eq ma mb) with (Pos.compare ma mb);
    change (PosDef.Pos.compare_cont Eq mb ma) with (Pos.compare mb ma);
    destruct (Pos.compare_spec ma mb) as [Hm|Hm|Hm]; simpl; try discriminate;
    subst mb; rewrite Pos.compare_refl; reflexivity.
Qed.

(** On a fresh frame with the detector ready, [detectGesture] answers with
    [classify] of landmarks 0 and 8 of the first hand. *)
Lemma detectGesture_classify st currentTime hand hands wrist indexTip :
  st.(handLandmarker) = true ->
  (currentTime =? st.(lastVideoTime)) = false ->
  nth_error hand 0 = Some wrist ->
  nth_error hand 8 = Some indexTip ->
  fst (detectGesture st currentTime (Some (hand :: hands)))
  = JS.Normal (classify wrist indexTip).
Proof.
  intros Hready Hfresh Hw Ht. unfold detectGesture.
  rewrite Hready, Hfresh, Hw, Ht. reflexivity.
Qed.

(** C6. The classifier obeys the threshold and sign mapping, with
    sensitivity 0.08: when the horizontal axis is the candidate
    (|deltaX| > |deltaY|) and |deltaX| exceeds the sensitivity, the result
    is RIGHT if deltaX < -0.08 and LEFT otherwise; when the vertical axis is
    the candidate and |deltaY| exceeds the sensitivity, the result is UP if
    deltaY < -0.08 and DOWN otherwise; when the candidate axis does not
    exceed the sensitivity there is no direction.  With wrist (0.5,0.5),
    the index tip (0.5,0.3) gives UP, (0.3,0.5) gives RIGHT and
    (0.52,0.52) gives no direction. *)
Theorem classify_threshold_sign :
  SENSITIVITY = 0.08 /\
  (forall wrist indexTip,
     let dX := deltaX wrist indexTip in
     let dY := deltaY wrist indexTip in
     (gtb (abs dX) (abs dY) = true -> gtb (abs dX) 0.08 = true ->
      classify wrist indexTip = Some (if dX <? - 0.08 then RIGHT else LEFT)) /\
     (gtb (abs dX) (abs dY) = false -> gtb (abs dY) 0.08 = true ->
      classify wrist indexTip = Some (if dY <? - 0.08 then UP else DOWN)) /\
     (gtb (abs dX) (abs dY) = true -> gtb (abs dX) 0.08 = false ->
      classify wrist indexTip = None) /\
     (gtb (abs dX) (abs dY) = false -> gtb (abs dY) 0.08 = false ->
      classify wrist indexTip = None)) /\
  classify (mkLandmark 0.5 0.5) (mkLandmark 0.5 0.3) = Some UP /\
  classify (mkLandmark 0.5 0.5) (mkLandmark 0.3 0.5) = Some RIGHT /\
  classify (mkLandmark 0.5 0.5) (mkLandmark 0.52 0.52) = None.
Proof.
  split; [reflexivity|]. split.
  - intros wrist indexTip dX dY. subst dX dY.
    unfold classify, deltaX, deltaY. fold SENSITIVITY.
    repeat split; intros H1 H2; rewrite H1, H2; reflexivity.
  - repeat split; vm_compute; reflexivity.
Qed.

Lemma classify_threshold_sign_witness :
  classify (mkLandmark 0.5 0.5) (mkLandmark 0.25 0.5) = Some RIGHT /\
  classify (mkLandmark 0.5 0.5) (mkLandmark 0.5 0.75) = Some DOWN /\
  classify (mkLandmark 0.5 0.5) (mkLandmark 0.5625 0.5) = None /\
  classify (mkLandmark 0.5 0.5) (mkLandmark 0.5 0.5625) = None.
Proof.
  destruct classify_threshold_sign as (_ & H & _).
  split; [|split; [|split]].
  - apply (proj1 (H (mkLandmark 0.5 0.5) (mkLandmark 0.25 0.5))); reflexivity.
  - apply (proj1 (proj2 (H (mkLandmark 0.5 0.5) (mkLandmark 0.5 0.75))));
      reflexivity.
  - apply (proj1 (proj2 (proj2 (H (mkLandmark 0.5 0.5) (mkLandmark 0.5625 0.5)))));
      reflexivity.
  - apply (proj2 (proj2 (proj2 (H (mkLandmark 0.5 0.5) (mkLandmark 0.5 0.5625)))));
      reflexivity.
Defined.

(** C5, as the code has it.  When |deltaX| equals |deltaY| the comparison
    [Math.abs(deltaX) > Math.abs(deltaY)] is false, so the vertical axis is
    the candidate: a tied input above the threshold yields UP (deltaY below
    minus the sensitivity) or DOWN, never LEFT or RIGHT, and a tied input
    not above the threshold yields no direction. *)
Theorem tie_selects_vertical (wrist indexTip : NormalizedLandmark) :
  (abs (deltaX wrist indexTip) =? abs (deltaY wrist indexTip)) = true ->
  classify wrist indexTip
  = (if gtb (abs (deltaY wrist indexTip)) SENSITIVITY
     then Some (if deltaY wrist indexTip <? - SENSITIVITY then UP else DOWN)
     else None)
  /\ classify wrist indexTip <> Some LEFT
  /\ classify wrist indexTip <> Some RIGHT.
Proof.
  intros Htie.
  assert (Hcls : classify wrist indexTip
                 = (if gtb (abs (deltaY wrist indexTip)) SENSITIVITY
                    then Some (if deltaY wrist indexTip <? - SENSITIVITY
                               then UP else DOWN)
                    else None)).
  { unfold classify, deltaX, deltaY in *. unfold gtb at 1.
    rewrite (float_eqb_not_ltb _ _ Htie). reflexivity. }
  rewrite Hcls. split; [reflexivity|].
  destruct (gtb _ SENSITIVITY); [|split; discriminate].
  destruct (_ <? _); split; discriminate.
Qed.

Lemma tie_selects_vertical_witness :
  let wrist := mkLandmark 0.5 0.5 in
  let indexTip := mkLandmark 0.25 0.25 in
  (abs (deltaX wrist indexTip) =? abs (deltaY wrist indexTip)) = true
  /\ classify wrist indexTip = Some UP.
Proof.
  intros wrist indexTip.
  assert (Htie : (abs (deltaX wrist indexTip) =? abs (deltaY wrist indexTip)) = true)
    by reflexivity.
  split; [exact Htie|].
  destruct (tie_selects_vertical wrist indexTip Htie) as [H _].
  rewrite H. reflexivity.
Defined.

(** C5, as the specification states it, fails: wrist (0.5,0.5) and index
    tip (0.75,0.75) give deltaX = deltaY = 0.25, a tie above the threshold,
    and the classifier answers DOWN. *)
Lemma tie_is_not_horizontal :
  let wrist := mkLandmark 0.5 0.5 in
  let indexTip := mkLandmark 0.75 0.75 in
  (abs (deltaX wrist indexTip) =? abs (deltaY wrist indexTip)) = true /\
  gtb (abs (deltaX wrist indexTip)) SENSITIVITY = true /\
  classify wrist indexTip = Some DOWN /\
  ~ (classify wrist indexTip = Some LEFT \/ classify wrist indexTip = Some RIGHT).
Proof.
  repeat split; try reflexivity.
  intros [H|H]; vm_compute in H; discriminate.
Qed.

End VisionFacts.

(* ===================================================================== *)
(** ** Properties of the theme provider *)
(* ===================================================================== *)

Section GeminiFacts.
Import Types Gemini.
Local Open Scope string_scope.

Variable generateContent : string -> JS.Completion (option string).
Variable JSON_parse : string -> JS.Completion JsValue.

(** The [try] block throws exactly when the request throws or the text of
    the response, present and not empty, is rejected by [JSON.parse]. *)
Lemma tryBlock_throws_iff level previousThemeName :
  tryBlock generateContent JSON_parse level previousThemeName = JS.Throws <->
  (generateContent (contents level previousThemeName) = JS.Throws \/
   exists text, generateContent (contents level previousThemeName)
                = JS.Normal (Some text)
                /\ text <> "" /\ JSON_parse text = JS.Throws).
Proof.
  unfold tryBlock.
  destruct (generateContent _) as [[text|]|]; simpl.
  - destruct text as [|c text]; simpl.
    + split; [discriminate|].
      intros [H|(t & H & Hne & _)]; [discriminate|].
      injection H as <-. now elim Hne.
    + destruct (JSON_parse (String c text)) eqn:Hparse.
      * split; [discriminate|].
        intros [H|(t & H & _ & Ht)]; [discriminate|].
        injection H as <-. congruence.
      * split; [|reflexivity]. intros _. right.
        exists (String c text). repeat split; [discriminate|assumption].
  - split; [discriminate|].
    intros [H|(t & H & _)]; discriminate.
  - split; [|reflexivity]. now left.
Qed.

(** The other two ways out of the [try] block. *)
Lemma generateLevelTheme_no_text level previousThemeName text :
  generateContent (contents level previousThemeName) = JS.Normal text ->
  JS.truthy text = false ->
  generateLevelTheme generateContent JSON_parse level previousThemeName
  = Theme DEFAULT_THEME.
Proof.
  intros Hresp Hfalsy. unfold generateLevelTheme, tryBlock.
  rewrite Hresp, Hfalsy. reflexivity.
Qed.

Lemma generateLevelTheme_parsed level previousThemeName text v :
  generateContent (contents level previousThemeName) = JS.Normal (Some text) ->
  text <> "" -> JSON_parse text = JS.Normal v ->
  generateLevelTheme generateContent JSON_parse level previousThemeName
  = Unchecked v.
Proof.
  intros Hresp Hne Hparse. unfold generateLevelTheme, tryBlock.
  rewrite Hresp. destruct text; [now elim Hne|].
  simpl. rewrite Hparse. reflexivity.
Qed.

(** C9, as the code has it.  Whenever the request throws (network error)
    or [JSON.parse] throws on the response text, [generateLevelTheme] does
    not raise: it resolves to a complete theme record, the default theme
    with its name replaced by "Level <level> (Offline Mode)" and its story
    text by "Uplink failed. Running local simulation.", every colour being
    the default one.  Whenever the response carries no text, or an empty
    one, it resolves to the default theme itself, name and story included. *)
Theorem theme_fallback_on_failure (level : Z) (previousThemeName : string) :
  ((generateContent (contents level previousThemeName) = JS.Throws \/
    exists text, generateContent (contents level previousThemeName)
                 = JS.Normal (Some text)
                 /\ text <> "" /\ JSON_parse text = JS.Throws) ->
   exists t : GameTheme,
     generateLevelTheme generateContent JSON_parse level previousThemeName
     = Theme t
     /\ complete (Theme t)
     /\ t.(name) = "Level " ++ JS.numberToString level ++ " (Offline Mode)"
     /\ t.(storyText) = "Uplink failed. Running local simulation."
     /\ t.(gridColor) = DEFAULT_THEME.(gridColor)
     /\ t.(snakeHeadColor) = DEFAULT_THEME.(snakeHeadColor)
     /\ t.(snakeBodyColor) = DEFAULT_THEME.(snakeBodyColor)
     /\ t.(foodColor) = DEFAULT_THEME.(foodColor)
     /\ t.(backgroundColor) = DEFAULT_THEME.(backgroundColor)
     /\ t.(glowColor) = DEFAULT_THEME.(glowColor)
     /\ t.(name) <> DEFAULT_THEME.(name)
     /\ t.(storyText) <> DEFAULT_THEME.(storyText))
  /\ (forall text,
        generateContent (contents level previousThemeName) = JS.Normal text ->
        text = None \/ text = Some "" ->
        generateLevelTheme generateContent JSON_parse level previousThemeName
        = Theme DEFAULT_THEME).
Proof.
  split.
  - intros Hfail. apply tryBlock_throws_iff in Hfail.
    exists (offlineTheme level). unfold generateLevelTheme. rewrite Hfail.
    repeat split; discriminate.
  - intros text Hresp Hempty.
    apply (generateLevelTheme_no_text level previousThemeName text Hresp).
    destruct Hempty as [-> | ->]; reflexivity.
Qed.

End GeminiFacts.

Lemma theme_fallback_on_failure_witness :
  let generateContent :=
    fun _ : string => JS.Normal (Some "<html>503</html>"%string) in
  let JSON_parse := fun _ : string => @JS.Throws Gemini.JsValue in
  (generateContent (Gemini.contents 3 "Neon Genesis") = JS.Throws \/
   exists text, generateContent (Gemini.contents 3 "Neon Genesis")
                = JS.Normal (Some text)
                /\ text <> ""%string /\ JSON_parse text = JS.Throws) /\
  Gemini.generateLevelTheme generateContent JSON_parse 3 "Neon Genesis"
  = Gemini.Theme
      (Types.mkTheme "Level 3 (Offline Mode)" "#1f2937" "#00ffcc" "#00ccaa"
         "#ff00ff" "#000000" "rgba(0, 255, 204, 0.5)"
         "Uplink failed. Running local simulation.").
Proof.
  intros generateContent JSON_parse.
  assert (Hfail : generateContent (Gemini.contents 3 "Neon Genesis") = JS.Throws \/
                  exists text, generateContent (Gemini.contents 3 "Neon Genesis")
                               = JS.Normal (Some text)
                               /\ text <> ""%string /\ JSON_parse text = JS.Throws).
  { right. exists "<html>503</html>"%string.
    repeat split; [discriminate]. }
  split; [exact Hfail|].
  destruct (proj1 (theme_fallback_on_failure generateContent JSON_parse
                     3 "Neon Genesis"%string) Hfail)
    as (t & Ht & _ & Hname & Hstory & Hc1 & Hc2 & Hc3 & Hc4 & Hc5 & Hc6 & _).
  rewrite Ht. destruct t; simpl in *. subst. reflexivity.
Defined.

(** C9, as the specification states it, fails on responses that are
    malformed without making the [try] block throw.  A response whose text
    is empty is answered with the default theme, "Neon Genesis", not with
    the offline one; a response whose text is the JSON object without
    properties is answered with that object, which is not a complete
    theme.  [JSON_parse] is [JSON.parse] on the two texts that occur: it
    rejects the empty string and reads "{}" as the empty object. *)
Lemma malformed_response_without_fallback :
  let JSON_parse := fun text : string =>
    if String.eqb text "{}" then JS.Normal (Gemini.JsObject [])
    else JS.Throws in
  let emptyText := fun _ : string => JS.Normal (Some ""%string) in
  let emptyObject := fun _ : string => JS.Normal (Some "{}"%string) in
  JSON_parse ""%string = JS.Throws
  /\ Gemini.generateLevelTheme emptyText JSON_parse 3 "Neon Genesis"
     = Gemini.Theme Gemini.DEFAULT_THEME
  /\ Gemini.generateLevelTheme emptyText JSON_parse 3 "Neon Genesis"
     <> Gemini.Theme (Gemini.offlineTheme 3)
  /\ Types.name Gemini.DEFAULT_THEME = "Neon Genesis"%string
  /\ Gemini.generateLevelTheme emptyObject JSON_parse 3 "Neon Genesis"
     = Gemini.Unchecked (Gemini.JsObject [])
  /\ ~ Gemini.complete
        (Gemini.generateLevelTheme emptyObject JSON_parse 3 "Neon Genesis").
Proof.
  repeat split; try reflexivity.
  - discriminate.
  - intros H. apply H. reflexivity.
Qed.

(* ===================================================================== *)
(** ** Properties of the simulation controller *)
(* ===================================================================== *)

Section AppFacts.
Import Types App.
Local Open Scope Z_scope.

(** *** Points and membership *)

Lemma samePoint_eq (a b : Point) : samePoint a b = true <-> a = b.
Proof.
  destruct a as [ax ay], b as [bx by_]. unfold samePoint; simpl.
  rewrite andb_true_iff, !Z.eqb_eq. split.
  - intros [-> ->]. reflexivity.
  - intros H. injection H as -> ->. split; reflexivity.
Qed.

Lemma samePoint_neq (a b : Point) : samePoint a b = false <-> a <> b.
Proof.
  rewrite <- samePoint_eq. destruct (samePoint a b); split; congruence.
Qed.

Lemma existsb_samePoint (p : Point) (l : list Point) :
  existsb (fun segment => samePoint segment p) l = true <-> In p l.
Proof.
  rewrite existsb_exists. split.
  - intros (q & Hin & Hq). apply samePoint_eq in Hq. now subst q.
  - intros Hin. exists p. split; [assumption|]. now apply samePoint_eq.
Qed.

Lemma existsb_samePoint_false (p : Point) (l : list Point) :
  existsb (fun segment => samePoint segment p) l = false <-> ~ In p l.
Proof.
  rewrite <- existsb_samePoint.
  destruct (existsb _ l); split; congruence.
Qed.

Lemma length_removelast_cons {A : Type} (a : A) (l : list A) :
  length (removelast (a :: l)) = length l.
Proof.
  revert a. induction l as [|b l IH]; intros a; [reflexivity|].
  transitivity (S (length (removelast (b :: l)))); [reflexivity|].
  now rewrite IH.
Qed.

(** *** Food placement *)

(** Lists two elements at a time, the way the loop reads the tape. *)
Lemma list_pair_ind {A : Type} (P : list A -> Prop) :
  P [] -> (forall a, P [a]) ->
  (forall a b l, P l -> P (a :: b :: l)) ->
  forall l, P l.
Proof.
  intros Hnil Hone Hstep l.
  assert (H : P l /\ forall a, P (a :: l)).
  { induction l as [|b l [IH1 IH2]]; [now split|].
    split; [apply IH2|]. intros a. now apply Hstep. }
  exact (proj1 H).
Qed.

Lemma generateFood_unfold size currentSnake rx ry rest :
  generateFood size currentSnake (rx :: ry :: rest)
  = if existsb (fun segment => samePoint segment (drawnCell size rx ry))
         currentSnake
    then generateFood size currentSnake rest
    else Some (drawnCell size rx ry, rest).
Proof. reflexivity. Qed.

Lemma generateFood_free size currentSnake tape newFood tape' :
  generateFood size currentSnake tape = Some (newFood, tape') ->
  ~ In newFood currentSnake.
Proof.
  revert newFood tape'.
  induction tape as [|r|rx ry rest IH] using list_pair_ind;
    intros newFood tape' H; try discriminate.
  rewrite generateFood_unfold in H.
  destruct (existsb _ currentSnake) eqn:Hhit.
  - now apply (IH newFood tape').
  - injection H as <- <-. now apply existsb_samePoint_false.
Qed.

(** The loop stops as soon as a pair of draws designates a free cell. *)
Lemma generateFood_returns size currentSnake tape n rx ry :
  nth_error tape (2 * n) = Some rx ->
  nth_error tape (2 * n + 1) = Some ry ->
  ~ In (drawnCell size rx ry) currentSnake ->
  exists newFood tape', generateFood size currentSnake tape = Some (newFood, tape').
Proof.
  revert tape. induction n as [|n IH]; intros tape Hx Hy Hfree.
  - destruct tape as [|a [|b rest]]; try discriminate.
    simpl in Hx, Hy. injection Hx as ->. injection Hy as ->.
    rewrite generateFood_unfold.
    apply existsb_samePoint_false in Hfree. rewrite Hfree. eauto.
  - replace (2 * S n)%nat with (S (S (2 * n))) in Hx by lia.
    replace (2 * S n + 1)%nat with (S (S (2 * n + 1))) in Hy by lia.
    destruct tape as [|a [|b rest]]; try discriminate.
    simpl in Hx, Hy. rewrite generateFood_unfold.
    destruct (existsb _ currentSnake); [|eauto].
    now apply IH.
Qed.

(** *** The tick, case by case *)

Lemma hitsWallOf_outOfBoundsOf c p : hitsWallOf c p = true <-> outOfBoundsOf c p.
Proof.
  unfold hitsWallOf, outOfBoundsOf.
  rewrite !orb_true_iff, !Z.ltb_lt, !Z.geb_le. lia.
Qed.

Lemma hitsWall_outOfBounds s p : hitsWall s p = true <-> outOfBounds s p.
Proof. exact (hitsWallOf_outOfBoundsOf (capture s) p). Qed.

Lemma collisionOf_decide c s head rest :
  s.(snake) = head :: rest ->
  collisionOf c s <->
  hitsWallOf c (moveHead s.(nextDirectionRef) head)
  || existsb (fun segment => samePoint segment (moveHead s.(nextDirectionRef) head))
       s.(snake) = true.
Proof.
  intros Hsnake.
  rewrite orb_true_iff, hitsWallOf_outOfBoundsOf, existsb_samePoint.
  unfold collisionOf, newHeadOf. split.
  - intros (p & Hp & H). rewrite Hsnake in Hp. injection Hp as <-. exact H.
  - intros H. exists (moveHead s.(nextDirectionRef) head).
    split; [now rewrite Hsnake | exact H].
Qed.

Lemma collision_decide s head rest :
  s.(snake) = head :: rest ->
  collision s <->
  hitsWall s (moveHead s.(nextDirectionRef) head)
  || existsb (fun segment => samePoint segment (moveHead s.(nextDirectionRef) head))
       s.(snake) = true.
Proof. exact (collisionOf_decide (capture s) s head rest). Qed.

Lemma gameTickOf_cases c s tape : TickCaseOf c s tape.
Proof.
  destruct (snake s) as [|head rest] eqn:Hsnake.
  - apply tickOf_no_head; [assumption|].
    unfold gameTickOf. rewrite Hsnake. reflexivity.
  - pose proof (collisionOf_decide c s head rest Hsnake) as Hcol.
    assert (Hnh : newHeadOf s = Some (moveHead s.(nextDirectionRef) head))
      by (unfold newHeadOf; now rewrite Hsnake).
    set (newHead := moveHead s.(nextDirectionRef) head) in *.
    assert (Htick : gameTickOf c s tape
      = if hitsWallOf c newHead
        then Some (gameOverOf c (commitDirection s), tape)
        else if existsb (fun segment => samePoint segment newHead) s.(snake)
        then Some (gameOverOf c (commitDirection s), tape)
        else if samePoint newHead c.(capturedFood)
        then match generateFood c.(capturedBoardSize)
                     (newHead :: s.(snake)) tape with
             | Some (newFood, tape') => Some (grown s newHead newFood, tape')
             | None => None
             end
        else Some (setSnake (removelast (newHead :: s.(snake)))
                     (commitDirection s), tape)).
    { unfold gameTickOf. rewrite Hsnake. fold newHead.
      match goal with
      | |- (if ?b then _ else _) tape = _ => change b with (hitsWallOf c newHead)
      end.
      destruct (hitsWallOf c newHead); [reflexivity|].
      destruct (existsb _ (head :: rest)); [reflexivity|].
      destruct (samePoint newHead (capturedFood c)); [|reflexivity].
      unfold JS.bind, JS.ret, grown, commitDirection.
      simpl score. simpl level. rewrite Hsnake.
      destruct (Z.rem (score s + 10) 50 =? 0); reflexivity. }
    destruct (hitsWallOf c newHead) eqn:Hwall.
    { apply tickOf_collision; [apply Hcol; reflexivity | exact Htick]. }
    destruct (existsb _ (snake s)) eqn:Hself.
    { apply tickOf_collision; [apply Hcol; reflexivity | exact Htick]. }
    assert (Hfree : ~ collisionOf c s) by (rewrite Hcol; discriminate).
    destruct (samePoint newHead (capturedFood c)) eqn:Hfood.
    + apply (tickOf_eat c s tape newHead Hnh Hfree);
        [now apply samePoint_eq | exact Htick].
    + apply (tickOf_move c s tape newHead Hnh Hfree);
        [now apply samePoint_neq | exact Htick].
Qed.

(** The tick of the latest render is the tick with the closure of the
    state it runs in. *)
Lemma gameTick_cases s tape : TickCase s tape.
Proof.
  destruct (gameTickOf_cases (capture s) s tape)
    as [Hs Ht | Hc Ht | nh Hnh Hf Hfd Ht | nh Hnh Hf Hfd Ht].
  - exact (tick_no_head s tape Hs Ht).
  - exact (tick_collision s tape Hc Ht).
  - exact (tick_move s tape nh Hnh Hf Hfd Ht).
  - exact (tick_eat s tape nh Hnh Hf Hfd Ht).
Qed.

Lemma some_pair_inj {A B : Type} (a a' : A) (b b' : B) :
  Some (a, b) = Some (a', b') -> a = a' /\ b = b'.
Proof. intros H. injection H as -> ->. now split. Qed.

(** Inversion of a returned tick along the four cases. *)
Ltac tick_inversion s tape H :=
  let Hs := fresh "Hsnake" in
  let Ht := fresh "Htick" in
  let Hc := fresh "Hcollision" in
  let Hf := fresh "Hfree" in
  let nh := fresh "newHead" in
  let Hnh := fresh "HnewHead" in
  let Hfd := fresh "Hfood" in
  destruct (gameTick_cases s tape)
    as [Hs Ht | Hc Ht | nh Hnh Hf Hfd Ht | nh Hnh Hf Hfd Ht];
  rewrite Ht in H;
  [ | | | destruct (generateFood (boardSize s) (nh :: snake s) tape)
            as [[? ?]|] eqn:?; [|discriminate H] ];
  apply some_pair_inj in H; destruct H as [<- <-].

Ltac tickOf_inversion c s tape H :=
  let Hs := fresh "Hsnake" in
  let Ht := fresh "Htick" in
  let Hc := fresh "Hcollision" in
  let Hf := fresh "Hfree" in
  let nh := fresh "newHead" in
  let Hnh := fresh "HnewHead" in
  let Hfd := fresh "Hfood" in
  destruct (gameTickOf_cases c s tape)
    as [Hs Ht | Hc Ht | nh Hnh Hf Hfd Ht | nh Hnh Hf Hfd Ht];
  rewrite Ht in H;
  [ | | | destruct (generateFood (capturedBoardSize c) (nh :: snake s) tape)
            as [[? ?]|] eqn:?; [|discriminate H] ];
  apply some_pair_inj in H; destruct H as [<- <-].

Lemma no_head_no_collision s : s.(snake) = [] -> ~ collision s.
Proof.
  intros Hs (p & Hp & _). unfold newHeadOf in Hp. rewrite Hs in Hp. discriminate.
Qed.


Lemma directionRef_grown s newHead newFood :
  (grown s newHead newFood).(directionRef) = s.(nextDirectionRef)
  /\ (grown s newHead newFood).(direction) = s.(nextDirectionRef)
  /\ (grown s newHead newFood).(nextDirectionRef) = s.(nextDirectionRef).
Proof. unfold grown. destruct (Z.rem _ 50 =? 0); repeat split. Qed.


(** A tick commits the buffered direction, whatever else it does. *)
Lemma gameTick_direction s tape s' tape' :
  gameTick s tape = Some (s', tape') ->
  s'.(directionRef) = s.(nextDirectionRef)
  /\ s'.(direction) = s.(nextDirectionRef)
  /\ s'.(nextDirectionRef) = s.(nextDirectionRef).
Proof.
  intros H. tick_inversion s tape H; try (repeat split; reflexivity).
  apply directionRef_grown.
Qed.

(** *** Which ticks return *)

Lemma afterTick_intro (P : State -> Prop) s tape :
  (forall s' tape', gameTick s tape = Some (s', tape') -> P s') ->
  afterTick s tape P.
Proof.
  intros HP. unfold afterTick.
  destruct (gameTick s tape) as [[s' tape']|] eqn:Htick; [now apply (HP s' tape')|].
  destruct (gameTick_cases s tape)
    as [Hs Ht | Hc Ht | nh Hnh Hf Hfd Ht | nh Hnh Hf Hfd Ht];
    try congruence.
  subst nh. rewrite Htick in Ht.
  destruct (generateFood _ _ tape) as [[? ?]|] eqn:Hfood; [discriminate|].
  split; [split; assumption | exact Hfood].
Qed.

Lemma afterTickOf_intro (P : State -> Prop) c s tape :
  (forall s' tape', gameTickOf c s tape = Some (s', tape') -> P s') ->
  afterTickOf c s tape P.
Proof.
  intros HP. unfold afterTickOf.
  destruct (gameTickOf c s tape) as [[s' tape']|] eqn:Htick;
    [now apply (HP s' tape')|].
  destruct (gameTickOf_cases c s tape)
    as [Hs Ht | Hc Ht | nh Hnh Hf Hfd Ht | nh Hnh Hf Hfd Ht];
    try congruence.
  subst nh. rewrite Htick in Ht.
  destruct (generateFood _ _ tape) as [[? ?]|] eqn:Hfood; [discriminate|].
  split; [split; assumption | exact Hfood].
Qed.

(** The head [gameTick] computes is the cell one step along the buffered
    direction. *)
Lemma oneCellAlong_moveHead d head p :
  oneCellAlong d head p <-> p = moveHead d head.
Proof.
  destruct p as [px py], head as [hx hy], d; simpl; split;
    try (intros [-> ->]; reflexivity);
    intros H; injection H as -> ->; split; reflexivity.
Qed.

Lemma headRunsInto_collisionOf c s : headRunsInto c s <-> collisionOf c s.
Proof.
  unfold headRunsInto, collisionOf, newHeadOf. split.
  - intros (head & rest & newHead & Hs & Hcell & H).
    apply oneCellAlong_moveHead in Hcell. subst newHead.
    exists (moveHead (nextDirectionRef s) head). rewrite Hs.
    split; [reflexivity | exact H].
  - intros (newHead & Hnh & H).
    destruct (snake s) as [|head rest]; [discriminate|].
    injection Hnh as <-.
    exists head, rest, (moveHead (nextDirectionRef s) head).
    split; [reflexivity|]. split; [|exact H].
    now apply oneCellAlong_moveHead.
Qed.

Lemma afterReset_intro (P : State -> Prop) s tape :
  (forall s' tape', resetGame s tape = Some (s', tape') -> P s') ->
  afterReset s tape P.
Proof.
  intros HP. unfold afterReset.
  destruct (resetGame s tape) as [[s' tape']|] eqn:Hreset; [now apply (HP s' tape')|].
  unfold resetGame, JS.bind, JS.ret in Hreset.
  fold (initialSnakeOf s) in Hreset.
  destruct (generateFood _ (initialSnakeOf s) tape) as [[? ?]|];
    [discriminate | reflexivity].
Qed.

(** A tick that does not eat returns, and leaves the tape alone. *)
Lemma gameTick_returns_without_food s tape :
  ~ eatsFood s -> exists s', gameTick s tape = Some (s', tape).
Proof.
  intros Hno.
  destruct (gameTick_cases s tape)
    as [Hs Ht | Hc Ht | nh Hnh Hf Hfd Ht | nh Hnh Hf Hfd Ht]; eauto.
  elim Hno. split; congruence.
Qed.

(** A tick is stuck only on a tape none of whose pairs of draws designates
    a cell off the grown snake. *)
Lemma stuck_without_free_draw s tape n rx ry :
  stuckInFoodPlacement s tape ->
  nth_error tape (2 * n) = Some rx ->
  nth_error tape (2 * n + 1) = Some ry ->
  In (drawnCell s.(boardSize) rx ry) (s.(food) :: s.(snake)).
Proof.
  intros [_ Hnone] Hx Hy.
  apply existsb_samePoint.
  destruct (existsb _ (food s :: snake s)) eqn:Hhit; [reflexivity|].
  apply existsb_samePoint_false in Hhit.
  destruct (generateFood_returns _ _ _ _ _ _ Hx Hy Hhit) as (p & t & Hp).
  congruence.
Qed.

(** *** The claims on ticks *)


(** C4, as the code has it.  On a tick in which a wall or self collision is
    detected the snake, the food position, the score, the level and the
    buffered direction keep their pre-tick values; the status becomes
    GAME_OVER; the direction (state and ref) becomes the buffered direction,
    so it keeps its pre-tick value exactly when no turn was buffered; the
    history gains one entry and is cut to its last ten entries, and the game
    count goes up by one.  The entry is the one the [gameOver] of the tick
    builds from what it captured; for a tick whose [gameTick] is the one of
    the latest render this is (game count + 1, score, level) of the
    pre-tick state. *)
Theorem collision_frame (c : Closure) (s : State) (tape : list float) :
  headRunsInto c s ->
  exists s',
    gameTickOf c s tape = Some (s', tape)
    /\ s'.(status) = GAME_OVER
    /\ s'.(snake) = s.(snake)
    /\ s'.(food) = s.(food)
    /\ s'.(score) = s.(score)
    /\ s'.(level) = s.(level)
    /\ s'.(nextDirectionRef) = s.(nextDirectionRef)
    /\ s'.(direction) = s.(nextDirectionRef)
    /\ s'.(directionRef) = s.(nextDirectionRef)
    /\ (s'.(direction) = s.(direction) <-> s.(nextDirectionRef) = s.(direction))
    /\ s'.(history)
       = JS.sliceLast 10
           (s.(history)
            ++ [mkEntry (c.(capturedGameCount) + 1) c.(capturedScore)
                  c.(capturedLevel)])
    /\ (c = capture s ->
        s'.(history)
        = JS.sliceLast 10
            (s.(history) ++ [mkEntry (s.(gameCount) + 1) s.(score) s.(level)]))
    /\ s'.(gameCount) = s.(gameCount) + 1
    /\ s'.(theme) = s.(theme)
    /\ s'.(isVisionMode) = s.(isVisionMode)
    /\ s'.(boardSize) = s.(boardSize)
    /\ s'.(speedRef) = s.(speedRef).
Proof.
  intros Hcol. apply headRunsInto_collisionOf in Hcol.
  destruct (gameTickOf_cases c s tape)
    as [Hs Ht | Hc Ht | nh Hnh Hf Hfd Ht | nh Hnh Hf Hfd Ht].
  - destruct Hcol as (p & Hp & _). unfold newHeadOf in Hp.
    rewrite Hs in Hp. discriminate.
  - exists (gameOverOf c (commitDirection s)). split; [exact Ht|].
    cbn -[JS.sliceLast Z.add].
    repeat split; intros; subst; try congruence; reflexivity.
  - now elim Hf.
  - now elim Hf.
Qed.

(** C7. A tick on which food is consumed raises the score by exactly 10,
    and raises the level by exactly 1 exactly when the resulting score is a
    multiple of 50; a tick on which no food is consumed changes neither. *)
Theorem score_and_level_after_tick (s : State) (tape : list float) :
  afterTick s tape (fun s' =>
    (eatsFood s ->
     s'.(score) = s.(score) + 10
     /\ ((50 | s'.(score)) -> s'.(level) = s.(level) + 1)
     /\ (~ (50 | s'.(score)) -> s'.(level) = s.(level)))
    /\ (~ eatsFood s -> s'.(score) = s.(score) /\ s'.(level) = s.(level))).
Proof.
  apply afterTick_intro. intros s' tape' H.
  tick_inversion s tape H.
  - split; [|intros _; split; reflexivity].
    intros [Hhead _]. unfold newHeadOf in Hhead. rewrite Hsnake in Hhead.
    discriminate.
  - split; [|intros _; split; reflexivity].
    intros [_ Hno]. now elim Hno.
  - split; [|intros _; split; reflexivity].
    intros [Hhead _]. congruence.
  - split; [|intros Hno; elim Hno; split; congruence].
    intros _. unfold grown.
    destruct (Z.rem (score s + 10) 50 =? 0) eqn:Hrem; cbn [score level setSnake
      setFood setScore setLevel commitDirection setDirection setDirectionRef].
    + apply Z.eqb_eq in Hrem. apply Z.rem_divide in Hrem; [|discriminate].
      split; [reflexivity|].
      split; [intros _; reflexivity | intros Hno; now elim Hno].
    + apply Z.eqb_neq in Hrem.
      assert (Hnd : ~ (50 | score s + 10)).
      { intros Hd. apply Hrem. apply Z.rem_divide; [discriminate|exact Hd]. }
      split; [reflexivity|].
      split; [intros Hd; now elim Hnd | intros _; reflexivity].
Qed.

(** *** Food *)

Lemma reset_food_free s tape s' tape' :
  resetGame s tape = Some (s', tape') -> ~ In s'.(food) s'.(snake).
Proof.
  intros H. unfold resetGame, JS.bind, JS.ret in H.
  destruct (generateFood _ _ tape) as [[newFood rest]|] eqn:Hfood;
    [|discriminate].
  apply some_pair_inj in H. destruct H as [<- <-].
  exact (generateFood_free _ _ _ _ _ Hfood).
Qed.

Lemma tick_food_free s tape s' tape' :
  gameTick s tape = Some (s', tape') -> eatsFood s ->
  ~ In s'.(food) s'.(snake).
Proof.
  intros H [Hhead Hfree].
  tick_inversion s tape H; try congruence.
  - unfold newHeadOf in Hhead. rewrite Hsnake in Hhead. discriminate.
  - unfold grown. cbn [snake food setSnake setFood].
    match goal with
    | Hg : generateFood _ _ tape = Some _ |- _ =>
        exact (generateFood_free _ _ _ _ _ Hg)
    end.
Qed.

(** C8. Whatever the snake, the position [generateFood] returns is not a
    segment of it; and it does return, as soon as a pair of draws designates
    a cell off the snake.  So the food set by [resetGame], and by a tick
    that eats, is off the snake of that moment. *)
Theorem food_never_on_snake :
  (forall size currentSnake tape newFood tape',
     generateFood size currentSnake tape = Some (newFood, tape') ->
     ~ In newFood currentSnake
     /\ existsb (fun segment => samePoint segment newFood) currentSnake = false)
  /\ (forall size currentSnake tape n rx ry,
        nth_error tape (2 * n) = Some rx ->
        nth_error tape (2 * n + 1) = Some ry ->
        ~ In (drawnCell size rx ry) currentSnake ->
        exists newFood tape',
          generateFood size currentSnake tape = Some (newFood, tape')
          /\ ~ In newFood currentSnake)
  /\ (forall s tape,
        afterReset s tape (fun s' => ~ In s'.(food) s'.(snake)))
  /\ (forall s tape,
        eatsFood s ->
        afterTick s tape (fun s' => ~ In s'.(food) s'.(snake))).
Proof.
  split; [|split; [|split]].
  - intros size currentSnake tape newFood tape' H.
    pose proof (generateFood_free _ _ _ _ _ H) as Hfree.
    split; [exact Hfree | now apply existsb_samePoint_false].
  - intros size currentSnake tape n rx ry Hx Hy Hfree.
    destruct (generateFood_returns size currentSnake tape n rx ry Hx Hy Hfree)
      as (newFood & tape' & H).
    exists newFood, tape'. split; [exact H|].
    exact (generateFood_free _ _ _ _ _ H).
  - intros s tape. apply afterReset_intro. intros s' tape' H.
    exact (reset_food_free s tape s' tape' H).
  - intros s tape Heats. apply afterTick_intro. intros s' tape' H.
    exact (tick_food_free s tape s' tape' H Heats).
Qed.

(** *** Invariants of the reachable states *)

Lemma invariant_initial : Invariant initialState.
Proof.
  constructor; simpl; try discriminate; try reflexivity.
  split; [lia | exists 0; reflexivity].
Qed.

Lemma invariant_handleDirectionChange newDir s :
  Invariant s -> Invariant (handleDirectionChange newDir s).
Proof.
  intros [H1 H2 H3 H4 H5]. unfold handleDirectionChange.
  destruct newDir, (directionRef s) eqn:Hd; simpl;
    constructor; simpl; rewrite ?Hd; try assumption; try discriminate;
    rewrite <- ?Hd; assumption.
Qed.

Lemma invariant_handleKeyDown key s :
  Invariant s -> Invariant (handleKeyDown key s).
Proof.
  intros Hinv. unfold handleKeyDown.
  destruct (negb _); [assumption|].
  repeat (destruct (String.eqb key _);
          [now apply invariant_handleDirectionChange|]).
  assumption.
Qed.

Lemma invariant_resetGame s tape s' tape' :
  resetGame s tape = Some (s', tape') -> Invariant s'.
Proof.
  intros H. unfold resetGame, JS.bind, JS.ret in H.
  destruct (generateFood _ _ tape) as [[newFood rest]|]; [|discriminate].
  apply some_pair_inj in H. destruct H as [<- <-].
  constructor; simpl; try discriminate; try reflexivity.
  split; [lia | exists 0; reflexivity].
Qed.

(** The level test of an eating tick keeps [level = 1 + score / 50]. *)
Lemma level_step (sc lv : Z) :
  0 <= sc -> (10 | sc) -> lv = 1 + sc / 50 ->
  (if Z.rem (sc + 10) 50 =? 0 then lv + 1 else lv) = 1 + (sc + 10) / 50.
Proof.
  intros Hpos [k Hk] Hlv.
  rewrite Z.rem_mod_nonneg by lia.
  destruct (Z.eqb_spec ((sc + 10) mod 50) 0) as [Hz|Hz];
    subst; Z.div_mod_to_equations; lia.
Qed.

Lemma invariant_gameTickOf c s tape s' tape' :
  Invariant s -> gameTickOf c s tape = Some (s', tape') -> Invariant s'.
Proof.
  intros [H1 H2 H3 H4 H5] H.
  assert (Hopp : forall d, d <> opposite d) by (intros []; discriminate).
  tickOf_inversion c s tape H.
  - contradiction.
  - constructor; simpl; auto.
  - constructor; simpl; auto.
    unfold newHeadOf in HnewHead. destruct (snake s); discriminate.
  - unfold grown. constructor; cbn [snake setSnake]; try discriminate.
    + destruct (Z.rem _ 50 =? 0); reflexivity.
    + destruct (Z.rem _ 50 =? 0); simpl; auto.
    + destruct (Z.rem _ 50 =? 0); simpl;
        (split; [lia | apply Z.divide_add_r; [tauto | exists 1; reflexivity]]).
    + pose proof (level_step (score s) (level s) (proj1 H4) (proj2 H4) H5) as Hl.
      destruct (Z.rem _ 50 =? 0); simpl; exact Hl.
Qed.

Lemma invariant_gameTick s tape s' tape' :
  Invariant s -> gameTick s tape = Some (s', tape') -> Invariant s'.
Proof. exact (invariant_gameTickOf (capture s) s tape s' tape'). Qed.

(** *** Effects leave the game alone *)

Lemma game_clearGameLoop s : game (clearGameLoop s) = game s.
Proof. reflexivity. Qed.

Lemma game_startGameLoop s : game (startGameLoop s) = game s.
Proof. reflexivity. Qed.

Lemma game_levelEffect s : game (levelEffect s) = game s.
Proof. unfold levelEffect. destruct (_ && _); reflexivity. Qed.

Lemma game_gameLoopEffect s : game (gameLoopEffect s) = game s.
Proof. unfold gameLoopEffect. destruct (GameStatus_eqb _ _); reflexivity. Qed.

Lemma game_runEffects prev replaced s :
  game (runEffects prev replaced s) = game s.
Proof.
  unfold runEffects.
  destruct (replaced || _ || _), (negb (level s =? level prev));
    rewrite ?game_gameLoopEffect, ?game_levelEffect, ?game_clearGameLoop;
    reflexivity.
Qed.

(** Field by field. *)
Lemma game_fields s s' :
  game s' = game s ->
  s'.(status) = s.(status) /\ s'.(snake) = s.(snake) /\ s'.(food) = s.(food)
  /\ s'.(direction) = s.(direction) /\ s'.(score) = s.(score)
  /\ s'.(level) = s.(level) /\ s'.(theme) = s.(theme)
  /\ s'.(isVisionMode) = s.(isVisionMode) /\ s'.(boardSize) = s.(boardSize)
  /\ s'.(history) = s.(history) /\ s'.(gameCount) = s.(gameCount)
  /\ s'.(directionRef) = s.(directionRef)
  /\ s'.(nextDirectionRef) = s.(nextDirectionRef).
Proof.
  unfold game. intros H. injection H. intros. repeat split; assumption.
Qed.

Lemma invariant_game s s' : game s' = game s -> Invariant s -> Invariant s'.
Proof.
  intros Hg [H1 H2 H3 H4 H5].
  destruct (game_fields s s' Hg)
    as (_ & Hsn & _ & Hd & Hsc & Hl & _ & _ & _ & _ & _ & Hdr & Hnd).
  constructor; rewrite ?Hsn, ?Hd, ?Hsc, ?Hl, ?Hdr, ?Hnd; assumption.
Qed.

Lemma invariant_runEffects prev replaced s :
  Invariant s -> Invariant (runEffects prev replaced s).
Proof. apply invariant_game, game_runEffects. Qed.

Lemma invariant_setters s :
  Invariant s ->
  (forall v, Invariant (setTheme v s))
  /\ (forall v, Invariant (setIsVisionMode v s))
  /\ (forall v, Invariant (setBoardSize v s)).
Proof. intros []. split; [|split]; intros v; constructor; assumption. Qed.

Lemma invariant_step e s tape s' tape' :
  Invariant s -> step e s tape = Some (s', tape') -> Invariant s'.
Proof.
  intros Hinv H.
  destruct e; simpl in H.
  - apply some_pair_inj in H. destruct H as [<- <-].
    apply invariant_runEffects.
    exact (proj2 (proj2 (invariant_setters s Hinv)) _).
  - destruct (GameStatus_eqb _ _).
    + unfold JS.bind, JS.ret in H.
      destruct (resetGame _ tape) as [[s1 tape1]|] eqn:Hr; [|discriminate].
      apply some_pair_inj in H. destruct H as [<- <-].
      apply invariant_runEffects. exact (invariant_resetGame _ _ _ _ Hr).
    + apply some_pair_inj in H. destruct H as [<- <-]. assumption.
  - destruct (GameStatus_eqb _ _).
    + unfold JS.bind, JS.ret in H.
      destruct (resetGame _ tape) as [[s1 tape1]|] eqn:Hr; [|discriminate].
      apply some_pair_inj in H. destruct H as [<- <-].
      apply invariant_runEffects. exact (invariant_resetGame _ _ _ _ Hr).
    + apply some_pair_inj in H. destruct H as [<- <-]. assumption.
  - destruct (GameStatus_eqb _ _).
    + unfold JS.bind, JS.ret in H.
      destruct (resetGame _ tape) as [[s1 tape1]|] eqn:Hr; [|discriminate].
      apply some_pair_inj in H. destruct H as [<- <-].
      apply invariant_runEffects. exact (invariant_resetGame _ _ _ _ Hr).
    + apply some_pair_inj in H. destruct H as [<- <-]. assumption.
  - apply some_pair_inj in H. destruct H as [<- <-].
    now apply invariant_handleKeyDown.
  - destruct (_ && _); apply some_pair_inj in H; destruct H as [<- <-];
      [now apply invariant_handleDirectionChange | assumption].
  - destruct (find _ _) as [i|].
    + unfold JS.bind, JS.ret in H.
      destruct (gameTickOf _ s tape) as [[s1 tape1]|] eqn:Htick; [|discriminate].
      apply some_pair_inj in H. destruct H as [<- <-].
      apply invariant_runEffects.
      exact (invariant_gameTickOf _ _ _ _ _ Hinv Htick).
    + apply some_pair_inj in H. destruct H as [<- <-]. assumption.
  - apply some_pair_inj in H. destruct H as [<- <-].
    apply invariant_runEffects.
    exact (proj1 (invariant_setters s Hinv) _).
Qed.

Lemma reachable_invariant s : reachable s -> Invariant s.
Proof.
  induction 1 as [|e s s' tape tape' _ IH Hstep].
  - exact invariant_initial.
  - exact (invariant_step _ _ _ _ _ IH Hstep).
Qed.

Lemma run_reachable events s tape s' tape' :
  reachable s -> run events s tape = Some (s', tape') -> reachable s'.
Proof.
  revert s tape. induction events as [|e events IH]; intros s tape Hs H.
  - apply some_pair_inj in H. destruct H as [<- _]. assumption.
  - simpl in H. unfold JS.bind in H.
    destruct (step e s tape) as [[s1 tape1]|] eqn:Hstep; [|discriminate].
    apply (IH s1 tape1); [|exact H].
    exact (reachable_step e s s1 tape tape1 Hs Hstep).
Qed.

(** In a reachable state the level is one more than the number of
    multiples of 50 the score has reached. *)
Lemma level_tracks_score s : reachable s -> s.(level) = 1 + s.(score) / 50.
Proof. intros H. exact (inv_level s (reachable_invariant s H)). Qed.

(** *** Direction changes *)

(** C3. Whatever the committed direction D, a call of
    [handleDirectionChange] with the exact opposite of D leaves the buffered
    intent (indeed the whole state) unchanged; and in a reachable state the
    direction the next tick applies is then not the reverse of D. *)
Theorem reversal_is_ignored (s : State) (newDir : Direction) :
  newDir = opposite s.(directionRef) ->
  handleDirectionChange newDir s = s
  /\ (handleDirectionChange newDir s).(nextDirectionRef) = s.(nextDirectionRef)
  /\ (reachable s ->
      forall tape,
        afterTick (handleDirectionChange newDir s) tape (fun s' =>
          s'.(directionRef) <> opposite s.(directionRef)
          /\ s'.(direction) <> opposite s.(direction))).
Proof.
  intros ->.
  assert (Hsame : handleDirectionChange (opposite (directionRef s)) s = s).
  { unfold handleDirectionChange. destruct (directionRef s); reflexivity. }
  rewrite Hsame. split; [reflexivity|]. split; [reflexivity|].
  intros Hreach tape. apply afterTick_intro. intros s' tape' Htick.
  pose proof (reachable_invariant s Hreach) as Hinv.
  destruct (gameTick_direction _ _ _ _ Htick) as (-> & -> & _).
  rewrite (inv_direction s Hinv).
  split; exact (inv_buffer s Hinv).
Qed.

(** *** The snake is never empty *)

(** C10. [resetGame] establishes a snake of exactly three segments; a tick
    never shortens the snake and lengthens it by one when food is eaten; so
    in every reachable state the snake is not empty and the next tick has a
    head to read. *)
Theorem snake_never_empty :
  (forall s tape, afterReset s tape (fun s' => length s'.(snake) = 3%nat))
  /\ (forall s tape,
        afterTick s tape (fun s' =>
          (length s.(snake) <= length s'.(snake))%nat
          /\ (~ eatsFood s -> length s'.(snake) = length s.(snake))
          /\ (eatsFood s -> length s'.(snake) = S (length s.(snake)))))
  /\ (forall s,
        reachable s ->
        s.(snake) <> []
        /\ exists head rest,
             s.(snake) = head :: rest
             /\ newHeadOf s = Some (moveHead s.(nextDirectionRef) head)).
Proof.
  split; [|split].
  - intros s tape. apply afterReset_intro. intros s' tape' H.
    unfold resetGame, JS.bind, JS.ret in H.
    destruct (generateFood _ _ tape) as [[newFood rest]|]; [|discriminate].
    apply some_pair_inj in H. destruct H as [<- <-]. reflexivity.
  - intros s tape. apply afterTick_intro. intros s' tape' H.
    tick_inversion s tape H.
    + simpl. rewrite Hsnake. repeat split; try reflexivity.
      intros [Hhead _]. unfold newHeadOf in Hhead. rewrite Hsnake in Hhead.
      discriminate.
    + simpl. repeat split; try reflexivity.
      intros [_ Hno]. now elim Hno.
    + cbn [snake setSnake]. rewrite length_removelast_cons.
      repeat split; try reflexivity.
      intros [Hhead _]. congruence.
    + unfold grown. cbn [snake setSnake]. simpl length.
      split; [lia|]. split; [|reflexivity].
      intros Hno. elim Hno. split; congruence.
  - intros s Hreach.
    pose proof (inv_snake s (reachable_invariant s Hreach)) as Hne.
    split; [exact Hne|].
    unfold newHeadOf. destruct (snake s) as [|head rest]; [now elim Hne|].
    exists head, rest. split; reflexivity.
Qed.

(** *** The two games *)

Lemma run_towardsWall :
  run Scenario.towardsWall initialState [0; 0]%float
  = Some (Scenario.beforeWall, []).
Proof. vm_compute. reflexivity. Qed.

Lemma run_towardsFood :
  run Scenario.towardsFood initialState [0.75; 0.5]%float
  = Some (Scenario.beforeFood, []).
Proof. vm_compute. reflexivity. Qed.

Lemma reachable_beforeWall : reachable Scenario.beforeWall.
Proof. exact (run_reachable _ _ _ _ _ reachable_initial run_towardsWall). Qed.

Lemma reachable_beforeFood : reachable Scenario.beforeFood.
Proof. exact (run_reachable _ _ _ _ _ reachable_initial run_towardsFood). Qed.

Lemma collision_beforeWall : collision Scenario.beforeWall.
Proof.
  exists {| x := 16; y := -1 |}. split; [reflexivity|].
  left. unfold outOfBounds. simpl. lia.
Qed.

Lemma tick_beforeWall :
  gameTick Scenario.beforeWall [] = Some (Scenario.afterWall, []).
Proof. vm_compute. reflexivity. Qed.

Lemma no_collision_by_computation s head rest :
  s.(snake) = head :: rest ->
  hitsWall s (moveHead s.(nextDirectionRef) head)
  || existsb (fun segment => samePoint segment (moveHead s.(nextDirectionRef) head))
       s.(snake) = false ->
  ~ collision s.
Proof.
  intros Hsnake Hb Hcol.
  apply (collision_decide s head rest Hsnake) in Hcol. congruence.
Qed.

Lemma eatsFood_beforeFood : eatsFood Scenario.beforeFood.
Proof.
  split; [reflexivity|].
  now apply (no_collision_by_computation _ {| x := 20; y := 10 |}
               [ {| x := 19; y := 10 |}; {| x := 18; y := 10 |} ]).
Qed.

Lemma tick_beforeFood :
  gameTick Scenario.beforeFood [0; 0]%float = Some (Scenario.afterFood, []).
Proof. vm_compute. reflexivity. Qed.

Lemma step_beforeFood :
  step (Tick 1) Scenario.beforeFood [0; 0]%float
  = Some (Scenario.afterFoodRendered, []).
Proof. vm_compute. reflexivity. Qed.

Lemma reachable_afterFoodRendered : reachable Scenario.afterFoodRendered.
Proof.
  exact (reachable_step _ _ _ _ _ reachable_beforeFood step_beforeFood).
Qed.

Lemma step_beforeWall :
  step (Tick 1) Scenario.beforeWall [] = Some (Scenario.afterWall, []).
Proof. vm_compute. reflexivity. Qed.

Lemma reachable_afterWall : reachable Scenario.afterWall.
Proof.
  exact (reachable_step _ _ _ _ _ reachable_beforeWall step_beforeWall).
Qed.

Lemma headRunsInto_beforeWall :
  headRunsInto (capture Scenario.beforeWall) Scenario.beforeWall.
Proof.
  exists {| x := 16; y := 0 |},
         [ {| x := 15; y := 0 |}; {| x := 15; y := 1 |} ],
         {| x := 16; y := -1 |}.
  split; [reflexivity|]. split; [split; reflexivity|].
  left. unfold outOfBoundsOf. simpl. lia.
Qed.


Lemma collision_frame_witness :
  headRunsInto (capture Scenario.beforeWall) Scenario.beforeWall
  /\ exists s',
       gameTickOf (capture Scenario.beforeWall) Scenario.beforeWall []
       = Some (s', [])
       /\ s'.(status) = GAME_OVER
       /\ s'.(snake) = Scenario.beforeWall.(snake)
       /\ s'.(direction) = UP.
Proof.
  split; [exact headRunsInto_beforeWall|].
  destruct (collision_frame (capture Scenario.beforeWall) Scenario.beforeWall []
              headRunsInto_beforeWall)
    as (s' & Ht & Hst & Hsn & _ & _ & _ & _ & Hd & _).
  exists s'. repeat split; assumption.
Defined.

Lemma score_and_level_after_tick_witness :
  gameTick Scenario.beforeFood [0; 0]%float = Some (Scenario.afterFood, [])
  /\ eatsFood Scenario.beforeFood
  /\ Scenario.afterFood.(score) = Scenario.beforeFood.(score) + 10
  /\ Scenario.afterFood.(level) = Scenario.beforeFood.(level).
Proof.
  split; [exact tick_beforeFood|].
  split; [exact eatsFood_beforeFood|].
  pose proof (score_and_level_after_tick Scenario.beforeFood [0; 0]%float) as H.
  unfold afterTick in H. rewrite tick_beforeFood in H.
  destruct (proj1 H eatsFood_beforeFood) as (Hscore & _ & Hlevel).
  split; [exact Hscore|].
  apply Hlevel. intros [k Hk]. simpl in Hk. lia.
Defined.

Lemma food_never_on_snake_witness :
  let currentSnake := Scenario.beforeFood.(snake) in
  let size := Scenario.beforeFood.(boardSize) in
  nth_error [0.5; 0.5; 0.75; 0.5]%float (2 * 1) = Some 0.75%float
  /\ nth_error [0.5; 0.5; 0.75; 0.5]%float (2 * 1 + 1) = Some 0.5%float
  /\ drawnCell size 0.5 0.5 = {| x := 15; y := 10 |}
  /\ drawnCell size 0.75 0.5 = {| x := 21; y := 10 |}
  /\ ~ In (drawnCell size 0.75 0.5) currentSnake
  /\ exists newFood tape',
       generateFood size currentSnake [0.5; 0.5; 0.75; 0.5]%float
       = Some (newFood, tape')
       /\ ~ In newFood currentSnake.
Proof.
  intros currentSnake size.
  assert (Hfree : ~ In (drawnCell size 0.75 0.5) currentSnake).
  { apply existsb_samePoint_false. vm_compute. reflexivity. }
  split; [reflexivity|]. split; [reflexivity|].
  split; [vm_compute; reflexivity|]. split; [vm_compute; reflexivity|].
  split; [exact Hfree|].
  exact (proj1 (proj2 food_never_on_snake) size currentSnake
           [0.5; 0.5; 0.75; 0.5]%float 1%nat 0.75%float 0.5%float
           eq_refl eq_refl Hfree).
Defined.

Lemma reversal_is_ignored_witness :
  LEFT = opposite Scenario.beforeFood.(directionRef)
  /\ reachable Scenario.beforeFood
  /\ (handleDirectionChange LEFT Scenario.beforeFood).(nextDirectionRef)
     = Scenario.beforeFood.(nextDirectionRef)
  /\ gameTick (handleDirectionChange LEFT Scenario.beforeFood) [0; 0]%float
     = Some (Scenario.afterFood, [])
  /\ Scenario.afterFood.(directionRef) <> LEFT.
Proof.
  split; [reflexivity|]. split; [exact reachable_beforeFood|].
  destruct (reversal_is_ignored Scenario.beforeFood LEFT eq_refl)
    as (_ & Hbuf & Hnext).
  split; [exact Hbuf|]. split; [exact tick_beforeFood|].
  pose proof (Hnext reachable_beforeFood [0; 0]%float) as H.
  unfold afterTick in H.
  change (handleDirectionChange LEFT Scenario.beforeFood)
    with Scenario.beforeFood in H.
  rewrite tick_beforeFood in H. exact (proj1 H).
Defined.

Lemma snake_never_empty_witness :
  reachable Scenario.beforeFood
  /\ Scenario.beforeFood.(snake) <> []
  /\ newHeadOf Scenario.beforeFood = Some {| x := 21; y := 10 |}.
Proof.
  split; [exact reachable_beforeFood|].
  destruct (proj2 (proj2 snake_never_empty) Scenario.beforeFood
              reachable_beforeFood) as (Hne & head & rest & Hs & Hh).
  split; [exact Hne|]. rewrite Hh.
  injection Hs as <- _. reflexivity.
Defined.

(** C4, as the specification states it, fails.  In the first game the snake
    moves right along the top row with a turn upwards buffered; the tick
    runs into the wall, and the direction after it is UP, not the pre-tick
    RIGHT, while snake, food, score and level are as before. *)
Lemma collision_tick_changes_direction :
  reachable Scenario.beforeWall
  /\ collision Scenario.beforeWall
  /\ gameTick Scenario.beforeWall [] = Some (Scenario.afterWall, [])
  /\ Scenario.afterWall.(status) = GAME_OVER
  /\ Scenario.afterWall.(snake) = Scenario.beforeWall.(snake)
  /\ Scenario.afterWall.(food) = Scenario.beforeWall.(food)
  /\ Scenario.afterWall.(score) = Scenario.beforeWall.(score)
  /\ Scenario.afterWall.(level) = Scenario.beforeWall.(level)
  /\ Scenario.beforeWall.(direction) = RIGHT
  /\ Scenario.afterWall.(direction) = UP
  /\ Scenario.afterWall.(direction) <> Scenario.beforeWall.(direction).
Proof.
  split; [exact reachable_beforeWall|].
  split; [exact collision_beforeWall|].
  split; [exact tick_beforeWall|].
  repeat split; discriminate.
Qed.

Lemma run_towardsLevelTwo :
  run Scenario.towardsLevelTwo initialState Scenario.drawsLevelTwo
  = Some (Scenario.atLevelTwo, []).
Proof. vm_compute. reflexivity. Qed.

Lemma reachable_atLevelTwo : reachable Scenario.atLevelTwo.
Proof. exact (run_reachable _ _ _ _ _ reachable_initial run_towardsLevelTwo). Qed.

Lemma step_atLevelTwo :
  step (Tick 6) Scenario.atLevelTwo [] = Some (Scenario.overTheFood, []).
Proof. vm_compute. reflexivity. Qed.

(** C2 fails in the game that [Scenario.towardsLevelTwo] plays.  The render
    of the tick that raises the level to 2 starts two intervals, 6 in the
    effect on [level] and 7 in the effect of the game loop, and only 7, and
    later 8, is ever cleared.  Interval 6 keeps calling the [gameTick] that
    holds the food position (22,10) of that render.  When it fires with the
    head at (22,10) and the food at (23,10), the new head is the pre-tick
    food position and there is no collision, but the tick compares the new
    head with (22,10): the snake moves onto the food and keeps its nine
    segments, the score stays 60, and the food stays where it is, under the
    head. *)
Theorem leaked_tick_steps_over_food :
  run Scenario.towardsLevelTwo initialState Scenario.drawsLevelTwo
  = Some (Scenario.atLevelTwo, [])
  /\ reachable Scenario.atLevelTwo
  /\ Scenario.atLevelTwo.(status) = PLAYING
  /\ leaked (mkInterval 6 240
               (mkClosure {| x := 22; y := 10 |} 50 2 0 Scenario.board))
       Scenario.atLevelTwo
  /\ newHeadOf Scenario.atLevelTwo = Some Scenario.atLevelTwo.(food)
  /\ ~ collision Scenario.atLevelTwo
  /\ step (Tick 6) Scenario.atLevelTwo [] = Some (Scenario.overTheFood, [])
  /\ Scenario.overTheFood.(status) = PLAYING
  /\ length Scenario.atLevelTwo.(snake) = 9%nat
  /\ length Scenario.overTheFood.(snake) = 9%nat
  /\ Scenario.overTheFood.(score) = Scenario.atLevelTwo.(score)
  /\ Scenario.overTheFood.(food) = Scenario.atLevelTwo.(food)
  /\ hd_error Scenario.overTheFood.(snake) = Some Scenario.overTheFood.(food).
Proof.
  split; [exact run_towardsLevelTwo|].
  split; [exact reachable_atLevelTwo|].
  split; [reflexivity|].
  split; [split; [left; reflexivity | split; [discriminate | reflexivity]]|].
  split; [reflexivity|].
  split.
  { apply (no_collision_by_computation _ {| x := 22; y := 10 |}
             (Scenario.row 10 [21; 20; 19; 18; 17; 16; 15; 14]));
      reflexivity. }
  split; [exact step_atLevelTwo|].
  repeat split.
Qed.

End AppFacts.

(* ===================================================================== *)
(** ** Further properties of the simulation controller *)
(* ===================================================================== *)

Section ShapeFacts.
Import Types App Shape.
Local Open Scope Z_scope.

(** Inversion of a returned tick, whatever its closure. *)
Ltac tickOf_inversion c s tape H :=
  let Hs := fresh "Hsnake" in
  let Ht := fresh "Htick" in
  let Hc := fresh "Hcollision" in
  let Hf := fresh "Hfree" in
  let nh := fresh "newHead" in
  let Hnh := fresh "HnewHead" in
  let Hfd := fresh "Hfood" in
  destruct (gameTickOf_cases c s tape)
    as [Hs Ht | Hc Ht | nh Hnh Hf Hfd Ht | nh Hnh Hf Hfd Ht];
  rewrite Ht in H;
  [ | | | destruct (generateFood (capturedBoardSize c) (nh :: snake s) tape)
            as [[? ?]|] eqn:?; [|discriminate H] ];
  apply some_pair_inj in H; destruct H as [<- <-].

(** *** Lists of segments *)

Lemma In_removelast {A : Type} (a : A) (l : list A) :
  In a (removelast l) -> In a l.
Proof.
  induction l as [|b l IH]; [intros []|].
  destruct l as [|c l]; [intros []|].
  intros [<-|Hin]; [now left | right; now apply IH].
Qed.

Lemma NoDup_removelast {A : Type} (l : list A) :
  NoDup l -> NoDup (removelast l).
Proof.
  induction 1 as [|a l Hnotin Hnodup IH]; [constructor|].
  destruct l as [|b l]; [constructor|].
  change (removelast (a :: b :: l)) with (a :: removelast (b :: l)).
  constructor; [|exact IH].
  intros Hin. apply Hnotin. now apply In_removelast.
Qed.

Lemma connected_removelast (l : list Point) :
  connected l -> connected (removelast l).
Proof.
  induction l as [|a l IH]; [trivial|].
  destruct l as [|b l]; [trivial|].
  intros [Hab Hrest].
  change (removelast (a :: b :: l)) with (a :: removelast (b :: l)).
  destruct l as [|c l]; [exact I|].
  change (removelast (b :: c :: l)) with (b :: removelast (c :: l)) in *.
  split; [exact Hab | now apply IH].
Qed.

Lemma adjacent_moveHead (d : Direction) (p : Point) : adjacent (moveHead d p) p.
Proof. unfold adjacent. destruct d, p as [px py]; simpl; lia. Qed.

Lemma moveHead_injective (d d' : Direction) (p : Point) :
  moveHead d p = moveHead d' p -> d = d'.
Proof.
  destruct p as [px py], d, d'; simpl; intros H;
    try reflexivity; injection H; intros; lia.
Qed.

Lemma moveHead_opposite (d : Direction) (p : Point) :
  moveHead (opposite d) (moveHead d p) = p.
Proof. destruct p as [px py], d; simpl; f_equal; lia. Qed.

(** *** One tick *)

(** X1. On a tick without collision the new head is the old head moved by
    exactly one cell along the buffered direction, it lies inside the grid,
    and the body follows: the new snake is the new head in front of the old
    snake, whole when the food is eaten and without its last segment
    otherwise. *)
Theorem tick_moves_one_cell (s : State) (tape : list float)
    (head : Point) (rest : list Point) :
  s.(snake) = head :: rest ->
  ~ collision s ->
  afterTick s tape (fun s' =>
    exists newHead,
      newHead = moveHead s.(nextDirectionRef) head
      /\ adjacent newHead head
      /\ inGrid s' newHead
      /\ (eatsFood s -> s'.(snake) = newHead :: head :: rest)
      /\ (~ eatsFood s -> s'.(snake) = newHead :: removelast (head :: rest))).
Proof.
  intros Hsnake Hfree. apply afterTick_intro. intros s' tape' H.
  assert (Hnh : newHeadOf s = Some (moveHead s.(nextDirectionRef) head))
    by (unfold newHeadOf; now rewrite Hsnake).
  assert (Hin : inGrid s (moveHead s.(nextDirectionRef) head)).
  { pose proof (collision_decide s head rest Hsnake) as Hdec.
    destruct (hitsWall s (moveHead (nextDirectionRef s) head)) eqn:Hwall.
    - elim Hfree. apply Hdec. reflexivity.
    - unfold hitsWall in Hwall. unfold inGrid.
      rewrite !orb_false_iff, !Z.ltb_ge, !Z.geb_leb, !Z.leb_gt in Hwall. lia. }
  exists (moveHead s.(nextDirectionRef) head).
  split; [reflexivity|]. split; [apply adjacent_moveHead|].
  destruct (gameTick_cases s tape)
    as [Hs Ht | Hc Ht | nh Hnh' Hf Hfd Ht | nh Hnh' Hf Hfd Ht];
    try congruence; rewrite Ht in H.
  - apply some_pair_inj in H. destruct H as [<- <-].
    assert (nh = moveHead s.(nextDirectionRef) head) by congruence. subst nh.
    split; [exact Hin|]. split.
    + intros [Hhead _]. congruence.
    + intros _. cbn [snake setSnake]. rewrite Hsnake. reflexivity.
  - destruct (generateFood _ _ tape) as [[newFood tape1]|]; [|discriminate].
    apply some_pair_inj in H. destruct H as [<- <-].
    assert (Hnh2 : nh = moveHead s.(nextDirectionRef) head) by congruence.
    split.
    { unfold inGrid, gridCountX, gridCountY, grown in *.
      destruct (Z.rem _ 50 =? 0); exact Hin. }
    split.
    + intros _. unfold grown. cbn [snake setSnake]. now rewrite Hsnake, Hnh2.
    + intros Hno. elim Hno. split; [congruence | exact Hfree].
Qed.

Lemma tick_moves_one_cell_witness :
  Scenario.beforeFood.(snake)
  = {| x := 20; y := 10 |} :: [ {| x := 19; y := 10 |}; {| x := 18; y := 10 |} ]
  /\ ~ collision Scenario.beforeFood
  /\ Scenario.afterFood.(snake)
     = {| x := 21; y := 10 |}
       :: {| x := 20; y := 10 |} :: [ {| x := 19; y := 10 |}; {| x := 18; y := 10 |} ].
Proof.
  split; [reflexivity|]. split; [exact (proj2 eatsFood_beforeFood)|].
  pose proof (tick_moves_one_cell Scenario.beforeFood [0; 0]%float
                {| x := 20; y := 10 |}
                [ {| x := 19; y := 10 |}; {| x := 18; y := 10 |} ]
                eq_refl (proj2 eatsFood_beforeFood)) as H.
  unfold afterTick in H. rewrite tick_beforeFood in H.
  destruct H as (newHead & -> & _ & _ & Heat & _).
  exact (Heat eatsFood_beforeFood).
Defined.

(** *** The score history *)

Lemma sliceLast_length {A : Type} (n : nat) (l : list A) :
  length (JS.sliceLast n l) = Nat.min n (length l).
Proof. unfold JS.sliceLast. rewrite length_skipn. lia. Qed.

Lemma sliceLast_snoc {A : Type} (n : nat) (l : list A) (e : A) :
  (1 <= n)%nat -> exists older, JS.sliceLast n (l ++ [e]) = older ++ [e].
Proof.
  intros Hn. unfold JS.sliceLast. rewrite length_app. simpl length.
  exists (skipn (length l + 1 - n) l).
  rewrite skipn_app.
  replace (length l + 1 - n - length l)%nat with 0%nat by lia.
  reflexivity.
Qed.

Lemma consecutiveIds_snoc (first : Z) (h : list ScoreEntry) (e : ScoreEntry) :
  consecutiveIds first h ->
  e.(gameId) = first + Z.of_nat (length h) ->
  consecutiveIds first (h ++ [e]).
Proof.
  revert first. induction h as [|e0 h IH]; intros first Hh He; simpl in *.
  - split; [lia | exact I].
  - destruct Hh as [H0 Hh]. split; [exact H0|].
    apply IH; [exact Hh | lia].
Qed.

Lemma consecutiveIds_skipn (k : nat) (first : Z) (h : list ScoreEntry) :
  consecutiveIds first h ->
  consecutiveIds (first + Z.of_nat k) (skipn k h).
Proof.
  revert first h. induction k as [|k IH]; intros first h Hh.
  - simpl. now replace (first + 0) with first by lia.
  - destruct h as [|e h]; [exact I|].
    destruct Hh as [_ Hh]. simpl skipn.
    replace (first + Z.of_nat (S k)) with (first + 1 + Z.of_nat k) by lia.
    now apply IH.
Qed.

(** X2. [gameOver] appends the entry (game count + 1, score, level) and
    keeps the ten most recent entries: the new history ends with the new
    entry, holds one more entry than before up to the cap of ten, and is a
    tail of the old history followed by the new entry.  Status, snake, food,
    score and level aside, nothing but history and game count changes. *)
Theorem gameOver_records_score (s : State) :
  let entry := mkEntry (s.(gameCount) + 1) s.(score) s.(level) in
  (exists older dropped,
     (gameOver s).(history) = older ++ [entry]
     /\ s.(history) = dropped ++ older)
  /\ length (gameOver s).(history) = Nat.min 10 (S (length s.(history)))
  /\ (gameOver s).(gameCount) = s.(gameCount) + 1
  /\ (gameOver s).(status) = GAME_OVER
  /\ (gameOver s).(score) = s.(score)
  /\ (gameOver s).(level) = s.(level)
  /\ (gameOver s).(snake) = s.(snake)
  /\ (gameOver s).(food) = s.(food).
Proof.
  intros entry.
  change ((gameOver s).(history))
    with (JS.sliceLast 10 (history s ++ [entry])).
  split; [|split].
  - unfold JS.sliceLast. rewrite length_app. simpl length.
    exists (skipn (length (history s) + 1 - 10) (history s)),
           (firstn (length (history s) + 1 - 10) (history s)).
    split.
    + rewrite skipn_app.
      replace (length (history s) + 1 - 10 - length (history s))%nat
        with 0%nat by lia.
      reflexivity.
    + symmetry. apply firstn_skipn.
  - rewrite sliceLast_length, length_app. simpl length. lia.
  - repeat split.
Qed.

(** *** Intervals *)

Lemma In_clearInterval h i l :
  In i (clearInterval h l) <-> In i l /\ i.(handle) <> h.
Proof.
  unfold clearInterval. rewrite filter_In, negb_true_iff, Z.eqb_neq.
  reflexivity.
Qed.

Lemma intervals_clearGameLoop s :
  (clearGameLoop s).(intervals) = s.(intervals)
  \/ exists h, s.(gameLoopRef) = Some h /\ h <> 0
               /\ (clearGameLoop s).(intervals) = clearInterval h s.(intervals).
Proof.
  cbn. destruct (gameLoopRef s) as [h|]; [|now left].
  destruct (Z.eqb_spec h 0); [now left|].
  right. exists h. repeat split. assumption.
Qed.

Lemma In_clearGameLoop s i :
  In i (clearGameLoop s).(intervals) -> In i s.(intervals).
Proof.
  destruct (intervals_clearGameLoop s) as [->|(h & _ & _ & ->)]; [easy|].
  intros H. now apply In_clearInterval in H.
Qed.

(** Once the game loop is cleared no live interval has the handle in the
    ref. *)
Lemma cleared_clearGameLoop s i :
  (forall h, s.(gameLoopRef) = Some h -> 0 < h) ->
  In i (clearGameLoop s).(intervals) -> s.(gameLoopRef) <> Some i.(handle).
Proof.
  intros Hpos Hin Href.
  destruct (intervals_clearGameLoop s) as [Hsame|(h & Hh & _ & Hcl)].
  - cbn in Hsame, Hin. rewrite Href in *.
    pose proof (Hpos _ eq_refl) as Hp.
    destruct (Z.eqb_spec (handle i) 0); [lia|].
    apply In_clearInterval in Hin. tauto.
  - rewrite Hcl in Hin. apply In_clearInterval in Hin.
    rewrite Hh in Href. injection Href as ->. tauto.
Qed.

(** Clearing an interval keeps the handles of the others distinct. *)
Lemma unique_clearInterval (h : Z) (l : list Interval) :
  NoDup (map handle l) -> NoDup (map handle (clearInterval h l)).
Proof.
  intros Hnd. induction l as [|i l IH]; [exact Hnd|].
  inversion Hnd as [|? ? Hfresh Hrest]; subst.
  unfold clearInterval in *. cbn [filter].
  destruct (negb (handle i =? h)); [|now apply IH].
  cbn [map]. constructor; [|now apply IH].
  intros Hin. apply Hfresh.
  apply in_map_iff in Hin. destruct Hin as (j & Hj & Hin).
  apply filter_In in Hin. apply in_map_iff. exists j. tauto.
Qed.

Lemma timers_ext s s' :
  s'.(intervals) = s.(intervals) -> s'.(nextHandle) = s.(nextHandle) ->
  s'.(gameLoopRef) = s.(gameLoopRef) -> Timers s -> Timers s'.
Proof.
  intros Hi Hn Hr [H1 H2 H3 H4 H5].
  constructor; rewrite ?Hi, ?Hn, ?Hr; assumption.
Qed.

Lemma timers_clearGameLoop s : Timers s -> Timers (clearGameLoop s).
Proof.
  intros [H1 H2 H3 H4 H5]. constructor; try assumption.
  - intros i Hi. apply H2. now apply In_clearGameLoop.
  - destruct (intervals_clearGameLoop s) as [->|(h & _ & _ & ->)];
      [assumption|].
    now apply unique_clearInterval.
  - intros i Hi. apply H5. now apply In_clearGameLoop.
Qed.

Lemma timers_startGameLoop s :
  Timers s -> 1 <= s.(level) -> s.(speedRef) = speedOfLevel s.(level) ->
  Timers (startGameLoop s).
Proof.
  intros [H1 H2 H3 H4 H5] Hlevel Hspeed.
  constructor;
    cbn [startGameLoop nextHandle intervals gameLoopRef setIntervals
         setNextHandle setGameLoopRef].
  - lia.
  - intros i Hi. apply in_app_or in Hi. destruct Hi as [Hi|[<-|[]]].
    + specialize (H2 i Hi). lia.
    + simpl. lia.
  - rewrite map_app. apply NoDup_app; [assumption|repeat constructor; easy|].
    intros h Hh [<-|[]]. apply in_map_iff in Hh.
    destruct Hh as (i & Heq & Hi). specialize (H2 i Hi). simpl in Heq. lia.
  - intros h Hh. injection Hh as <-. lia.
  - intros i Hi. apply in_app_or in Hi. destruct Hi as [Hi|[<-|[]]].
    + now apply H5.
    + simpl. split; assumption.
Qed.

(** *** The playfield *)

Lemma playfield_game s s' : game s' = game s -> Playfield s -> Playfield s'.
Proof.
  intros Hg [H1 H2 H3 H4 H5 H6].
  destruct (game_fields s s' Hg)
    as (Hst & Hsn & _ & _ & Hsc & _ & _ & _ & Hb & Hh & Hgc & Hdr & _).
  constructor; unfold neckBehind in *;
    rewrite ?Hst, ?Hsn, ?Hsc, ?Hb, ?Hh, ?Hgc, ?Hdr; assumption.
Qed.

Lemma playfield_initial : Playfield initialState.
Proof.
  constructor; simpl.
  - constructor; [intros []|constructor].
  - exact I.
  - discriminate.
  - unfold GRID_SIZE. repeat split; try lia;
      [exists 30 | exists 20]; reflexivity.
  - reflexivity.
  - split; reflexivity.
Qed.

Lemma playfield_handleResize innerWidth innerHeight s :
  Playfield s -> Playfield (handleResize innerWidth innerHeight s).
Proof.
  intros [H1 H2 H3 H4 H5 H6].
  constructor; try assumption.
  cbn [handleResize boardSize setBoardSize width height]. unfold GRID_SIZE.
  repeat split.
  - pose proof (Z.le_max_l 300 (innerWidth
                                 - (if innerWidth >=? 1024 then 320 else 0) - 48)).
    Z.div_mod_to_equations. lia.
  - pose proof (Z.le_max_l 300 (innerHeight - 200)).
    Z.div_mod_to_equations. lia.
  - eexists. reflexivity.
  - eexists. reflexivity.
Qed.

Lemma playfield_resetGame s tape s' tape' :
  Playfield s -> resetGame s tape = Some (s', tape') -> Playfield s'.
Proof.
  intros [H1 H2 H3 H4 H5 H6] H.
  unfold resetGame, JS.bind, JS.ret in H.
  destruct (generateFood _ _ tape) as [[newFood rest]|] eqn:Hfood;
    [|discriminate].
  apply some_pair_inj in H. destruct H as [<- <-].
  constructor; cbn -[Z.div].
  - repeat constructor; simpl; intros H; decompose [or] H;
      try contradiction;
      match goal with Heq : _ = _ |- _ => injection Heq; lia end.
  - unfold adjacent; simpl. repeat split; lia.
  - intros _. unfold neckBehind. simpl. f_equal. lia.
  - exact H4.
  - exact H5.
  - reflexivity.
Qed.

Lemma level_at_least_one s : Invariant s -> 1 <= s.(level).
Proof.
  intros [_ _ _ [Hpos _] Hlevel]. rewrite Hlevel.
  Z.div_mod_to_equations. lia.
Qed.

(** A tick keeps the shape of the game, whatever its closure. *)
Lemma playfield_gameTickOf c s tape s' tape' :
  Invariant s -> Playfield s -> s.(status) <> MENU ->
  gameTickOf c s tape = Some (s', tape') -> Playfield s'.
Proof.
  intros Hinv [H1 H2 H3 H4 H5 H6] Hmenu H.
  assert (Hlen : Z.of_nat (length (snake s)) = 3 + score s / 10)
    by (destruct (status s); [now elim Hmenu | exact H6 | exact H6]).
  destruct (gameTickOf_cases c s tape)
    as [Hs Ht | Hc Ht | nh Hnh Hf Hfd Ht | nh Hnh Hf Hfd Ht];
    rewrite Ht in H.
  - now elim (inv_snake s Hinv).
  - apply some_pair_inj in H. destruct H as [<- <-].
    constructor; cbn -[Z.div Z.add JS.sliceLast removelast]; try assumption.
    + discriminate.
    + rewrite sliceLast_length, length_app. simpl length. lia.
  - apply some_pair_inj in H. destruct H as [<- <-].
    assert (Hnotin : ~ In nh (snake s)).
    { intros Hin. apply Hf. exists nh. split; [exact Hnh | now right]. }
    unfold newHeadOf in Hnh.
    destruct (snake s) as [|head rest] eqn:Hsnake; [discriminate|].
    injection Hnh as Hnh.
    constructor; cbn -[Z.div Z.add JS.sliceLast removelast]; try assumption.
    + apply NoDup_removelast. constructor; assumption.
    + apply connected_removelast. split; [|exact H2].
      subst nh. apply adjacent_moveHead.
    + intros _. unfold neckBehind.
      cbn [snake directionRef setSnake setDirection setDirectionRef].
      destruct rest as [|neck rest]; [exact I|].
      change (removelast (nh :: head :: neck :: rest))
        with (nh :: head :: removelast (neck :: rest)).
      now subst nh.
    + rewrite length_removelast_cons.
      destruct (status s); [now elim Hmenu | exact Hlen | exact Hlen].
  - destruct (generateFood _ _ tape) as [[newFood tape1]|] eqn:Hfood;
      [|discriminate].
    apply some_pair_inj in H. destruct H as [<- <-].
    assert (Hnotin : ~ In nh (snake s)).
    { intros Hin. apply Hf. exists nh. split; [exact Hnh | now right]. }
    unfold newHeadOf in Hnh.
    destruct (snake s) as [|head rest] eqn:Hsnake; [discriminate|].
    injection Hnh as Hnh.
    assert (Hlen' : Z.of_nat (length (nh :: head :: rest))
                    = 3 + (score s + 10) / 10).
    { simpl length in *. Z.div_mod_to_equations. lia. }
    unfold grown. rewrite Hsnake.
    destruct (Z.rem (score s + 10) 50 =? 0);
      (constructor; cbn -[Z.div Z.add JS.sliceLast removelast];
       try assumption;
       [ constructor; assumption
       | split; [subst nh; apply adjacent_moveHead | exact H2]
       | intros _; unfold neckBehind; simpl; now subst nh
       | destruct (status s); [now elim Hmenu | exact Hlen' | exact Hlen'] ]).
Qed.

(** *** Effects restore the game loop *)

Lemma status_eqb_true (a b : GameStatus) : GameStatus_eqb a b = true -> a = b.
Proof. destruct a, b; simpl; congruence. Qed.

Lemma status_eqb_false (a b : GameStatus) : GameStatus_eqb a b = false -> a <> b.
Proof. destruct a, b; simpl; congruence. Qed.

Lemma Closure_eqb_true (a b : Closure) : Closure_eqb a b = true -> a = b.
Proof.
  destruct a as [af asc al ag [aw ah]], b as [bf bsc bl bg [bw bh]].
  unfold Closure_eqb, Size_eqb. simpl.
  rewrite !andb_true_iff, !Z.eqb_eq, samePoint_eq.
  intros ((((-> & ->) & ->) & ->) & -> & ->). reflexivity.
Qed.

Lemma speedOfLevel_range l : 50 <= speedOfLevel l <= INITIAL_SPEED.
Proof.
  unfold speedOfLevel, INITIAL_SPEED, SPEED_INCREMENT.
  destruct (Z.leb_spec l 1); lia.
Qed.

Lemma levelEffect_idle s : s.(status) <> PLAYING -> levelEffect s = s.
Proof.
  intros H. unfold levelEffect. destruct (status s); try reflexivity.
  now elim H.
Qed.

Lemma levelEffect_low s : s.(level) <= 1 -> levelEffect s = s.
Proof.
  intros H. unfold levelEffect.
  replace (level s >? 1) with false
    by (symmetry; rewrite Z.gtb_ltb; apply Z.ltb_ge; lia).
  now rewrite andb_false_r.
Qed.

Lemma gameLoopEffect_idle s :
  s.(status) <> PLAYING -> gameLoopEffect s = clearGameLoop s.
Proof.
  intros H. unfold gameLoopEffect. destruct (status s); try reflexivity.
  now elim H.
Qed.

(** The effects of a render whose game loop effect runs. *)
Lemma wellFormed_restart s (levelChanged : bool) :
  Invariant s -> Playfield s -> Timers s ->
  50 <= s.(speedRef) <= INITIAL_SPEED ->
  (s.(status) <> GAME_OVER ->
   (s.(status) = PLAYING /\ levelChanged = true /\ 1 < s.(level))
   \/ s.(speedRef) = speedOfLevel s.(level)) ->
  (s.(status) = MENU -> s.(intervals) = []) ->
  WellFormed
    (gameLoopEffect
       (if levelChanged then levelEffect (clearGameLoop s)
        else clearGameLoop s)).
Proof.
  intros Hinv Hpf Htm Hrange Hspeed Hmenu.
  pose proof (level_at_least_one s Hinv) as Hlevel.
  pose proof (timers_clearGameLoop s Htm) as Htm1.
  destruct (status s) eqn:Hst.
  - (* MENU *)
    assert (Hs : speedRef s = speedOfLevel (level s)).
    { destruct Hspeed as [(H & _)|H]; [discriminate|discriminate|exact H]. }
    assert (Heq : gameLoopEffect
                    (if levelChanged then levelEffect (clearGameLoop s)
                     else clearGameLoop s)
                  = clearGameLoop (clearGameLoop s)).
    { assert (Hidle : status (clearGameLoop s) <> PLAYING)
        by (cbn; rewrite Hst; discriminate).
      destruct levelChanged;
        rewrite ?(levelEffect_idle _ Hidle), (gameLoopEffect_idle _ Hidle);
        reflexivity. }
    rewrite Heq. constructor.
    + apply (playfield_game s); [reflexivity | exact Hpf].
    + cbn [clearGameLoop speedRef status level setIntervals].
      split; [exact Hrange | intros _; exact Hs].
    + now apply timers_clearGameLoop.
    + constructor; cbn [clearGameLoop status setIntervals]; rewrite Hst;
        try discriminate.
      * intros _ i Hi.
        apply (cleared_clearGameLoop (clearGameLoop s) i); [|exact Hi].
        intros h Hh. exact (proj1 (tm_ref _ Htm1 h Hh)).
      * intros _. specialize (Hmenu eq_refl).
        assert (H0 : intervals (clearGameLoop s) = []).
        { destruct (intervals_clearGameLoop s) as [->|(h & _ & _ & ->)];
            rewrite Hmenu; reflexivity. }
        destruct (intervals_clearGameLoop (clearGameLoop s))
          as [->|(h & _ & _ & ->)]; rewrite H0; reflexivity.
  - (* PLAYING *)
    set (s1 := if levelChanged then levelEffect (clearGameLoop s)
               else clearGameLoop s).
    assert (Hg1 : game s1 = game s).
    { unfold s1. destruct levelChanged;
        rewrite ?game_levelEffect, ?game_clearGameLoop; reflexivity. }
    destruct (game_fields s s1 Hg1)
      as (Hst1 & _ & _ & _ & _ & Hl1 & _).
    assert (H1 : Timers s1 /\ speedRef s1 = speedOfLevel (level s)).
    { unfold s1. destruct levelChanged.
      - unfold levelEffect.
        cbn [status level clearGameLoop setIntervals]. rewrite Hst.
        cbn [GameStatus_eqb andb].
        destruct (Z.gtb_spec (level s) 1) as [Hgt|Hle].
        + assert (Hv : Z.max 50 (INITIAL_SPEED - level s * SPEED_INCREMENT)
                       = speedOfLevel (level s)).
          { unfold speedOfLevel.
            destruct (Z.leb_spec (level s) 1); [lia|reflexivity]. }
          split; [|exact Hv].
          apply timers_startGameLoop; [|exact Hlevel|exact Hv].
          apply timers_clearGameLoop.
          apply (timers_ext (clearGameLoop s)); try reflexivity.
          exact Htm1.
        + split; [exact Htm1|].
          destruct Hspeed as [(_ & _ & H)|H]; [discriminate|lia|exact H].
      - split; [exact Htm1|].
        destruct Hspeed as [(_ & H & _)|H];
          [discriminate|discriminate|exact H]. }
    destruct H1 as [Htm2 Hs1].
    unfold gameLoopEffect. rewrite Hst1, Hst. cbn [GameStatus_eqb].
    constructor.
    + apply (playfield_game s); [|exact Hpf].
      rewrite game_startGameLoop. exact Hg1.
    + cbn [startGameLoop speedRef status level setIntervals setNextHandle
           setGameLoopRef].
      rewrite Hs1, Hl1. split; [apply speedOfLevel_range | reflexivity].
    + apply timers_startGameLoop; [exact Htm2 | now rewrite Hl1
                                  | now rewrite Hl1].
    + constructor;
        cbn [startGameLoop status intervals gameLoopRef speedRef
             setIntervals setNextHandle setGameLoopRef];
        rewrite Hst1, Hst; try discriminate.
      * intros _. exists (nextHandle s1). split; [reflexivity|].
        apply in_or_app. right. left. reflexivity.
      * intros H. now elim H.
  - (* GAME_OVER *)
    assert (Heq : gameLoopEffect
                    (if levelChanged then levelEffect (clearGameLoop s)
                     else clearGameLoop s)
                  = clearGameLoop (clearGameLoop s)).
    { assert (Hidle : status (clearGameLoop s) <> PLAYING)
        by (cbn; rewrite Hst; discriminate).
      destruct levelChanged;
        rewrite ?(levelEffect_idle _ Hidle), (gameLoopEffect_idle _ Hidle);
        reflexivity. }
    rewrite Heq. constructor.
    + apply (playfield_game s); [reflexivity | exact Hpf].
    + cbn [clearGameLoop speedRef status level setIntervals].
      split; [exact Hrange | intros H; now elim H].
    + now apply timers_clearGameLoop.
    + constructor; cbn [clearGameLoop status setIntervals]; rewrite Hst;
        try discriminate.
      intros _ i Hi.
      apply (cleared_clearGameLoop (clearGameLoop s) i); [|exact Hi].
      intros h Hh. exact (proj1 (tm_ref _ Htm1 h Hh)).
Qed.

(** The effects of any render. *)
Lemma wellFormed_runEffects prev replaced s :
  Invariant s -> Playfield s -> Timers s ->
  50 <= s.(speedRef) <= INITIAL_SPEED ->
  (s.(status) <> GAME_OVER ->
   (s.(status) = PLAYING /\ s.(level) <> prev.(level) /\ 1 < s.(level))
   \/ s.(speedRef) = speedOfLevel s.(level)) ->
  (s.(status) = MENU -> s.(intervals) = []) ->
  (replaced = false -> s.(status) = prev.(status) ->
   capture s = capture prev -> GameLoop s) ->
  WellFormed (runEffects prev replaced s).
Proof.
  intros Hinv Hpf Htm Hrange Hspeed Hmenu Hsame.
  unfold runEffects.
  destruct (replaced || negb (GameStatus_eqb (status s) (status prev))
            || negb (Closure_eqb (capture s) (capture prev))) eqn:Hchanged.
  - apply wellFormed_restart; try assumption.
    intros Hgo. destruct (Hspeed Hgo) as [(H1 & H2 & H3)|H]; [left|now right].
    repeat split; try assumption.
    apply negb_true_iff, Z.eqb_neq. exact H2.
  - rewrite !orb_false_iff, !negb_false_iff in Hchanged.
    destruct Hchanged as [[-> Hst] Hcl].
    apply status_eqb_true in Hst. apply Closure_eqb_true in Hcl.
    assert (Hl : level s = level prev)
      by exact (f_equal capturedLevel Hcl).
    rewrite Hl, Z.eqb_refl. cbn [negb].
    constructor; [exact Hpf | | exact Htm | exact (Hsame eq_refl Hst Hcl)].
    split; [exact Hrange|]. intros Hgo.
    destruct (Hspeed Hgo) as [(_ & H & _)|H]; [now elim H | exact H].
Qed.

(** *** Well-formed states *)

Lemma wellFormed_initial : WellFormed initialState.
Proof.
  constructor.
  - exact playfield_initial.
  - cbn. unfold INITIAL_SPEED. split; [lia | reflexivity].
  - constructor; cbn; try easy. constructor.
  - constructor; cbn; try easy.
Qed.

Lemma wellFormed_setNextDirectionRef v s :
  WellFormed s -> WellFormed (setNextDirectionRef v s).
Proof.
  intros [[H1 H2 H3 H4 H5 H6] Hs [T1 T2 T3 T4 T5] [G1 G2 G3]].
  constructor; [constructor| |constructor|constructor]; assumption.
Qed.

Lemma wellFormed_handleDirectionChange newDir s :
  WellFormed s -> WellFormed (handleDirectionChange newDir s).
Proof.
  intros Hwf. unfold handleDirectionChange.
  repeat (destruct (_ && _); [exact Hwf|]).
  now apply wellFormed_setNextDirectionRef.
Qed.

Lemma wellFormed_handleKeyDown key s :
  WellFormed s -> WellFormed (handleKeyDown key s).
Proof.
  intros Hwf. unfold handleKeyDown.
  destruct (negb _); [assumption|].
  repeat (destruct (String.eqb key _);
          [now apply wellFormed_handleDirectionChange|]).
  assumption.
Qed.

(** What [resetGame] leaves alone and what it sets. *)
Lemma resetGame_fields s tape s' tape' :
  resetGame s tape = Some (s', tape') ->
  s'.(status) = PLAYING /\ s'.(level) = 1 /\ s'.(speedRef) = INITIAL_SPEED
  /\ s'.(intervals) = s.(intervals) /\ s'.(nextHandle) = s.(nextHandle)
  /\ s'.(gameLoopRef) = s.(gameLoopRef).
Proof.
  intros H. unfold resetGame, JS.bind, JS.ret in H.
  destruct (generateFood _ _ tape) as [[newFood rest]|]; [|discriminate].
  apply some_pair_inj in H. destruct H as [<- <-]. repeat split.
Qed.

Lemma wellFormed_reset prev s tape s' tape' :
  WellFormed s -> resetGame s tape = Some (s', tape') ->
  WellFormed (runEffects prev true s').
Proof.
  intros [Hpf Hs Htm Hgl] H.
  destruct (resetGame_fields _ _ _ _ H) as (Hst & Hl & Hsp & Hi & Hn & Hr).
  apply wellFormed_runEffects.
  - exact (invariant_resetGame _ _ _ _ H).
  - exact (playfield_resetGame _ _ _ _ Hpf H).
  - exact (timers_ext s s' Hi Hn Hr Htm).
  - rewrite Hsp. unfold INITIAL_SPEED. lia.
  - intros _. right. rewrite Hsp, Hl. reflexivity.
  - rewrite Hst. discriminate.
  - discriminate.
Qed.

(** What a tick does to the intervals: nothing, unless it ends the game. *)
Lemma gameTickOf_timers c s tape s' tape' :
  gameTickOf c s tape = Some (s', tape') ->
  s'.(speedRef) = s.(speedRef) /\ s'.(nextHandle) = s.(nextHandle)
  /\ s'.(gameLoopRef) = s.(gameLoopRef)
  /\ s'.(boardSize) = s.(boardSize)
  /\ ((s'.(intervals) = s.(intervals) /\ s'.(gameCount) = s.(gameCount)
       /\ s'.(status) = s.(status))
      \/ (s'.(intervals) = (clearGameLoop s).(intervals)
          /\ s'.(gameCount) = s.(gameCount) + 1
          /\ s'.(status) = GAME_OVER)).
Proof.
  intros H. tickOf_inversion c s tape H.
  - repeat split. left. repeat split.
  - repeat split. right. repeat split.
  - repeat split. left. repeat split.
  - unfold grown. destruct (Z.rem _ 50 =? 0); repeat split; left; repeat split.
Qed.

Lemma wellFormed_tick i s tape s' tape' :
  Invariant s -> WellFormed s -> In i s.(intervals) ->
  gameTickOf i.(callback) s tape = Some (s', tape') ->
  WellFormed (runEffects s false s').
Proof.
  intros Hinv [Hpf [Hrange Hs] Htm Hgl] Hin H.
  assert (Hmenu : status s <> MENU).
  { intros Hm. rewrite (gl_menu s Hgl Hm) in Hin. exact Hin. }
  destruct (gameTickOf_timers _ _ _ _ _ H)
    as (Hsp & Hn & Hr & Hb & Hcases).
  assert (Htm' : Timers s').
  { destruct Hcases as [(Hi & _)|(Hi & _)].
    - exact (timers_ext s s' Hi Hn Hr Htm).
    - apply (timers_ext (clearGameLoop s) s' Hi Hn Hr).
      now apply timers_clearGameLoop. }
  pose proof (invariant_gameTickOf _ _ _ _ _ Hinv H) as Hinv'.
  apply wellFormed_runEffects; try assumption.
  - exact (playfield_gameTickOf _ _ _ _ _ Hinv Hpf Hmenu H).
  - now rewrite Hsp.
  - intros Hgo. rewrite Hsp.
    destruct Hcases as [(_ & _ & Hst)|(_ & _ & Hst)]; [|now elim Hgo].
    rewrite Hst in Hgo |- *. specialize (Hs Hgo).
    destruct (Z.eq_dec (level s') (level s)) as [Heq|Hne];
      [right; now rewrite Heq|left].
    split; [destruct (status s); [now elim Hmenu|reflexivity|now elim Hgo]|].
    split; [exact Hne|].
    pose proof (level_at_least_one s Hinv) as H1.
    tickOf_inversion (callback i) s tape H; try (now elim Hne).
    unfold grown in Hne |- *.
    destruct (Z.rem _ 50 =? 0); cbn in Hne |- *; [lia | now elim Hne].
  - intros Hm. destruct Hcases as [(_ & _ & Hst)|(_ & _ & Hst)]; congruence.
  - intros _ Hst Hcl.
    destruct Hcases as [(Hi & _ & _)|(_ & Hgc & _)].
    + destruct Hgl as [G1 G2 G3].
      constructor; rewrite ?Hst, ?Hi, ?Hr, ?Hsp, ?Hcl; assumption.
    + apply (f_equal capturedGameCount) in Hcl. cbn in Hcl. lia.
Qed.

Lemma wellFormed_step e s tape s' tape' :
  Invariant s -> WellFormed s -> step e s tape = Some (s', tape') ->
  WellFormed s'.
Proof.
  intros Hinv Hwf H. destruct e; simpl in H.
  - apply some_pair_inj in H. destruct H as [<- <-].
    destruct Hwf as [Hpf [Hrange Hs] Htm Hgl].
    apply wellFormed_runEffects.
    + exact (proj2 (proj2 (invariant_setters s Hinv)) _).
    + now apply playfield_handleResize.
    + apply (timers_ext s); [reflexivity..|exact Htm].
    + exact Hrange.
    + intros Hgo. right. exact (Hs Hgo).
    + exact (gl_menu s Hgl).
    + discriminate.
  - destruct (GameStatus_eqb _ _).
    + unfold JS.bind, JS.ret in H.
      destruct (resetGame _ tape) as [[s1 tape1]|] eqn:Hr; [|discriminate].
      apply some_pair_inj in H. destruct H as [<- <-].
      apply (wellFormed_reset s (setIsVisionMode false s) tape s1 tape1);
        [|exact Hr].
      destruct Hwf as [[H1 H2 H3 H4 H5 H6] Hs [T1 T2 T3 T4 T5] [G1 G2 G3]].
      constructor; [constructor| |constructor|constructor]; assumption.
    + apply some_pair_inj in H. destruct H as [<- <-]. assumption.
  - destruct (GameStatus_eqb _ _).
    + unfold JS.bind, JS.ret in H.
      destruct (resetGame _ tape) as [[s1 tape1]|] eqn:Hr; [|discriminate].
      apply some_pair_inj in H. destruct H as [<- <-].
      apply (wellFormed_reset s (setIsVisionMode true s) tape s1 tape1);
        [|exact Hr].
      destruct Hwf as [[H1 H2 H3 H4 H5 H6] Hs [T1 T2 T3 T4 T5] [G1 G2 G3]].
      constructor; [constructor| |constructor|constructor]; assumption.
    + apply some_pair_inj in H. destruct H as [<- <-]. assumption.
  - destruct (GameStatus_eqb _ _).
    + unfold JS.bind, JS.ret in H.
      destruct (resetGame _ tape) as [[s1 tape1]|] eqn:Hr; [|discriminate].
      apply some_pair_inj in H. destruct H as [<- <-].
      exact (wellFormed_reset s s tape s1 tape1 Hwf Hr).
    + apply some_pair_inj in H. destruct H as [<- <-]. assumption.
  - apply some_pair_inj in H. destruct H as [<- <-].
    now apply wellFormed_handleKeyDown.
  - destruct (_ && _); apply some_pair_inj in H; destruct H as [<- <-];
      [now apply wellFormed_handleDirectionChange | assumption].
  - destruct (find _ _) as [i|] eqn:Hfind.
    + unfold JS.bind, JS.ret in H.
      destruct (gameTickOf _ s tape) as [[s1 tape1]|] eqn:Htick; [|discriminate].
      apply some_pair_inj in H. destruct H as [<- <-].
      apply find_some in Hfind.
      exact (wellFormed_tick i s tape s1 tape1 Hinv Hwf (proj1 Hfind) Htick).
    + apply some_pair_inj in H. destruct H as [<- <-]. assumption.
  - apply some_pair_inj in H. destruct H as [<- <-].
    destruct Hwf as [Hpf [Hrange Hs] Htm Hgl].
    apply wellFormed_runEffects.
    + exact (proj1 (invariant_setters s Hinv) _).
    + destruct Hpf. constructor; assumption.
    + apply (timers_ext s); [reflexivity..|exact Htm].
    + exact Hrange.
    + intros Hgo. right. exact (Hs Hgo).
    + exact (gl_menu s Hgl).
    + intros _ _ _. destruct Hgl. constructor; assumption.
Qed.

Lemma reachable_wellFormed s : reachable s -> WellFormed s.
Proof.
  induction 1 as [|e s s' tape tape' Hreach IH Hstep].
  - exact wellFormed_initial.
  - exact (wellFormed_step _ _ _ _ _ (reachable_invariant s Hreach) IH Hstep).
Qed.

(** *** Leaked intervals *)

Lemma leaked_ext i s s' :
  s'.(intervals) = s.(intervals) -> s'.(nextHandle) = s.(nextHandle) ->
  s'.(gameLoopRef) = s.(gameLoopRef) -> leaked i s -> leaked i s'.
Proof. unfold leaked. intros -> -> ->. tauto. Qed.

Lemma leaked_clearGameLoop i s : leaked i s -> leaked i (clearGameLoop s).
Proof.
  intros (Hin & Href & Hlt). repeat split; try assumption.
  destruct (intervals_clearGameLoop s) as [->|(h & Hh & _ & ->)];
    [assumption|].
  apply In_clearInterval. split; [assumption|]. congruence.
Qed.

Lemma leaked_startGameLoop i s : leaked i s -> leaked i (startGameLoop s).
Proof.
  intros (Hin & Href & Hlt).
  unfold leaked.
  cbn [startGameLoop intervals gameLoopRef nextHandle setIntervals
       setNextHandle setGameLoopRef].
  repeat split.
  - apply in_or_app. now left.
  - intros H. injection H as H. lia.
  - lia.
Qed.

Lemma leaked_levelEffect i s : leaked i s -> leaked i (levelEffect s).
Proof.
  intros H. unfold levelEffect. destruct (_ && _); [|exact H].
  apply leaked_startGameLoop, leaked_clearGameLoop.
  revert H. apply leaked_ext; reflexivity.
Qed.

Lemma leaked_gameLoopEffect i s : leaked i s -> leaked i (gameLoopEffect s).
Proof.
  intros H. unfold gameLoopEffect. destruct (GameStatus_eqb _ _).
  - now apply leaked_startGameLoop.
  - now apply leaked_clearGameLoop.
Qed.

Lemma leaked_runEffects i prev replaced s :
  leaked i s -> leaked i (runEffects prev replaced s).
Proof.
  intros H. unfold runEffects.
  destruct (replaced || _ || _), (negb (level s =? level prev));
    repeat first [ apply leaked_gameLoopEffect | apply leaked_levelEffect
                 | apply leaked_clearGameLoop ];
    exact H.
Qed.

Lemma leaked_gameTickOf i c s tape s' tape' :
  leaked i s -> gameTickOf c s tape = Some (s', tape') -> leaked i s'.
Proof.
  intros Hl H.
  destruct (gameTickOf_timers _ _ _ _ _ H)
    as (_ & Hn & Hr & _ & [(Hi & _)|(Hi & _)]).
  - exact (leaked_ext i s s' Hi Hn Hr Hl).
  - apply (leaked_ext i (clearGameLoop s) s' Hi Hn Hr).
    now apply leaked_clearGameLoop.
Qed.

Lemma leaked_handleDirectionChange i newDir s :
  leaked i s -> leaked i (handleDirectionChange newDir s).
Proof.
  intros H. unfold handleDirectionChange.
  repeat (destruct (_ && _); [exact H|]). exact H.
Qed.

Lemma leaked_handleKeyDown i key s :
  leaked i s -> leaked i (handleKeyDown key s).
Proof.
  intros H. unfold handleKeyDown. destruct (negb _); [exact H|].
  repeat (destruct (String.eqb key _);
          [now apply leaked_handleDirectionChange|]).
  exact H.
Qed.

Lemma leaked_reset i prev s tape s' tape' :
  leaked i s -> resetGame s tape = Some (s', tape') ->
  leaked i (runEffects prev true s').
Proof.
  intros Hl H.
  destruct (resetGame_fields _ _ _ _ H) as (_ & _ & _ & Hi & Hn & Hr).
  apply leaked_runEffects. exact (leaked_ext i s s' Hi Hn Hr Hl).
Qed.

(** No event of the component clears a leaked interval. *)
Lemma leaked_step i e s tape s' tape' :
  leaked i s -> step e s tape = Some (s', tape') -> leaked i s'.
Proof.
  intros Hl H. destruct e; simpl in H.
  - apply some_pair_inj in H. destruct H as [<- <-].
    apply leaked_runEffects. exact Hl.
  - destruct (GameStatus_eqb _ _).
    + unfold JS.bind, JS.ret in H.
      destruct (resetGame _ tape) as [[s1 tape1]|] eqn:Hr; [|discriminate].
      apply some_pair_inj in H. destruct H as [<- <-].
      apply (fun Hl' => leaked_reset i s _ tape s1 tape1 Hl' Hr).
      revert Hl. apply leaked_ext; reflexivity.
    + apply some_pair_inj in H. destruct H as [<- <-]. assumption.
  - destruct (GameStatus_eqb _ _).
    + unfold JS.bind, JS.ret in H.
      destruct (resetGame _ tape) as [[s1 tape1]|] eqn:Hr; [|discriminate].
      apply some_pair_inj in H. destruct H as [<- <-].
      apply (fun Hl' => leaked_reset i s _ tape s1 tape1 Hl' Hr).
      revert Hl. apply leaked_ext; reflexivity.
    + apply some_pair_inj in H. destruct H as [<- <-]. assumption.
  - destruct (GameStatus_eqb _ _).
    + unfold JS.bind, JS.ret in H.
      destruct (resetGame _ tape) as [[s1 tape1]|] eqn:Hr; [|discriminate].
      apply some_pair_inj in H. destruct H as [<- <-].
      exact (leaked_reset i s s tape s1 tape1 Hl Hr).
    + apply some_pair_inj in H. destruct H as [<- <-]. assumption.
  - apply some_pair_inj in H. destruct H as [<- <-].
    now apply leaked_handleKeyDown.
  - destruct (_ && _); apply some_pair_inj in H; destruct H as [<- <-];
      [now apply leaked_handleDirectionChange | assumption].
  - destruct (find _ _) as [j|].
    + unfold JS.bind, JS.ret in H.
      destruct (gameTickOf _ s tape) as [[s1 tape1]|] eqn:Htick; [|discriminate].
      apply some_pair_inj in H. destruct H as [<- <-].
      apply leaked_runEffects.
      exact (leaked_gameTickOf i _ _ _ _ _ Hl Htick).
    + apply some_pair_inj in H. destruct H as [<- <-]. assumption.
  - apply some_pair_inj in H. destruct H as [<- <-].
    apply leaked_runEffects. exact Hl.
Qed.

(** So a state without leaked interval comes from one. *)
Lemma leakFree_before e s tape s' tape' :
  Timers s -> step e s tape = Some (s', tape') -> leakFree s' -> leakFree s.
Proof.
  intros Htm Hstep Hfree i Hin.
  destruct (gameLoopRef s) as [h|] eqn:Href.
  - destruct (Z.eq_dec h (handle i)) as [->|Hne]; [reflexivity|].
    assert (Hl : leaked i s).
    { repeat split; [exact Hin | congruence | exact (proj2 (tm_handles s Htm i Hin))]. }
    destruct (leaked_step i e s tape s' tape' Hl Hstep) as (Hin' & Href' & _).
    now elim Href'; apply Hfree.
  - assert (Hl : leaked i s).
    { repeat split; [exact Hin | congruence | exact (proj2 (tm_handles s Htm i Hin))]. }
    destruct (leaked_step i e s tape s' tape' Hl Hstep) as (Hin' & Href' & _).
    now elim Href'; apply Hfree.
Qed.

Lemma unique_handle (l : list Interval) (a b : Interval) :
  NoDup (map handle l) -> In a l -> In b l -> a.(handle) = b.(handle) -> a = b.
Proof.
  induction l as [|c l IH]; simpl; intros Hnd Ha Hb Heq; [contradiction|].
  inversion Hnd as [|? ? Hnotin Hrest]; subst.
  destruct Ha as [->|Ha], Hb as [->|Hb]; try reflexivity.
  - elim Hnotin. rewrite Heq. now apply in_map.
  - elim Hnotin. rewrite <- Heq. now apply in_map.
  - now apply IH.
Qed.

(** Without leaked interval, the interval that fires is the one of the
    game loop: the game is being played and the tick has the closure of
    the latest render. *)
Lemma leakFree_tick i s :
  WellFormed s -> leakFree s -> In i s.(intervals) ->
  s.(status) = PLAYING /\ i.(callback) = capture s.
Proof.
  intros Hwf Hfree Hin.
  pose proof (Hfree i Hin) as Href.
  assert (Hst : status s = PLAYING).
  { destruct (status s) eqn:Hst; [| reflexivity |];
      elim (gl_idle s (wf_loop s Hwf) ltac:(congruence) i Hin Href). }
  split; [exact Hst|].
  destruct (gl_playing s (wf_loop s Hwf) Hst) as (h & Hh & Hin').
  rewrite Hh in Href. injection Href as ->.
  rewrite (unique_handle _ _ _ (tm_unique s (wf_timers s Hwf)) Hin Hin' eq_refl).
  reflexivity.
Qed.

(** *** Games whose ticks all came from the game loop *)

Lemma sound_ext s s' :
  s'.(status) = s.(status) -> s'.(snake) = s.(snake) -> s'.(food) = s.(food) ->
  s'.(score) = s.(score) -> s'.(level) = s.(level) ->
  s'.(history) = s.(history) -> s'.(gameCount) = s.(gameCount) ->
  Sound s -> Sound s'.
Proof.
  intros Hst Hsn Hf Hsc Hl Hh Hgc [H1 H2 H3].
  constructor; rewrite ?Hst, ?Hsn, ?Hf, ?Hsc, ?Hl, ?Hh, ?Hgc; assumption.
Qed.

Lemma sound_game s s' : game s' = game s -> Sound s -> Sound s'.
Proof.
  intros Hg.
  destruct (game_fields s s' Hg)
    as (Hst & Hsn & Hf & _ & Hsc & Hl & _ & _ & _ & Hh & Hgc & _).
  now apply sound_ext.
Qed.

Lemma sound_handleDirectionChange newDir s :
  Sound s -> Sound (handleDirectionChange newDir s).
Proof.
  intros H. unfold handleDirectionChange.
  repeat (destruct (_ && _); [exact H|]).
  revert H. apply sound_ext; reflexivity.
Qed.

Lemma sound_initial : Sound initialState.
Proof.
  constructor; simpl.
  - intros [H|[]]. discriminate.
  - exact I.
  - discriminate.
Qed.

Lemma sound_resetGame s tape s' tape' :
  Sound s -> resetGame s tape = Some (s', tape') -> Sound s'.
Proof.
  intros [H1 H2 H3] H.
  unfold resetGame, JS.bind, JS.ret in H.
  destruct (generateFood _ _ tape) as [[newFood rest]|] eqn:Hfood;
    [|discriminate].
  apply some_pair_inj in H. destruct H as [<- <-].
  constructor; cbn -[Z.div].
  - exact (generateFood_free _ _ _ _ _ Hfood).
  - exact H2.
  - discriminate.
Qed.

(** A tick of the game loop. *)
Lemma sound_gameTick s tape s' tape' :
  Invariant s -> Playfield s -> Sound s -> s.(status) = PLAYING ->
  gameTick s tape = Some (s', tape') -> Sound s'.
Proof.
  intros Hinv Hpf [H4 Hids H7] Hplaying H.
  pose proof (pf_history s Hpf) as Hlen.
  destruct (gameTick_cases s tape)
    as [Hs Ht | Hc Ht | nh Hnh Hf Hfd Ht | nh Hnh Hf Hfd Ht];
    rewrite Ht in H.
  - now elim (inv_snake s Hinv).
  - apply some_pair_inj in H. destruct H as [<- <-].
    constructor; cbn -[Z.div Z.add JS.sliceLast removelast]; try assumption.
    + unfold JS.sliceLast.
      set (k := (length (history s ++ [mkEntry (gameCount s + 1) (score s)
                                         (level s)]) - 10)%nat).
      assert (Hk : Z.of_nat k = Z.max 0 (Z.of_nat (length (history s)) - 9)).
      { unfold k. rewrite length_app. simpl length. lia. }
      rewrite length_skipn. fold k.
      replace (gameCount s + 1
               - Z.of_nat (length (history s ++ [mkEntry (gameCount s + 1)
                                                   (score s) (level s)]) - k)
               + 1)
        with (gameCount s - Z.of_nat (length (history s)) + 1 + Z.of_nat k)
        by (rewrite length_app; simpl length; lia).
      apply consecutiveIds_skipn.
      apply consecutiveIds_snoc; [exact Hids | simpl; lia].
    + intros _. apply sliceLast_snoc. lia.
  - apply some_pair_inj in H. destruct H as [<- <-].
    constructor; cbn -[Z.div Z.add JS.sliceLast removelast]; try assumption.
    intros Hin. apply In_removelast in Hin.
    destruct Hin as [Heq|Hin]; [now elim Hfd | now elim H4].
  - destruct (generateFood _ _ tape) as [[newFood tape1]|] eqn:Hfood;
      [|discriminate].
    apply some_pair_inj in H. destruct H as [<- <-].
    unfold grown.
    destruct (Z.rem (score s + 10) 50 =? 0);
      (constructor; cbn -[Z.div Z.add JS.sliceLast removelast];
       try assumption;
       [ exact (generateFood_free _ _ _ _ _ Hfood)
       | intros Hgo; congruence ]).
Qed.

Lemma sound_step e s tape s' tape' :
  Invariant s -> WellFormed s -> leakFree s -> Sound s ->
  step e s tape = Some (s', tape') -> Sound s'.
Proof.
  intros Hinv Hwf Hfree Hsd H. destruct e; simpl in H.
  - apply some_pair_inj in H. destruct H as [<- <-].
    apply (sound_game (handleResize innerWidth innerHeight s));
      [apply game_runEffects|].
    revert Hsd. apply sound_ext; reflexivity.
  - destruct (GameStatus_eqb _ _).
    + unfold JS.bind, JS.ret in H.
      destruct (resetGame _ tape) as [[s1 tape1]|] eqn:Hr; [|discriminate].
      apply some_pair_inj in H. destruct H as [<- <-].
      apply (sound_game s1); [apply game_runEffects|].
      apply (fun Hsd' => sound_resetGame _ _ _ _ Hsd' Hr).
      revert Hsd. apply sound_ext; reflexivity.
    + apply some_pair_inj in H. destruct H as [<- <-]. assumption.
  - destruct (GameStatus_eqb _ _).
    + unfold JS.bind, JS.ret in H.
      destruct (resetGame _ tape) as [[s1 tape1]|] eqn:Hr; [|discriminate].
      apply some_pair_inj in H. destruct H as [<- <-].
      apply (sound_game s1); [apply game_runEffects|].
      apply (fun Hsd' => sound_resetGame _ _ _ _ Hsd' Hr).
      revert Hsd. apply sound_ext; reflexivity.
    + apply some_pair_inj in H. destruct H as [<- <-]. assumption.
  - destruct (GameStatus_eqb _ _).
    + unfold JS.bind, JS.ret in H.
      destruct (resetGame _ tape) as [[s1 tape1]|] eqn:Hr; [|discriminate].
      apply some_pair_inj in H. destruct H as [<- <-].
      apply (sound_game s1); [apply game_runEffects|].
      exact (sound_resetGame _ _ _ _ Hsd Hr).
    + apply some_pair_inj in H. destruct H as [<- <-]. assumption.
  - apply some_pair_inj in H. destruct H as [<- <-].
    unfold handleKeyDown.
    destruct (negb _); [assumption|].
    repeat (destruct (String.eqb key _);
            [now apply sound_handleDirectionChange|]).
    assumption.
  - destruct (_ && _); apply some_pair_inj in H; destruct H as [<- <-];
      [now apply sound_handleDirectionChange | assumption].
  - destruct (find _ _) as [i|] eqn:Hfind.
    + unfold JS.bind, JS.ret in H.
      destruct (gameTickOf _ s tape) as [[s1 tape1]|] eqn:Htick; [|discriminate].
      apply some_pair_inj in H. destruct H as [<- <-].
      apply find_some in Hfind.
      destruct (leakFree_tick i s Hwf Hfree (proj1 Hfind)) as [Hst Hcl].
      rewrite Hcl in Htick.
      apply (sound_game s1); [apply game_runEffects|].
      exact (sound_gameTick s tape s1 tape1 Hinv (wf_field s Hwf) Hsd Hst Htick).
    + apply some_pair_inj in H. destruct H as [<- <-]. assumption.
  - apply some_pair_inj in H. destruct H as [<- <-].
    apply (sound_game (setTheme t s)); [apply game_runEffects|].
    revert Hsd. apply sound_ext; reflexivity.
Qed.

Lemma reachable_sound s : reachable s -> leakFree s -> Sound s.
Proof.
  induction 1 as [|e s s' tape tape' Hreach IH Hstep]; intros Hfree.
  - exact sound_initial.
  - pose proof (reachable_wellFormed s Hreach) as Hwf.
    pose proof (leakFree_before e s tape s' tape' (wf_timers s Hwf) Hstep Hfree)
      as Hfree0.
    exact (sound_step e s tape s' tape' (reachable_invariant s Hreach) Hwf
             Hfree0 (IH Hfree0) Hstep).
Qed.

(** *** Reachable states *)

(** X3. In every reachable state no two segments of the snake occupy the
    same cell, and every segment shares a side with the next one. *)
Theorem snake_is_a_simple_path (s : State) :
  reachable s -> NoDup s.(snake) /\ connected s.(snake).
Proof.
  intros Hreach. pose proof (reachable_wellFormed s Hreach) as Hwf.
  split; [exact (pf_nodup s (wf_field s Hwf))
        | exact (pf_connected s (wf_field s Hwf))].
Qed.

Lemma snake_is_a_simple_path_witness :
  reachable Scenario.afterFoodRendered
  /\ NoDup Scenario.afterFoodRendered.(snake)
  /\ connected Scenario.afterFoodRendered.(snake).
Proof.
  split; [exact reachable_afterFoodRendered|].
  exact (snake_is_a_simple_path _ reachable_afterFoodRendered).
Defined.

(** X4. As long as no interval has leaked, so as long as every live
    interval is the one the ref of the game loop holds, the food is not on
    the snake: not only when it is placed, but also after every move. *)
Theorem food_off_snake_always (s : State) :
  reachable s -> leakFree s -> ~ In s.(food) s.(snake).
Proof.
  intros Hreach Hfree. exact (sd_food s (reachable_sound s Hreach Hfree)).
Qed.

Lemma leakFree_beforeWall : leakFree Scenario.beforeWall.
Proof. intros i [<-|[]]. reflexivity. Qed.

Lemma leakFree_afterWall : leakFree Scenario.afterWall.
Proof. intros i []. Qed.

Lemma food_off_snake_always_witness :
  reachable Scenario.beforeWall
  /\ leakFree Scenario.beforeWall
  /\ ~ In Scenario.beforeWall.(food) Scenario.beforeWall.(snake).
Proof.
  split; [exact reachable_beforeWall|]. split; [exact leakFree_beforeWall|].
  exact (food_off_snake_always _ reachable_beforeWall leakFree_beforeWall).
Defined.

(** X5. While the game is played the snake never turns back on itself: in a
    reachable state with status PLAYING the head the next tick computes is
    not the second segment, whatever direction changes were requested. *)
Theorem never_turns_into_neck (s : State) (head neck : Point) (rest : list Point) :
  reachable s -> s.(status) = PLAYING ->
  s.(snake) = head :: neck :: rest ->
  newHeadOf s <> Some neck
  /\ head = moveHead s.(directionRef) neck.
Proof.
  intros Hreach Hplaying Hsnake.
  pose proof (pf_neck s (wf_field s (reachable_wellFormed s Hreach)) Hplaying)
    as Hneck.
  pose proof (inv_buffer s (reachable_invariant s Hreach)) as Hbuf.
  unfold neckBehind in Hneck. rewrite Hsnake in Hneck.
  split; [|exact Hneck].
  unfold newHeadOf. rewrite Hsnake. intros Heq. injection Heq as Heq.
  apply Hbuf.
  apply (moveHead_injective _ _ head).
  rewrite Heq, Hneck at 1. now rewrite moveHead_opposite.
Qed.

Lemma never_turns_into_neck_witness :
  reachable Scenario.beforeWall
  /\ Scenario.beforeWall.(status) = PLAYING
  /\ newHeadOf Scenario.beforeWall <> Some {| x := 15; y := 0 |}.
Proof.
  split; [exact reachable_beforeWall|]. split; [reflexivity|].
  exact (proj1 (never_turns_into_neck Scenario.beforeWall
                  {| x := 16; y := 0 |} {| x := 15; y := 0 |}
                  [ {| x := 15; y := 1 |} ]
                  reachable_beforeWall eq_refl eq_refl)).
Defined.

(** X6. [handleResize] snaps the board to whole cells: each side is the
    largest multiple of the cell size that fits the available space, which
    is never taken below 300 pixels, so the grid has at least 15 x 15 cells
    and the canvas holds no partial cell.  Nothing but the board size
    changes. *)
Theorem handleResize_snaps_to_grid (innerWidth innerHeight : Z) (s : State) :
  let s' := handleResize innerWidth innerHeight s in
  let availableWidth :=
    Z.max 300 (innerWidth - (if innerWidth >=? 1024 then 320 else 0) - 48) in
  let availableHeight := Z.max 300 (innerHeight - 200) in
  s'.(boardSize).(width) = gridCountX s' * GRID_SIZE
  /\ s'.(boardSize).(height) = gridCountY s' * GRID_SIZE
  /\ availableWidth - GRID_SIZE < s'.(boardSize).(width) <= availableWidth
  /\ availableHeight - GRID_SIZE < s'.(boardSize).(height) <= availableHeight
  /\ 15 <= gridCountX s' /\ 15 <= gridCountY s'
  /\ setBoardSize s.(boardSize) s' = s.
Proof.
  cbn zeta. unfold gridCountX, gridCountY.
  cbn [handleResize boardSize setBoardSize width height]. unfold GRID_SIZE.
  pose proof (Z.le_max_l 300 (innerWidth
                               - (if innerWidth >=? 1024 then 320 else 0) - 48)).
  pose proof (Z.le_max_l 300 (innerHeight - 200)).
  repeat split; try (Z.div_mod_to_equations; lia).
  destruct s; reflexivity.
Qed.

(** X7. In every reachable state the board is at least 300 pixels wide and
    high and both sides are multiples of the cell size, so the grid has at
    least 15 x 15 cells. *)
Theorem board_holds_whole_cells (s : State) :
  reachable s ->
  s.(boardSize).(width) = gridCountX s * GRID_SIZE
  /\ s.(boardSize).(height) = gridCountY s * GRID_SIZE
  /\ 15 <= gridCountX s /\ 15 <= gridCountY s.
Proof.
  intros Hreach.
  destruct (pf_board s (wf_field s (reachable_wellFormed s Hreach)))
    as (Hw & Hh & [kw Hkw] & [kh Hkh]).
  unfold gridCountX, gridCountY, GRID_SIZE in *.
  rewrite Hkw, Hkh in *. rewrite !Z.div_mul by discriminate.
  repeat split; lia.
Qed.

Lemma board_holds_whole_cells_witness :
  reachable Scenario.beforeWall
  /\ gridCountX Scenario.beforeWall = 30 /\ gridCountY Scenario.beforeWall = 20
  /\ 15 <= gridCountX Scenario.beforeWall.
Proof.
  split; [exact reachable_beforeWall|].
  split; [reflexivity|]. split; [reflexivity|].
  exact (proj1 (proj2 (proj2 (board_holds_whole_cells _ reachable_beforeWall)))).
Defined.

(** X8. In every reachable state the history holds at most ten entries, as
    many as the smaller of 10 and the game count.  As long as no interval
    has leaked, so as long as every live interval is the one the ref of the
    game loop holds, they are the scores of the most recent games: the game
    ids count up by one and end at the game count, and once the game is
    over the last entry carries the current score and level. *)
Theorem history_is_last_ten_games (s : State) :
  reachable s ->
  (length s.(history) <= 10)%nat
  /\ Z.of_nat (length s.(history)) = Z.min 10 s.(gameCount)
  /\ (leakFree s ->
      consecutiveIds (s.(gameCount) - Z.of_nat (length s.(history)) + 1)
        s.(history)
      /\ (s.(status) = GAME_OVER ->
          exists older,
            s.(history) = older ++ [mkEntry s.(gameCount) s.(score) s.(level)])).
Proof.
  intros Hreach. pose proof (reachable_wellFormed s Hreach) as Hwf.
  pose proof (pf_history s (wf_field s Hwf)) as Hlen.
  split; [lia|]. split; [exact Hlen|].
  intros Hfree. pose proof (reachable_sound s Hreach Hfree) as Hsd.
  split; [exact (sd_history s Hsd) | exact (sd_final s Hsd)].
Qed.

(** X9. Once a game has been started, the snake has three segments plus one
    for every ten points of the score. *)
Theorem snake_length_tracks_score (s : State) :
  reachable s -> s.(status) <> MENU ->
  Z.of_nat (length s.(snake)) = 3 + s.(score) / 10.
Proof.
  intros Hreach Hst.
  pose proof (pf_length s (wf_field s (reachable_wellFormed s Hreach))) as H.
  destruct (status s); [now elim Hst | exact H | exact H].
Qed.

Lemma snake_length_tracks_score_witness :
  reachable Scenario.beforeFood
  /\ Scenario.beforeFood.(status) <> MENU
  /\ Z.of_nat (length Scenario.beforeFood.(snake))
     = 3 + Scenario.beforeFood.(score) / 10.
Proof.
  split; [exact reachable_beforeFood|].
  assert (Hst : Scenario.beforeFood.(status) <> MENU) by discriminate.
  split; [exact Hst|].
  exact (snake_length_tracks_score _ reachable_beforeFood Hst).
Defined.

(** X10. The speed of the game loop follows the level.  In every reachable
    state the speed ref lies between 50 and 250 ms and, unless the game is
    over, it is the interval the level calls for: 250 ms at level 1, and
    from level 2 on 250 ms less 5 ms per level, never below 50 ms.  While
    the game is played the ref of the game loop holds a live interval that
    was started with that delay and with the [gameTick] of the latest
    render.  Every live interval, held by the ref or not, keeps the delay
    of the level its [gameTick] captured.  The delay does not grow with
    the level. *)
Theorem speed_follows_level :
  (forall s, reachable s ->
     50 <= s.(speedRef) <= INITIAL_SPEED
     /\ (s.(status) <> GAME_OVER -> s.(speedRef) = speedOfLevel s.(level))
     /\ (s.(status) = PLAYING ->
         exists h,
           s.(gameLoopRef) = Some h
           /\ In (mkInterval h (speedOfLevel s.(level)) (capture s))
                s.(intervals))
     /\ (forall i, In i s.(intervals) ->
         i.(delay) = speedOfLevel i.(callback).(capturedLevel)
         /\ 50 <= i.(delay) <= INITIAL_SPEED))
  /\ (forall l l', 1 <= l <= l' -> speedOfLevel l' <= speedOfLevel l)
  /\ (forall l, 40 <= l -> speedOfLevel l = 50).
Proof.
  split; [|split].
  - intros s Hreach.
    destruct (reachable_wellFormed s Hreach) as [_ [Hrange Hspeed] Htm Hgl].
    split; [exact Hrange|]. split; [exact Hspeed|]. split.
    + intros Hplaying.
      destruct (gl_playing s Hgl Hplaying) as (h & Hh & Hin).
      exists h. split; [exact Hh|].
      rewrite <- Hspeed by (rewrite Hplaying; discriminate). exact Hin.
    + intros i Hin. destruct (tm_delay s Htm i Hin) as [_ Hd].
      split; [exact Hd|]. rewrite Hd. apply speedOfLevel_range.
  - intros l l' Hl. unfold speedOfLevel, INITIAL_SPEED, SPEED_INCREMENT.
    destruct (Z.leb_spec l 1), (Z.leb_spec l' 1); lia.
  - intros l Hl. unfold speedOfLevel, INITIAL_SPEED, SPEED_INCREMENT.
    destruct (Z.leb_spec l 1); lia.
Qed.

Lemma speed_follows_level_witness :
  reachable Scenario.beforeFood
  /\ Scenario.beforeFood.(status) = PLAYING
  /\ Scenario.beforeFood.(speedRef) = speedOfLevel Scenario.beforeFood.(level)
  /\ (exists h,
        Scenario.beforeFood.(gameLoopRef) = Some h
        /\ In (mkInterval h 250 (capture Scenario.beforeFood))
             Scenario.beforeFood.(intervals))
  /\ speedOfLevel 3 <= speedOfLevel 2.
Proof.
  split; [exact reachable_beforeFood|]. split; [reflexivity|].
  destruct (proj1 speed_follows_level _ reachable_beforeFood)
    as (_ & Hspeed & Hloop & _).
  split; [apply Hspeed; discriminate|].
  split; [exact (Hloop eq_refl)|].
  apply (proj1 (proj2 speed_follows_level)). lia.
Defined.

Lemma runEffects_menu prev replaced s :
  s.(status) = MENU -> s.(intervals) = [] ->
  (runEffects prev replaced s).(intervals) = [].
Proof.
  intros Hst Hnone.
  assert (Hclear : forall s0, intervals s0 = [] ->
                              intervals (clearGameLoop s0) = []).
  { intros s0 H0.
    destruct (intervals_clearGameLoop s0) as [->|(h & _ & _ & ->)];
      rewrite H0; reflexivity. }
  assert (Hidle : status (clearGameLoop s) <> PLAYING)
    by (cbn; rewrite Hst; discriminate).
  assert (Hidle0 : status s <> PLAYING) by (rewrite Hst; discriminate).
  unfold runEffects.
  destruct (replaced || _ || _), (negb (level s =? level prev));
    rewrite ?(levelEffect_idle _ Hidle), ?(levelEffect_idle _ Hidle0),
            ?(gameLoopEffect_idle _ Hidle);
    auto.
Qed.

(** X11. The status only moves along MENU -> PLAYING -> GAME_OVER ->
    PLAYING: whatever the event, the status stays, or a game starts from
    the menu, or the game being played ends, or a finished game is retried.
    In particular the menu is never shown again.  No interval is live on
    the menu, in the initial state and ever after; an interval that fires
    once the game is over leaves the status GAME_OVER. *)
Theorem status_lifecycle (e : Event) (s : State) (tape : list float)
    (s' : State) (tape' : list float) :
  (s.(status) = MENU -> s.(intervals) = []) ->
  step e s tape = Some (s', tape') ->
  lifecycle s.(status) s'.(status)
  /\ (s.(status) <> MENU -> s'.(status) <> MENU)
  /\ (s'.(status) = MENU -> s'.(intervals) = []).
Proof.
  intros Hnone H.
  assert (Heffects : forall prev replaced s0,
             (runEffects prev replaced s0).(status) = s0.(status)).
  { intros prev replaced s0.
    exact (proj1 (game_fields _ _ (game_runEffects prev replaced s0))). }
  assert (Hreset : forall s0 t0 s1 t1,
             resetGame s0 t0 = Some (s1, t1) -> s1.(status) = PLAYING).
  { intros s0 t0 s1 t1 Hr. unfold resetGame, JS.bind, JS.ret in Hr.
    destruct (generateFood _ _ t0) as [[? ?]|]; [|discriminate].
    apply some_pair_inj in Hr. destruct Hr as [<- _]. reflexivity. }
  assert (Hsteer : forall d,
             (handleDirectionChange d s).(status) = s.(status)
             /\ (handleDirectionChange d s).(intervals) = s.(intervals)).
  { intros d. unfold handleDirectionChange.
    repeat (destruct (_ && _); [split; reflexivity|]). split; reflexivity. }
  assert (Hlife : lifecycle s.(status) s'.(status)
                  /\ (s'.(status) = MENU -> s'.(intervals) = [])).
  { destruct e; simpl in H.
    - apply some_pair_inj in H. destruct H as [<- _].
      rewrite Heffects. split; [constructor|].
      intros Hst. apply runEffects_menu; [exact Hst | exact (Hnone Hst)].
    - destruct (GameStatus_eqb _ _) eqn:Hst.
      + apply status_eqb_true in Hst.
        unfold JS.bind, JS.ret in H.
        destruct (resetGame _ tape) as [[s1 tape1]|] eqn:Hr; [|discriminate].
        apply some_pair_inj in H. destruct H as [<- _].
        rewrite Heffects, (Hreset _ _ _ _ Hr). simpl in Hst. rewrite Hst.
        split; [constructor | discriminate].
      + apply some_pair_inj in H. destruct H as [<- _].
        split; [constructor | exact Hnone].
    - destruct (GameStatus_eqb _ _) eqn:Hst.
      + apply status_eqb_true in Hst.
        unfold JS.bind, JS.ret in H.
        destruct (resetGame _ tape) as [[s1 tape1]|] eqn:Hr; [|discriminate].
        apply some_pair_inj in H. destruct H as [<- _].
        rewrite Heffects, (Hreset _ _ _ _ Hr). simpl in Hst. rewrite Hst.
        split; [constructor | discriminate].
      + apply some_pair_inj in H. destruct H as [<- _].
        split; [constructor | exact Hnone].
    - destruct (GameStatus_eqb _ _) eqn:Hst.
      + apply status_eqb_true in Hst.
        unfold JS.bind, JS.ret in H.
        destruct (resetGame _ tape) as [[s1 tape1]|] eqn:Hr; [|discriminate].
        apply some_pair_inj in H. destruct H as [<- _].
        rewrite Heffects, (Hreset _ _ _ _ Hr), Hst.
        split; [constructor | discriminate].
      + apply some_pair_inj in H. destruct H as [<- _].
        split; [constructor | exact Hnone].
    - apply some_pair_inj in H. destruct H as [<- _].
      unfold handleKeyDown.
      destruct (negb _); [split; [constructor | exact Hnone]|].
      repeat (destruct (String.eqb key _);
              [match goal with
               | |- context [handleDirectionChange ?d s] =>
                   destruct (Hsteer d) as [-> ->]
               end; split; [constructor | exact Hnone]|]).
      split; [constructor | exact Hnone].
    - destruct (_ && _); apply some_pair_inj in H; destruct H as [<- _];
        [|split; [constructor | exact Hnone]].
      destruct (Hsteer dir) as [-> ->]. split; [constructor | exact Hnone].
    - destruct (find _ _) as [i|] eqn:Hfind.
      + unfold JS.bind, JS.ret in H.
        destruct (gameTickOf _ s tape) as [[s1 tape1]|] eqn:Htick;
          [|discriminate].
        apply some_pair_inj in H. destruct H as [<- _].
        apply find_some in Hfind. destruct Hfind as [Hin _].
        assert (Hmenu : status s <> MENU).
        { intros Hm. rewrite (Hnone Hm) in Hin. exact Hin. }
        rewrite Heffects.
        destruct (gameTickOf_timers _ _ _ _ _ Htick)
          as (_ & _ & _ & _ & [(_ & _ & ->)|(_ & _ & ->)]).
        * split; [constructor | intros Hm; now elim Hmenu].
        * split; [|discriminate].
          destruct (status s); [now elim Hmenu | constructor | constructor].
      + apply some_pair_inj in H. destruct H as [<- _].
        split; [constructor | exact Hnone].
    - apply some_pair_inj in H. destruct H as [<- _].
      rewrite Heffects. split; [constructor|].
      intros Hst. apply runEffects_menu; [exact Hst | exact (Hnone Hst)]. }
  destruct Hlife as [Hlife Hnone'].
  split; [exact Hlife|]. split; [|exact Hnone'].
  intros Hne Hmenu. rewrite Hmenu in Hlife.
  inversion Hlife; congruence.
Qed.

Lemma status_lifecycle_witness :
  step (Tick 1) Scenario.beforeWall [] = Some (Scenario.afterWall, [])
  /\ lifecycle Scenario.beforeWall.(status) Scenario.afterWall.(status).
Proof.
  split; [exact step_beforeWall|].
  assert (Hnone : Scenario.beforeWall.(status) = MENU ->
                  Scenario.beforeWall.(intervals) = []) by discriminate.
  exact (proj1 (status_lifecycle (Tick 1) Scenario.beforeWall []
                  Scenario.afterWall [] Hnone step_beforeWall)).
Defined.

Lemma history_is_last_ten_games_witness :
  reachable Scenario.afterWall
  /\ leakFree Scenario.afterWall
  /\ Scenario.afterWall.(status) = GAME_OVER
  /\ Z.of_nat (length Scenario.afterWall.(history))
     = Z.min 10 Scenario.afterWall.(gameCount)
  /\ exists older,
       Scenario.afterWall.(history) = older ++ [mkEntry 1 0 1].
Proof.
  split; [exact reachable_afterWall|]. split; [exact leakFree_afterWall|].
  split; [reflexivity|].
  destruct (history_is_last_ten_games _ reachable_afterWall)
    as (_ & Hlen & Hsound).
  split; [exact Hlen | exact (proj2 (Hsound leakFree_afterWall) eq_refl)].
Defined.

(** *** Reset *)

(** X12. [resetGame] returns unless its food placement uses up the draws,
    and then a fresh game is being played: score 0, level 1, the base
    interval, the default theme, and direction, committed direction and
    buffered direction all RIGHT, so that no turn requested in the previous
    game is carried over.  The snake is the horizontal line of three
    segments whose head is the middle cell, inside the grid as soon as the
    grid has 4 columns and 1 row.  The board, the vision mode, the history
    and the game count are kept. *)
Theorem reset_starts_fresh_game (s : State) (tape : list float) :
  afterReset s tape (fun s' =>
    s'.(status) = PLAYING
    /\ s'.(score) = 0 /\ s'.(level) = 1 /\ s'.(speedRef) = INITIAL_SPEED
    /\ s'.(theme) = Gemini.Theme Gemini.DEFAULT_THEME
    /\ s'.(direction) = RIGHT /\ s'.(directionRef) = RIGHT
    /\ s'.(nextDirectionRef) = RIGHT
    /\ s'.(snake) = initialSnakeOf s
    /\ (4 <= gridCountX s -> 1 <= gridCountY s ->
        Forall (inGrid s') s'.(snake))
    /\ s'.(boardSize) = s.(boardSize)
    /\ s'.(isVisionMode) = s.(isVisionMode)
    /\ s'.(history) = s.(history)
    /\ s'.(gameCount) = s.(gameCount)).
Proof.
  apply afterReset_intro. intros s' tape' H.
  unfold resetGame, JS.bind, JS.ret in H.
  destruct (generateFood _ _ tape) as [[newFood rest]|]; [|discriminate].
  apply some_pair_inj in H. destruct H as [<- _].
  repeat split; try reflexivity.
  intros Hx Hy. cbn -[Z.div].
  unfold inGrid, gridCountX, gridCountY in *. cbn -[Z.div].
  repeat constructor; cbn -[Z.div]; Z.div_mod_to_equations; lia.
Qed.

(** Multiplying the draw 0 gives a number whose floor is 0. *)
Lemma floor_zero_times (f : float) : JS.floor (0 * f)%float = 0.
Proof.
  unfold JS.floor. rewrite FloatAxioms.mul_spec.
  change (Prim2SF 0%float) with (S754_zero false).
  destruct (Prim2SF f) as [sf|sf| |sf mf ef]; reflexivity.
Qed.

(** X13. On every reachable board the food placement of [resetGame] has a
    free cell to find: the cell (2,2) is off the snake that a reset builds,
    so a reset whose first two draws are 0 returns at once, with the food
    at (2,2). *)
Theorem reset_finds_free_cell (s : State) (tape : list float) :
  reachable s ->
  ~ In {| x := 2; y := 2 |} (initialSnakeOf s)
  /\ exists s',
       resetGame s (0 :: 0 :: tape)%float = Some (s', tape)
       /\ s'.(food) = {| x := 2; y := 2 |}.
Proof.
  intros Hreach.
  destruct (pf_board s (wf_field s (reachable_wellFormed s Hreach)))
    as (_ & Hh & _ & [kh Hkh]).
  assert (Hfree : ~ In {| x := 2; y := 2 |} (initialSnakeOf s)).
  { unfold initialSnakeOf, gridCountY, GRID_SIZE in *.
    intros Hin. simpl in Hin.
    decompose [or] Hin; try contradiction;
      match goal with Heq : _ = _ |- _ => injection Heq as _ Hy end;
      revert Hy; Z.div_mod_to_equations; lia. }
  split; [exact Hfree|].
  assert (Hcell : drawnCell s.(boardSize) 0 0 = {| x := 2; y := 2 |}).
  { unfold drawnCell. now rewrite !floor_zero_times. }
  unfold resetGame, JS.bind, JS.ret. fold (initialSnakeOf s).
  rewrite generateFood_unfold, Hcell.
  apply existsb_samePoint_false in Hfree. rewrite Hfree.
  eexists. split; reflexivity.
Qed.

Lemma reset_finds_free_cell_witness :
  reachable Scenario.afterWall
  /\ exists s',
       resetGame Scenario.afterWall [0; 0]%float = Some (s', [])
       /\ s'.(food) = {| x := 2; y := 2 |}.
Proof.
  split; [exact reachable_afterWall|].
  exact (proj2 (reset_finds_free_cell Scenario.afterWall [] reachable_afterWall)).
Defined.

(** *** Direction requests *)

Lemma handleDirectionChange_accepts newDir s :
  newDir <> opposite s.(directionRef) ->
  handleDirectionChange newDir s = setNextDirectionRef newDir s.
Proof.
  unfold handleDirectionChange.
  destruct newDir, (directionRef s); simpl; intros H;
    try reflexivity; now elim H.
Qed.

Lemma handleDirectionChange_rejects newDir s :
  newDir = opposite s.(directionRef) -> handleDirectionChange newDir s = s.
Proof.
  intros ->. unfold handleDirectionChange.
  destruct (directionRef s); reflexivity.
Qed.

(** X14. Direction requests are coalesced, the last accepted one winning: a
    request that is not the reverse of the committed direction replaces the
    buffered direction and changes nothing else, so of two requests made
    between ticks only the second shows if it is accepted, and only the
    first if the second is the reverse of the committed direction. *)
Theorem direction_requests_coalesce (first second : Direction) (s : State) :
  (second <> opposite s.(directionRef) ->
   handleDirectionChange second (handleDirectionChange first s)
   = setNextDirectionRef second s)
  /\ (second = opposite s.(directionRef) ->
      handleDirectionChange second (handleDirectionChange first s)
      = handleDirectionChange first s).
Proof.
  assert (Hcommitted : (handleDirectionChange first s).(directionRef)
                       = s.(directionRef)).
  { unfold handleDirectionChange.
    repeat (destruct (_ && _); [reflexivity|]); reflexivity. }
  split; intros Hsecond.
  - rewrite handleDirectionChange_accepts by now rewrite Hcommitted.
    unfold handleDirectionChange.
    repeat (destruct (_ && _); [reflexivity|]); reflexivity.
  - apply handleDirectionChange_rejects. now rewrite Hcommitted.
Qed.

Lemma direction_requests_coalesce_witness :
  UP <> opposite Scenario.beforeFood.(directionRef)
  /\ handleDirectionChange UP (handleDirectionChange DOWN Scenario.beforeFood)
     = setNextDirectionRef UP Scenario.beforeFood
  /\ handleDirectionChange LEFT (handleDirectionChange DOWN Scenario.beforeFood)
     = handleDirectionChange DOWN Scenario.beforeFood.
Proof.
  assert (Hup : UP <> opposite Scenario.beforeFood.(directionRef))
    by discriminate.
  split; [exact Hup|]. split.
  - exact (proj1 (direction_requests_coalesce DOWN UP Scenario.beforeFood) Hup).
  - exact (proj2 (direction_requests_coalesce DOWN LEFT Scenario.beforeFood)
             eq_refl).
Defined.

(** X15. A key press can only replace the buffered direction.  It does
    nothing at all unless the game is being played and the key is one of the
    four arrow keys, and then it is the direction request of that arrow. *)
Theorem keys_only_steer (key : string) (s : State) :
  setNextDirectionRef s.(nextDirectionRef) (handleKeyDown key s) = s
  /\ (s.(status) <> PLAYING -> handleKeyDown key s = s)
  /\ (key <> "ArrowUp"%string -> key <> "ArrowDown"%string ->
      key <> "ArrowLeft"%string -> key <> "ArrowRight"%string ->
      handleKeyDown key s = s)
  /\ (s.(status) = PLAYING ->
      handleKeyDown "ArrowUp" s = handleDirectionChange UP s
      /\ handleKeyDown "ArrowDown" s = handleDirectionChange DOWN s
      /\ handleKeyDown "ArrowLeft" s = handleDirectionChange LEFT s
      /\ handleKeyDown "ArrowRight" s = handleDirectionChange RIGHT s).
Proof.
  split; [|split; [|split]].
  - unfold handleKeyDown, handleDirectionChange.
    destruct (negb _); [destruct s; reflexivity|].
    repeat (destruct (String.eqb key _);
            [repeat (destruct (_ && _); [destruct s; reflexivity|]);
             destruct s; reflexivity|]).
    destruct s; reflexivity.
  - intros Hst. unfold handleKeyDown.
    destruct (status s); try reflexivity. now elim Hst.
  - intros H1 H2 H3 H4. unfold handleKeyDown.
    destruct (negb _); [reflexivity|].
    apply String.eqb_neq in H1, H2, H3, H4.
    now rewrite H1, H2, H3, H4.
  - intros Hst. unfold handleKeyDown. rewrite Hst. repeat split.
Qed.

Lemma keys_only_steer_witness :
  Scenario.beforeFood.(status) = PLAYING
  /\ handleKeyDown "ArrowUp" Scenario.beforeFood
     = handleDirectionChange UP Scenario.beforeFood
  /\ Scenario.afterWall.(status) <> PLAYING
  /\ handleKeyDown "ArrowUp" Scenario.afterWall = Scenario.afterWall.
Proof.
  split; [reflexivity|].
  split; [exact (proj1 (proj2 (proj2 (proj2
            (keys_only_steer "ArrowUp" Scenario.beforeFood))) eq_refl))|].
  assert (Hst : Scenario.afterWall.(status) <> PLAYING) by discriminate.
  split; [exact Hst|].
  exact (proj1 (proj2 (keys_only_steer "ArrowUp" Scenario.afterWall)) Hst).
Defined.

(** *** What a tick leaves alone *)

(** X16. A tick, whatever its closure, never touches the board size, the
    theme, the vision mode, the speed ref, the buffered direction or the
    ref of the game loop, and starts no interval; unless it detects a
    collision, on the grid it holds, it leaves the status, the history,
    the game count and the intervals alone; and unless it eats, at the
    food position it holds, it leaves the food, the score and the level
    alone.  For the [gameTick] of the latest render the grid and the food
    position are the current ones. *)
Theorem tick_frame (c : Closure) (s : State) (tape : list float) :
  afterTickOf c s tape (fun s' =>
    s'.(boardSize) = s.(boardSize)
    /\ s'.(theme) = s.(theme)
    /\ s'.(isVisionMode) = s.(isVisionMode)
    /\ s'.(speedRef) = s.(speedRef)
    /\ s'.(nextDirectionRef) = s.(nextDirectionRef)
    /\ s'.(gameLoopRef) = s.(gameLoopRef)
    /\ s'.(nextHandle) = s.(nextHandle)
    /\ (~ collisionOf c s ->
        s'.(status) = s.(status)
        /\ s'.(history) = s.(history)
        /\ s'.(gameCount) = s.(gameCount)
        /\ s'.(intervals) = s.(intervals))
    /\ (~ eatsFoodOf c s ->
        s'.(food) = s.(food)
        /\ s'.(score) = s.(score)
        /\ s'.(level) = s.(level)))
  /\ (collisionOf (capture s) s <-> collision s)
  /\ (eatsFoodOf (capture s) s <-> eatsFood s)
  /\ gameTick s tape = gameTickOf (capture s) s tape.
Proof.
  split;
    [|split; [split; intros Hc; exact Hc
             |split; [split; intros Hc; exact Hc | reflexivity]]].
  apply afterTickOf_intro. intros s' tape' H.
  destruct (gameTickOf_cases c s tape)
    as [Hs Ht | Hc Ht | nh Hnh Hf Hfd Ht | nh Hnh Hf Hfd Ht];
    rewrite Ht in H.
  - apply some_pair_inj in H. destruct H as [<- _]. repeat split.
  - apply some_pair_inj in H. destruct H as [<- _].
    repeat split; contradiction.
  - apply some_pair_inj in H. destruct H as [<- _]. repeat split.
  - destruct (generateFood _ _ tape) as [[newFood tape1]|]; [|discriminate].
    apply some_pair_inj in H. destruct H as [<- _].
    unfold grown.
    destruct (Z.rem _ 50 =? 0); repeat split;
      match goal with
      | Hno : ~ eatsFoodOf c s |- _ => elim Hno; split; congruence
      end.
Qed.

(** *** The interval that the level effect starts *)

Lemma find_unique (l : list Interval) (i : Interval) :
  NoDup (map handle l) -> In i l ->
  find (fun j => j.(handle) =? i.(handle)) l = Some i.
Proof.
  intros Hnd Hin.
  destruct (find _ l) as [j|] eqn:Hfind.
  - apply find_some in Hfind. destruct Hfind as [Hj Heq].
    apply Z.eqb_eq in Heq.
    now rewrite (unique_handle l j i Hnd Hj Hin Heq).
  - pose proof (find_none _ _ Hfind i Hin) as H. cbn beta in H.
    now rewrite Z.eqb_refl in H.
Qed.

Lemma gameTickOf_level c s tape s' tape' :
  gameTickOf c s tape = Some (s', tape') ->
  s'.(level) = s.(level) \/ s'.(level) = s.(level) + 1.
Proof.
  intros H. tickOf_inversion c s tape H; try (now left).
  unfold grown. destruct (Z.rem _ 50 =? 0); [now right | now left].
Qed.

(** X25. The length of the snake after a tick, whatever the closure of the
    tick: one segment more when the tick eats, that is when the new head
    is the food position its [gameTick] holds and there is no collision,
    and the same length in every other case; the tick returns unless it
    is stuck in the food placement. *)
Theorem tick_length_follows_closure (c : Closure) (s : State)
    (tape : list float) :
  afterTickOf c s tape (fun s' =>
    (eatsFoodOf c s -> length s'.(snake) = S (length s.(snake)))
    /\ (~ eatsFoodOf c s -> length s'.(snake) = length s.(snake)))
  /\ (eatsFoodOf (capture s) s <-> eatsFood s).
Proof.
  split; [|split; intros H; exact H].
  apply afterTickOf_intro. intros s' tape' H.
  tickOf_inversion c s tape H.
  - split; [|reflexivity].
    intros [Hhead _]. unfold newHeadOf in Hhead. rewrite Hsnake in Hhead.
    discriminate.
  - split; [|reflexivity]. intros [_ Hno]. now elim Hno.
  - cbn [snake setSnake]. rewrite length_removelast_cons.
    split; [|reflexivity]. intros [Hhead _]. congruence.
  - unfold grown. cbn [snake setSnake]. split; [reflexivity|].
    intros Hno. elim Hno. split; congruence.
Qed.

(** X26. An interval that is live and that the ref of the game loop does
    not hold stays so whatever happens: no event clears it, and whenever
    it fires, in whatever status, it calls the [gameTick] it was started
    with. *)
Theorem leaked_interval_is_never_cleared (i : Interval) (events : list Event)
    (s : State) (tape : list float) (s' : State) (tape' : list float) :
  reachable s -> leaked i s ->
  run events s tape = Some (s', tape') ->
  leaked i s'
  /\ forall draws,
       step (Tick i.(handle)) s' draws
       = (s1 <- gameTickOf i.(callback) s' ;;
          JS.ret (runEffects s' false s1)) draws.
Proof.
  intros Hreach Hl Hrun.
  assert (Hl' : leaked i s').
  { clear Hreach. revert s tape Hl Hrun.
    induction events as [|e events IH]; intros s tape Hl Hrun.
    - apply some_pair_inj in Hrun. destruct Hrun as [<- _]. exact Hl.
    - simpl in Hrun. unfold JS.bind in Hrun.
      destruct (step e s tape) as [[s1 tape1]|] eqn:Hstep; [|discriminate].
      apply (IH s1 tape1); [|exact Hrun].
      exact (leaked_step i e s tape s1 tape1 Hl Hstep). }
  split; [exact Hl'|].
  intros draws.
  pose proof (reachable_wellFormed s'
                (run_reachable _ _ _ _ _ Hreach Hrun)) as Hwf.
  cbn [step].
  now rewrite (find_unique _ i (tm_unique s' (wf_timers s' Hwf)) (proj1 Hl')).
Qed.

(** The effects of a render that raises the level while the game is
    played. *)
Lemma runEffects_level_up prev s :
  s.(status) = PLAYING -> s.(level) <> prev.(level) -> 1 < s.(level) ->
  runEffects prev false s
  = startGameLoop
      (startGameLoop
         (clearGameLoop
            (setSpeedRef (Z.max 50 (INITIAL_SPEED - s.(level) * SPEED_INCREMENT))
               (clearGameLoop s)))).
Proof.
  intros Hst Hne Hgt. unfold runEffects.
  replace (level s =? level prev) with false
    by (symmetry; now apply Z.eqb_neq).
  assert (Hcl : Closure_eqb (capture s) (capture prev) = false).
  { destruct (Closure_eqb _ _) eqn:Heq; [|reflexivity].
    apply Closure_eqb_true in Heq.
    elim Hne. exact (f_equal capturedLevel Heq). }
  rewrite Hcl, orb_true_r. cbn [negb].
  unfold levelEffect, gameLoopEffect.
  cbn [status level clearGameLoop startGameLoop setIntervals setSpeedRef
       setNextHandle setGameLoopRef].
  rewrite Hst. cbn [GameStatus_eqb andb].
  replace (level s >? 1) with true by (symmetry; apply Z.gtb_lt; lia).
  cbn [status level clearGameLoop startGameLoop setIntervals setSpeedRef
       setNextHandle setGameLoopRef].
  rewrite Hst. reflexivity.
Qed.

(** X27. Every level-up leaks an interval.  When a tick raises the level
    while the game is played, the render starts two intervals with the new
    [gameTick], both at the new speed: the one the effect on [level]
    starts and, right after it, the one the effect of the game loop
    starts.  The ref of the game loop holds the second; the first is live
    and nothing holds it. *)
Theorem level_up_leaks_an_interval (h : Z) (s : State) (tape : list float)
    (s' : State) (tape' : list float) :
  reachable s ->
  step (Tick h) s tape = Some (s', tape') ->
  s'.(status) = PLAYING -> s'.(level) <> s.(level) ->
  exists i,
    leaked i s'
    /\ i.(callback) = capture s'
    /\ i.(delay) = s'.(speedRef)
    /\ s'.(speedRef) = speedOfLevel s'.(level)
    /\ s'.(gameLoopRef) = Some (i.(handle) + 1)
    /\ In (mkInterval (i.(handle) + 1) s'.(speedRef) (capture s'))
         s'.(intervals)
    /\ ~ leakFree s'.
Proof.
  intros Hreach Hstep Hplaying Hlevel.
  pose proof (reachable_invariant s Hreach) as Hinv.
  cbn [step] in Hstep.
  destruct (find _ _) as [i0|]; [|apply some_pair_inj in Hstep;
                                  destruct Hstep as [<- _]; now elim Hlevel].
  unfold JS.bind, JS.ret in Hstep.
  destruct (gameTickOf _ s tape) as [[s1 tape1]|] eqn:Htick; [|discriminate].
  apply some_pair_inj in Hstep. destruct Hstep as [<- _].
  destruct (game_fields _ _ (game_runEffects s false s1))
    as (Hst & _ & _ & _ & _ & Hl & _).
  rewrite Hst in Hplaying. rewrite Hl in Hlevel.
  assert (Hgt : 1 < level s1).
  { pose proof (level_at_least_one s Hinv).
    destruct (gameTickOf_level _ _ _ _ _ Htick); [now elim Hlevel | lia]. }
  rewrite (runEffects_level_up s s1 Hplaying Hlevel Hgt).
  set (v := Z.max 50 (INITIAL_SPEED - level s1 * SPEED_INCREMENT)).
  set (s2 := clearGameLoop (setSpeedRef v (clearGameLoop s1))).
  exists (mkInterval (nextHandle s2) v (capture s2)).
  assert (Hleaked : leaked (mkInterval (nextHandle s2) v (capture s2))
                      (startGameLoop (startGameLoop s2))).
  { unfold leaked.
    cbn [startGameLoop intervals gameLoopRef nextHandle handle setIntervals
         setNextHandle setGameLoopRef].
    split; [apply in_or_app; left; apply in_or_app; right; now left|].
    split; [intros H; injection H as H|]; lia. }
  split; [exact Hleaked|].
  split; [reflexivity|]. split; [reflexivity|].
  split.
  { cbn [startGameLoop speedRef level setIntervals setNextHandle
         setGameLoopRef s2 clearGameLoop setSpeedRef].
    unfold speedOfLevel.
    destruct (Z.leb_spec (level s1) 1); [lia | reflexivity]. }
  split; [reflexivity|].
  split.
  { cbn [startGameLoop intervals speedRef handle setIntervals setNextHandle
         setGameLoopRef].
    apply in_or_app. right. left. reflexivity. }
  intros Hfree. destruct Hleaked as (Hin & Href & _).
  exact (Href (Hfree _ Hin)).
Qed.

(** Clearing the game loop clears every interval when none has leaked. *)
Lemma clearGameLoop_leakFree s :
  Timers s -> leakFree s -> (clearGameLoop s).(intervals) = [].
Proof.
  intros Htm Hfree.
  destruct (intervals (clearGameLoop s)) as [|i l] eqn:Hi; [reflexivity|].
  assert (Hin : In i (intervals (clearGameLoop s)))
    by (rewrite Hi; now left).
  elim (cleared_clearGameLoop s i); [|exact Hin|].
  - intros h Hh. exact (proj1 (tm_ref s Htm h Hh)).
  - apply Hfree. now apply In_clearGameLoop.
Qed.

Lemma leakFree_startGameLoop s :
  s.(intervals) = [] -> leakFree (startGameLoop s).
Proof.
  intros Hnone i.
  cbn [startGameLoop intervals gameLoopRef setIntervals setNextHandle
       setGameLoopRef].
  rewrite Hnone. intros [<-|[]]. reflexivity.
Qed.

Lemma leakFree_none s : s.(intervals) = [] -> leakFree s.
Proof. intros Hnone i Hin. rewrite Hnone in Hin. destruct Hin. Qed.

(** The effects of a render leak no interval unless the level was raised
    while the game is played. *)
Lemma leakFree_runEffects prev replaced s :
  Timers s -> leakFree s ->
  leakFree (runEffects prev replaced s)
  \/ (s.(status) = PLAYING /\ s.(level) <> prev.(level) /\ 1 < s.(level)).
Proof.
  intros Htm Hfree. unfold runEffects.
  destruct (replaced || negb (GameStatus_eqb (status s) (status prev))
            || negb (Closure_eqb (capture s) (capture prev))) eqn:Hchanged.
  - pose proof (clearGameLoop_leakFree s Htm Hfree) as Hnone.
    assert (Hrest : leakFree (gameLoopEffect (clearGameLoop s))).
    { unfold gameLoopEffect.
      destruct (GameStatus_eqb (status (clearGameLoop s)) PLAYING).
      - now apply leakFree_startGameLoop.
      - apply leakFree_none.
        destruct (intervals_clearGameLoop (clearGameLoop s))
          as [->|(h & _ & _ & ->)]; rewrite Hnone; reflexivity. }
    destruct (Z.eqb_spec (level s) (level prev)) as [Heq|Hne]; cbn [negb];
      [now left|].
    destruct (Z.le_gt_cases (level s) 1) as [Hle|Hgt].
    + left. now rewrite levelEffect_low.
    + destruct (status s) eqn:Hst;
        [left | right; repeat split; [exact Hne | lia] | left];
        rewrite levelEffect_idle by (cbn; rewrite Hst; discriminate);
        exact Hrest.
  - rewrite !orb_false_iff, !negb_false_iff in Hchanged.
    destruct Hchanged as [_ Hcl]. apply Closure_eqb_true in Hcl.
    replace (level s =? level prev) with true
      by (symmetry; apply Z.eqb_eq; exact (f_equal capturedLevel Hcl)).
    left. exact Hfree.
Qed.

Lemma leakFree_ext s s' :
  s'.(intervals) = s.(intervals) -> s'.(gameLoopRef) = s.(gameLoopRef) ->
  leakFree s -> leakFree s'.
Proof. unfold leakFree. intros -> ->. tauto. Qed.

(** X28. Nothing but a level-up leaks an interval: if every live interval
    is the one the ref of the game loop holds, this is still so after any
    event, unless the event is a tick that raises the level while the game
    is played. *)
Theorem only_level_up_leaks (e : Event) (s : State) (tape : list float)
    (s' : State) (tape' : list float) :
  reachable s -> leakFree s ->
  step e s tape = Some (s', tape') ->
  leakFree s'
  \/ (s'.(status) = PLAYING /\ s'.(level) = s.(level) + 1
      /\ exists h, e = Tick h).
Proof.
  intros Hreach Hfree H.
  pose proof (reachable_wellFormed s Hreach) as Hwf.
  pose proof (wf_timers s Hwf) as Htm.
  assert (Hsteer : forall d, leakFree (handleDirectionChange d s)).
  { intros d. unfold handleDirectionChange.
    repeat (destruct (_ && _); [exact Hfree|]). exact Hfree. }
  assert (Hreset : forall s0 s1 tape1,
             intervals s0 = intervals s -> gameLoopRef s0 = gameLoopRef s ->
             nextHandle s0 = nextHandle s ->
             resetGame s0 tape = Some (s1, tape1) ->
             leakFree (runEffects s true s1)).
  { intros s0 s1 tape1 Hi Hr Hn Hrun.
    destruct (resetGame_fields _ _ _ _ Hrun)
      as (_ & Hl & _ & Hi1 & Hn1 & Hr1).
    rewrite Hi in Hi1. rewrite Hr in Hr1. rewrite Hn in Hn1.
    destruct (leakFree_runEffects s true s1) as [Hok|(_ & _ & Hgt)];
      [| |exact Hok|lia].
    - exact (timers_ext s s1 Hi1 Hn1 Hr1 Htm).
    - exact (leakFree_ext s s1 Hi1 Hr1 Hfree). }
  destruct e; simpl in H.
  - apply some_pair_inj in H. destruct H as [<- <-].
    destruct (leakFree_runEffects s true (handleResize innerWidth innerHeight s))
      as [Hok|(_ & Hne & _)]; [|exact Hfree|now left|now elim Hne].
    apply (timers_ext s); [reflexivity..|exact Htm].
  - destruct (GameStatus_eqb _ _).
    + unfold JS.bind, JS.ret in H.
      destruct (resetGame _ tape) as [[s1 tape1]|] eqn:Hr; [|discriminate].
      apply some_pair_inj in H. destruct H as [<- <-]. left.
      apply (fun Hi Hg Hn => Hreset _ s1 tape1 Hi Hg Hn Hr); reflexivity.
    + apply some_pair_inj in H. destruct H as [<- <-]. now left.
  - destruct (GameStatus_eqb _ _).
    + unfold JS.bind, JS.ret in H.
      destruct (resetGame _ tape) as [[s1 tape1]|] eqn:Hr; [|discriminate].
      apply some_pair_inj in H. destruct H as [<- <-]. left.
      apply (fun Hi Hg Hn => Hreset _ s1 tape1 Hi Hg Hn Hr); reflexivity.
    + apply some_pair_inj in H. destruct H as [<- <-]. now left.
  - destruct (GameStatus_eqb _ _).
    + unfold JS.bind, JS.ret in H.
      destruct (resetGame _ tape) as [[s1 tape1]|] eqn:Hr; [|discriminate].
      apply some_pair_inj in H. destruct H as [<- <-]. left.
      apply (fun Hi Hg Hn => Hreset _ s1 tape1 Hi Hg Hn Hr); reflexivity.
    + apply some_pair_inj in H. destruct H as [<- <-]. now left.
  - apply some_pair_inj in H. destruct H as [<- <-]. left.
    unfold handleKeyDown. destruct (negb _); [exact Hfree|].
    repeat (destruct (String.eqb key _); [apply Hsteer|]). exact Hfree.
  - destruct (_ && _); apply some_pair_inj in H; destruct H as [<- <-];
      left; [apply Hsteer | exact Hfree].
  - destruct (find _ _) as [i|] eqn:Hfind.
    + unfold JS.bind, JS.ret in H.
      destruct (gameTickOf _ s tape) as [[s1 tape1]|] eqn:Htick; [|discriminate].
      apply some_pair_inj in H. destruct H as [<- <-].
      destruct (gameTickOf_timers _ _ _ _ _ Htick)
        as (_ & Hn & Hr & _ & Hcases).
      destruct (game_fields _ _ (game_runEffects s false s1))
        as (Hst & _ & _ & _ & _ & Hl & _).
      assert (H1 : Timers s1 /\ leakFree s1).
      { destruct Hcases as [(Hi & _)|(Hi & _)].
        - split; [exact (timers_ext s s1 Hi Hn Hr Htm)
                 | exact (leakFree_ext s s1 Hi Hr Hfree)].
        - split.
          + apply (timers_ext (clearGameLoop s) s1 Hi Hn Hr).
            now apply timers_clearGameLoop.
          + apply leakFree_none. rewrite Hi.
            now apply clearGameLoop_leakFree. }
      destruct (leakFree_runEffects s false s1 (proj1 H1) (proj2 H1))
        as [Hok|(Hplaying & Hne & _)]; [now left|right].
      rewrite Hst, Hl. split; [exact Hplaying|]. split; [|now exists handle0].
      destruct (gameTickOf_level _ _ _ _ _ Htick); [now elim Hne | assumption].
    + apply some_pair_inj in H. destruct H as [<- <-]. now left.
  - apply some_pair_inj in H. destruct H as [<- <-].
    destruct (leakFree_runEffects s false (setTheme t s))
      as [Hok|(_ & Hne & _)]; [|exact Hfree|now left|now elim Hne].
    apply (timers_ext s); [reflexivity..|exact Htm].
Qed.

End ShapeFacts.

(* ===================================================================== *)
(** ** Further properties of the gesture service and its caller *)
(* ===================================================================== *)

Section GestureFacts.
Import Types Vision.
Local Open Scope float_scope.

(** A number whose magnitude exceeds a positive threshold and which is not
    below minus the threshold is above the threshold. *)
Lemma beyond_positive_threshold (a d : float) (ma : positive) (ea : Z) :
  Prim2SF a = S754_finite false ma ea ->
  (a <? abs d) = true -> (d <? - a) = false -> (a <? d) = true.
Proof.
  intros Ha.
  rewrite !FloatAxioms.ltb_spec, FloatAxioms.abs_spec, FloatAxioms.opp_spec, Ha.
  unfold SFltb.
  destruct (Prim2SF d) as [sd|sd| |sd md ed]; simpl; try discriminate.
  - destruct sd; simpl; congruence.
  - destruct sd; [|congruence].
    rewrite (Z.compare_antisym ea ed).
    change (PosDef.Pos.compare_cont Eq md ma) with (Pos.compare md ma).
    change (PosDef.Pos.compare_cont Eq ma md) with (Pos.compare ma md).
    rewrite (Pos.compare_antisym ma md).
    destruct (ea ?= ed)%Z; simpl; try discriminate;
      destruct (ma ?= md)%positive; simpl; discriminate.
Qed.

Lemma SENSITIVITY_positive :
  exists m e, Prim2SF SENSITIVITY = S754_finite false m e.
Proof. eexists. eexists. vm_compute. reflexivity. Qed.

(** X17. The sign convention of the classifier.  RIGHT is answered only
    when the index tip is left of the wrist in the camera frame by more
    than the sensitivity (deltaX < -0.08), LEFT only when it is right of it
    by more than the sensitivity (deltaX > 0.08), UP only when it is above
    it (deltaY < -0.08) and DOWN only when it is below it (deltaY > 0.08);
    a horizontal answer needs |deltaX| > |deltaY|.  When neither |deltaX|
    nor |deltaY| exceeds the sensitivity there is no answer. *)
Theorem classify_sign_convention (wrist indexTip : NormalizedLandmark) :
  let dX := deltaX wrist indexTip in
  let dY := deltaY wrist indexTip in
  (classify wrist indexTip = Some RIGHT ->
   gtb (abs dX) (abs dY) = true /\ (dX <? - SENSITIVITY) = true)
  /\ (classify wrist indexTip = Some LEFT ->
      gtb (abs dX) (abs dY) = true /\ gtb dX SENSITIVITY = true)
  /\ (classify wrist indexTip = Some UP ->
      gtb (abs dX) (abs dY) = false /\ (dY <? - SENSITIVITY) = true)
  /\ (classify wrist indexTip = Some DOWN ->
      gtb (abs dX) (abs dY) = false /\ gtb dY SENSITIVITY = true)
  /\ (gtb (abs dX) SENSITIVITY = false -> gtb (abs dY) SENSITIVITY = false ->
      classify wrist indexTip = None).
Proof.
  intros dX dY. destruct SENSITIVITY_positive as (m & e & Hs).
  unfold classify. fold (deltaX wrist indexTip) (deltaY wrist indexTip).
  fold dX dY.
  destruct (gtb (abs dX) (abs dY)) eqn:Haxis;
    [destruct (gtb (abs dX) SENSITIVITY) eqn:Hmag;
       [destruct (dX <? - SENSITIVITY) eqn:Hsign|]
    |destruct (gtb (abs dY) SENSITIVITY) eqn:Hmag;
       [destruct (dY <? - SENSITIVITY) eqn:Hsign|]];
    repeat split; try discriminate; try reflexivity; try congruence;
    unfold gtb in *;
    exact (beyond_positive_threshold _ _ m e Hs Hmag Hsign).
Qed.

Lemma classify_sign_convention_witness :
  let wrist := mkLandmark 0.5 0.5 in
  let indexTip := mkLandmark 0.75 0.5 in
  classify wrist indexTip = Some LEFT
  /\ gtb (deltaX wrist indexTip) SENSITIVITY = true.
Proof.
  intros wrist indexTip.
  assert (H : classify wrist indexTip = Some LEFT) by reflexivity.
  split; [exact H|].
  exact (proj2 (proj1 (proj2 (classify_sign_convention wrist indexTip)) H)).
Defined.

Lemma detectGesture_records_frame st currentTime landmarks :
  st.(handLandmarker) = true ->
  (currentTime =? st.(lastVideoTime)) = false ->
  snd (detectGesture st currentTime landmarks)
  = {| handLandmarker := true; lastVideoTime := currentTime |}.
Proof.
  intros Hready Hfresh. unfold detectGesture. rewrite Hready, Hfresh.
  cbn [negb orb].
  destruct landmarks as [[|hand hands]|]; try reflexivity.
  destruct (nth_error hand 0), (nth_error hand 8); reflexivity.
Qed.

(** X18. A frame is classified at most once: after any call on a frame
    whose timestamp is a number, a second call with the same timestamp
    answers no direction and changes nothing, whatever the detector would
    report; and before the detector is created every call does so. *)
Theorem detectGesture_once_per_frame (st : VisionState) (currentTime : float)
    (landmarks landmarks' : option (list (list NormalizedLandmark))) :
  (currentTime =? currentTime) = true ->
  let st1 := snd (detectGesture st currentTime landmarks) in
  detectGesture st1 currentTime landmarks' = (JS.Normal None, st1)
  /\ (st.(handLandmarker) = false ->
      detectGesture st currentTime landmarks = (JS.Normal None, st)).
Proof.
  intros Hnum. cbn zeta. split.
  - destruct (handLandmarker st) eqn:Hready.
    + destruct (currentTime =? lastVideoTime st) eqn:Hsame.
      * assert (Hst1 : snd (detectGesture st currentTime landmarks) = st).
        { unfold detectGesture. rewrite Hready, Hsame. reflexivity. }
        rewrite Hst1. unfold detectGesture. rewrite Hready, Hsame. reflexivity.
      * rewrite (detectGesture_records_frame _ _ _ Hready Hsame).
        unfold detectGesture. simpl. rewrite Hnum. reflexivity.
    + assert (Hst1 : snd (detectGesture st currentTime landmarks) = st).
      { unfold detectGesture. rewrite Hready. reflexivity. }
      rewrite Hst1. unfold detectGesture. rewrite Hready. reflexivity.
  - intros Hready. unfold detectGesture. rewrite Hready. reflexivity.
Qed.

Lemma detectGesture_once_per_frame_witness :
  let ready := {| handLandmarker := true; lastVideoTime := -1 |} in
  let hand := repeat (mkLandmark 0.5 0.5) 8 ++ [mkLandmark 0.75 0.5] in
  (0.04 =? 0.04) = true
  /\ fst (detectGesture ready 0.04 (Some [hand])) = JS.Normal (Some LEFT)
  /\ fst (detectGesture (snd (detectGesture ready 0.04 (Some [hand]))) 0.04
            (Some [hand]))
     = JS.Normal None.
Proof.
  intros ready hand. split; [reflexivity|]. split; [reflexivity|].
  rewrite (proj1 (detectGesture_once_per_frame ready 0.04 (Some [hand])
                    (Some [hand]) eq_refl)).
  reflexivity.
Defined.

(** X19. [detectGesture] throws exactly when, on a fresh frame with the
    detector created, the first reported hand has fewer than nine
    landmarks; a hand with the 21 landmarks of the detector never makes it
    throw.  Whenever it gets past the frame check it records the
    timestamp, even when it throws. *)
Theorem detectGesture_throws_iff (st : VisionState) (currentTime : float)
    (landmarks : option (list (list NormalizedLandmark))) :
  (fst (detectGesture st currentTime landmarks) = JS.Throws <->
   st.(handLandmarker) = true
   /\ (currentTime =? st.(lastVideoTime)) = false
   /\ exists hand hands,
        landmarks = Some (hand :: hands) /\ (length hand < 9)%nat)
  /\ (st.(handLandmarker) = true ->
      (currentTime =? st.(lastVideoTime)) = false ->
      (snd (detectGesture st currentTime landmarks)).(lastVideoTime)
      = currentTime).
Proof.
  split.
  - unfold detectGesture.
    destruct (handLandmarker st); cbn [negb orb];
      [|split; [discriminate | intros (H & _); discriminate]].
    destruct (currentTime =? lastVideoTime st); cbn [negb orb];
      [split; [discriminate | intros (_ & H & _); discriminate]|].
    destruct landmarks as [[|hand hands]|].
    + split; [discriminate|]. intros (_ & _ & h & hs & H & _). discriminate.
    + destruct (nth_error hand 0) as [wrist|] eqn:H0;
        [destruct (nth_error hand 8) as [tip|] eqn:H8|]; cbn [fst].
      * split; [discriminate|].
        intros (_ & _ & h & hs & Heq & Hlen).
        injection Heq as <- <-.
        assert (nth_error hand 8 = None) by (apply nth_error_None; lia).
        congruence.
      * split; [|reflexivity]. intros _.
        repeat split. exists hand, hands. split; [reflexivity|].
        apply nth_error_None in H8. lia.
      * split; [|reflexivity]. intros _.
        repeat split. exists hand, hands. split; [reflexivity|].
        apply nth_error_None in H0. lia.
    + split; [discriminate|]. intros (_ & _ & h & hs & H & _). discriminate.
  - intros Hready Hfresh.
    now rewrite (detectGesture_records_frame _ _ _ Hready Hfresh).
Qed.

Lemma detectGesture_throws_iff_witness :
  let ready := {| handLandmarker := true; lastVideoTime := -1 |} in
  let shortHand := repeat (mkLandmark 0.5 0.5) 3 in
  let fullHand := repeat (mkLandmark 0.5 0.5) 21 in
  fst (detectGesture ready 0.04 (Some [shortHand])) = JS.Throws
  /\ (snd (detectGesture ready 0.04 (Some [shortHand]))).(lastVideoTime) = 0.04
  /\ fst (detectGesture ready 0.04 (Some [fullHand])) <> JS.Throws.
Proof.
  intros ready shortHand fullHand.
  destruct (detectGesture_throws_iff ready 0.04 (Some [shortHand]))
    as [Hthrows Htime].
  split; [|split].
  - apply Hthrows. split; [reflexivity|]. split; [reflexivity|].
    exists shortHand, []. split; [reflexivity | simpl; lia].
  - exact (Htime eq_refl eq_refl).
  - intros H.
    apply (proj1 (detectGesture_throws_iff ready 0.04 (Some [fullHand]))) in H.
    destruct H as (_ & _ & hand & hands & Heq & Hlen).
    injection Heq as <- _. simpl in Hlen. lia.
Defined.

(** X20. One call of the frame callback can only steer: of the game state
    it changes at most the buffered direction, by the direction request of
    the gesture it shows, and it keeps the invariants of the game.  Without
    a video element, or when the control is not active, it detects nothing
    and only requests the next frame.  The next frame is requested unless
    [detectGesture] throws, in which case the callback is left before the
    request and the gesture loop stops. *)
Theorem processVideo_only_steers (hasVideo isActive : bool) (currentTime : float)
    (landmarks : option (list (list NormalizedLandmark)))
    (c : VisionControl.Control) :
  let c' := VisionControl.processVideo hasVideo isActive currentTime landmarks c in
  App.setNextDirectionRef (App.nextDirectionRef (VisionControl.game c))
    (VisionControl.game c')
  = VisionControl.game c
  /\ (VisionControl.game c' = VisionControl.game c
      \/ exists direction,
           VisionControl.detectedDirection c' = Some direction
           /\ VisionControl.game c'
              = App.handleDirectionChange direction (VisionControl.game c))
  /\ (hasVideo && isActive = false ->
      VisionControl.game c' = VisionControl.game c
      /\ VisionControl.vision c' = VisionControl.vision c
      /\ VisionControl.detectedDirection c' = VisionControl.detectedDirection c
      /\ VisionControl.nextFrameRequested c' = true)
  /\ (VisionControl.nextFrameRequested c' = false <->
      hasVideo && isActive = true
      /\ fst (detectGesture (VisionControl.vision c) currentTime landmarks)
         = JS.Throws)
  /\ (App.Invariant (VisionControl.game c) ->
      App.Invariant (VisionControl.game c')).
Proof.
  cbn zeta. unfold VisionControl.processVideo.
  assert (Hframe : forall d g,
             App.setNextDirectionRef (App.nextDirectionRef g)
               (App.handleDirectionChange d g) = g).
  { intros d g. unfold App.handleDirectionChange.
    repeat (destruct (_ && _); [destruct g; reflexivity|]).
    destruct g; reflexivity. }
  assert (Hsame : forall g,
             App.setNextDirectionRef (App.nextDirectionRef g) g = g)
    by (intros g; destruct g; reflexivity).
  destruct (hasVideo && isActive).
  - destruct (detectGesture (VisionControl.vision c) currentTime landmarks)
      as [[[direction|]|] vision']; cbn [fst VisionControl.game
        VisionControl.detectedDirection VisionControl.nextFrameRequested
        VisionControl.vision].
    + split; [apply Hframe|]. split; [right; eauto|].
      split; [discriminate|].
      split; [split; [discriminate | intros [_ H]; discriminate]|].
      apply invariant_handleDirectionChange.
    + split; [apply Hsame|]. split; [now left|].
      split; [discriminate|].
      split; [split; [discriminate | intros [_ H]; discriminate]|].
      trivial.
    + split; [apply Hsame|]. split; [now left|].
      split; [discriminate|].
      split; [split; [now split | reflexivity]|].
      trivial.
  - cbn [VisionControl.game VisionControl.detectedDirection
         VisionControl.nextFrameRequested VisionControl.vision].
    split; [apply Hsame|]. split; [now left|].
    split; [intros _; repeat split|].
    split; [split; [discriminate | intros [H _]; discriminate]|].
    trivial.
Qed.

Lemma processVideo_only_steers_witness :
  let hand := repeat (mkLandmark 0.5 0.5) 8 ++ [mkLandmark 0.5 0.25] in
  let c := {| VisionControl.detectedDirection := None;
              VisionControl.vision :=
                {| handLandmarker := true; lastVideoTime := -1 |};
              VisionControl.game := Scenario.beforeFood;
              VisionControl.nextFrameRequested := true |} in
  let c' := VisionControl.processVideo true true 0.04 (Some [hand]) c in
  App.Invariant (VisionControl.game c)
  /\ VisionControl.detectedDirection c' = Some UP
  /\ App.nextDirectionRef (VisionControl.game c') = UP
  /\ App.Invariant (VisionControl.game c').
Proof.
  intros hand c c'.
  assert (Hinv : App.Invariant (VisionControl.game c))
    by exact (reachable_invariant _ reachable_beforeFood).
  split; [exact Hinv|]. split; [reflexivity|]. split; [reflexivity|].
  exact (proj2 (proj2 (proj2 (proj2
           (processVideo_only_steers true true 0.04 (Some [hand]) c)))) Hinv).
Defined.

End GestureFacts.

(* ===================================================================== *)
(** ** Further properties of the theme provider *)
(* ===================================================================== *)

Section ThemeFacts.
Import Types Gemini.
Local Open Scope string_scope.

Variable generateContent : string -> JS.Completion (option string).
Variable JSON_parse : string -> JS.Completion JsValue.

(** X21. [generateLevelTheme] resolves to a complete theme record in every
    case but one: the response carries a text that is not empty and that
    [JSON.parse] accepts, and the parsed value, which is returned as it is,
    is not an object with the eight string properties of a theme. *)
Theorem theme_incomplete_only_when_parsed (level : Z) (previousThemeName : string) :
  ~ complete (generateLevelTheme generateContent JSON_parse level
                previousThemeName)
  <-> exists text v,
        generateContent (contents level previousThemeName)
        = JS.Normal (Some text)
        /\ text <> "" /\ JSON_parse text = JS.Normal v
        /\ asTheme v = None
        /\ generateLevelTheme generateContent JSON_parse level
             previousThemeName = Unchecked v.
Proof.
  unfold generateLevelTheme, tryBlock.
  destruct (generateContent _) as [[text|]|]; simpl.
  - destruct text as [|ch text]; simpl.
    + split; [intros H; now elim H|].
      intros (t & v & Heq & Hne & _). injection Heq as <-. now elim Hne.
    + destruct (JSON_parse (String ch text)) as [v|] eqn:Hparse; simpl.
      * split.
        -- intros Hinc. exists (String ch text), v.
           repeat split; try reflexivity; try discriminate; try assumption.
           destruct (asTheme v); [elim Hinc; discriminate | reflexivity].
        -- intros (t & v' & Heq & _ & Hp & Hnone & _).
           injection Heq as <-. rewrite Hparse in Hp. injection Hp as <-.
           intros Hc. now apply Hc.
      * split; [intros H; now elim H|].
        intros (t & v & Heq & _ & Hp & _). injection Heq as <-.
        rewrite Hparse in Hp. discriminate.
  - split; [intros H; now elim H|].
    intros (t & v & Heq & _). discriminate.
  - split; [intros H; now elim H|].
    intros (t & v & Heq & _). discriminate.
Qed.

End ThemeFacts.

(* ===================================================================== *)
(** ** Further properties: draws, progress and instances *)
(* ===================================================================== *)

Section ProgressFacts.
Import Types App Shape.
Local Open Scope Z_scope.

(** X22. [generateFood] is rejection sampling: it returns the cell of the
    first pair of draws that is off the snake, having rejected every
    earlier pair because its cell is on the snake, and it hands back the
    draws after that pair untouched. *)
Theorem generateFood_first_free (size : Size) (currentSnake : list Point)
    (tape : list float) (newFood : Point) (tape' : list float) :
  generateFood size currentSnake tape = Some (newFood, tape') <->
  exists n rx ry,
    (forall k ax ay,
       (k < n)%nat ->
       nth_error tape (2 * k) = Some ax ->
       nth_error tape (2 * k + 1) = Some ay ->
       In (drawnCell size ax ay) currentSnake)
    /\ nth_error tape (2 * n) = Some rx
    /\ nth_error tape (2 * n + 1) = Some ry
    /\ newFood = drawnCell size rx ry
    /\ ~ In newFood currentSnake
    /\ tape' = skipn (2 * n + 2) tape.
Proof.
  split.
  - revert newFood tape'.
    induction tape as [|r|rx ry rest IH] using list_pair_ind;
      intros newFood tape' H; try discriminate.
    rewrite generateFood_unfold in H.
    destruct (existsb _ currentSnake) eqn:Hhit.
    + destruct (IH _ _ H) as (n & ax & ay & Hbefore & Hx & Hy & Hcell & Hfree & Hrest).
      exists (S n), ax, ay.
      replace (2 * S n)%nat with (S (S (2 * n))) by lia.
      replace (S (S (2 * n)) + 1)%nat with (S (S (2 * n + 1))) by lia.
      replace (S (S (2 * n)) + 2)%nat with (S (S (2 * n + 2))) by lia.
      repeat split; try assumption.
      intros [|k] bx by_ Hk Hbx Hby.
      * simpl in Hbx, Hby. injection Hbx as <-. injection Hby as <-.
        now apply existsb_samePoint.
      * replace (2 * S k)%nat with (S (S (2 * k))) in * by lia.
        replace (S (S (2 * k)) + 1)%nat with (S (S (2 * k + 1))) in Hby by lia.
        apply (Hbefore k bx by_); [lia | exact Hbx | exact Hby].
    + apply some_pair_inj in H. destruct H as [<- <-].
      exists 0%nat, rx, ry.
      repeat split; try reflexivity.
      * intros k ax ay Hk. lia.
      * now apply existsb_samePoint_false.
  - intros (n & rx & ry & Hbefore & Hx & Hy & -> & Hfree & ->).
    revert tape Hbefore Hx Hy.
    induction n as [|n IH]; intros tape Hbefore Hx Hy.
    + destruct tape as [|a [|b rest]]; try discriminate.
      simpl in Hx, Hy. injection Hx as ->. injection Hy as ->.
      rewrite generateFood_unfold.
      apply existsb_samePoint_false in Hfree. now rewrite Hfree.
    + replace (2 * S n)%nat with (S (S (2 * n))) in * by lia.
      replace (S (S (2 * n)) + 1)%nat with (S (S (2 * n + 1))) in Hy by lia.
      replace (S (S (2 * n)) + 2)%nat with (S (S (2 * n + 2))) by lia.
      destruct tape as [|a [|b rest]]; try discriminate.
      rewrite generateFood_unfold.
      assert (Hhit : In (drawnCell size a b) currentSnake)
        by (apply (Hbefore 0%nat a b); [lia | reflexivity | reflexivity]).
      apply existsb_samePoint in Hhit. rewrite Hhit.
      simpl skipn. apply IH; [|exact Hx|exact Hy].
      intros k ax ay Hk Hax Hay.
      apply (Hbefore (S k) ax ay); [lia| |].
      * now replace (2 * S k)%nat with (S (S (2 * k))) by lia.
      * now replace (2 * S k + 1)%nat with (S (S (2 * k + 1))) by lia.
Qed.

Lemma generateFood_first_free_witness :
  generateFood Scenario.beforeFood.(boardSize) Scenario.beforeFood.(snake)
    [0.71875; 0.5; 0.75; 0.5; 0.25]%float
  = Some ({| x := 21; y := 10 |}, [0.25]%float)
  /\ exists n rx ry,
       nth_error [0.71875; 0.5; 0.75; 0.5; 0.25]%float (2 * n) = Some rx
       /\ nth_error [0.71875; 0.5; 0.75; 0.5; 0.25]%float (2 * n + 1) = Some ry
       /\ {| x := 21; y := 10 |}
          = drawnCell Scenario.beforeFood.(boardSize) rx ry.
Proof.
  assert (H : generateFood Scenario.beforeFood.(boardSize)
                Scenario.beforeFood.(snake) [0.71875; 0.5; 0.75; 0.5; 0.25]%float
              = Some ({| x := 21; y := 10 |}, [0.25]%float))
    by (vm_compute; reflexivity).
  split; [exact H|].
  destruct (proj1 (generateFood_first_free _ _ _ _ _) H)
    as (n & rx & ry & _ & Hx & Hy & Hcell & _).
  exists n, rx, ry. repeat split; assumption.
Defined.

(** X23. A tick that does not eat returns whatever the draws and leaves
    them untouched; a tick that eats returns as soon as some pair of draws
    designates a cell off the grown snake.  So a tick can only hang in the
    food placement, on draws that all fall on the snake. *)
Theorem tick_returns (s : State) (tape : list float) :
  (~ eatsFood s -> exists s', gameTick s tape = Some (s', tape))
  /\ (forall n rx ry,
        nth_error tape (2 * n) = Some rx ->
        nth_error tape (2 * n + 1) = Some ry ->
        ~ In (drawnCell s.(boardSize) rx ry) (s.(food) :: s.(snake)) ->
        exists s' tape', gameTick s tape = Some (s', tape')).
Proof.
  split.
  - intros Hno.
    destruct (gameTick_cases s tape)
      as [Hs Ht | Hc Ht | nh Hnh Hf Hfd Ht | nh Hnh Hf Hfd Ht]; eauto.
    elim Hno. split; congruence.
  - intros n rx ry Hx Hy Hfree.
    destruct (gameTick_cases s tape)
      as [Hs Ht | Hc Ht | nh Hnh Hf Hfd Ht | nh Hnh Hf Hfd Ht]; eauto.
    subst nh.
    destruct (generateFood_returns _ _ _ _ _ _ Hx Hy Hfree) as (p & t & Hp).
    rewrite Hp in Ht. eauto.
Qed.

Lemma tick_returns_witness :
  ~ eatsFood Scenario.beforeWall
  /\ exists s', gameTick Scenario.beforeWall [] = Some (s', []).
Proof.
  assert (Hno : ~ eatsFood Scenario.beforeWall).
  { intros [_ Hfree]. exact (Hfree collision_beforeWall). }
  split; [exact Hno|].
  exact (proj1 (tick_returns Scenario.beforeWall []) Hno).
Defined.

(** X24. In every reachable state the score is a multiple of 10 and not
    negative, the level is one more than the number of multiples of 50 the
    score has reached, and the direction shown is the committed one. *)
Theorem score_level_direction_in_step (s : State) :
  reachable s ->
  0 <= s.(score) /\ (10 | s.(score))
  /\ s.(level) = 1 + s.(score) / 50
  /\ s.(direction) = s.(directionRef).
Proof.
  intros Hreach. destruct (reachable_invariant s Hreach) as [_ Hd _ [Hp Hm] Hl].
  repeat split; assumption.
Qed.

Lemma score_level_direction_in_step_witness :
  reachable Scenario.afterFoodRendered
  /\ Scenario.afterFoodRendered.(level)
     = 1 + Scenario.afterFoodRendered.(score) / 50.
Proof.
  split; [exact reachable_afterFoodRendered|].
  exact (proj1 (proj2 (proj2 (score_level_direction_in_step _
                                reachable_afterFoodRendered)))).
Defined.

(** *** Instances *)

Lemma run_towardsLevelUp :
  run (firstn 5 Scenario.towardsLevelTwo) initialState
    (firstn 10 Scenario.drawsLevelTwo)
  = Some (Scenario.beforeLevelUp, []).
Proof. vm_compute. reflexivity. Qed.

Lemma reachable_beforeLevelUp : reachable Scenario.beforeLevelUp.
Proof. exact (run_reachable _ _ _ _ _ reachable_initial run_towardsLevelUp). Qed.

Lemma step_beforeLevelUp :
  step (Tick 5) Scenario.beforeLevelUp [0.78125; 0.5]%float
  = Some (Scenario.afterLevelUp, []).
Proof. vm_compute. reflexivity. Qed.

Lemma level_up_leaks_an_interval_witness :
  reachable Scenario.beforeLevelUp
  /\ step (Tick 5) Scenario.beforeLevelUp [0.78125; 0.5]%float
     = Some (Scenario.afterLevelUp, [])
  /\ Scenario.afterLevelUp.(status) = PLAYING
  /\ Scenario.afterLevelUp.(level) <> Scenario.beforeLevelUp.(level)
  /\ exists i,
       leaked i Scenario.afterLevelUp
       /\ Scenario.afterLevelUp.(gameLoopRef) = Some (i.(handle) + 1).
Proof.
  assert (Hlevel : Scenario.afterLevelUp.(level)
                   <> Scenario.beforeLevelUp.(level)) by discriminate.
  split; [exact reachable_beforeLevelUp|]. split; [exact step_beforeLevelUp|].
  split; [reflexivity|]. split; [exact Hlevel|].
  destruct (level_up_leaks_an_interval 5 Scenario.beforeLevelUp
              [0.78125; 0.5]%float Scenario.afterLevelUp []
              reachable_beforeLevelUp step_beforeLevelUp eq_refl Hlevel)
    as (i & Hl & _ & _ & _ & Href & _).
  exists i. split; assumption.
Defined.

Lemma leaked_atLevelTwo :
  leaked (mkInterval 6 240
            (mkClosure {| x := 22; y := 10 |} 50 2 0 Scenario.board))
    Scenario.atLevelTwo.
Proof. split; [left; reflexivity | split; [discriminate | reflexivity]]. Qed.

Lemma run_atLevelTwo :
  run [Tick 6] Scenario.atLevelTwo [] = Some (Scenario.overTheFood, []).
Proof. vm_compute. reflexivity. Qed.

Lemma leaked_interval_is_never_cleared_witness :
  reachable Scenario.atLevelTwo
  /\ run [Tick 6] Scenario.atLevelTwo [] = Some (Scenario.overTheFood, [])
  /\ leaked (mkInterval 6 240
               (mkClosure {| x := 22; y := 10 |} 50 2 0 Scenario.board))
       Scenario.overTheFood.
Proof.
  split; [exact reachable_atLevelTwo|]. split; [exact run_atLevelTwo|].
  exact (proj1 (leaked_interval_is_never_cleared _ [Tick 6]
                  Scenario.atLevelTwo [] Scenario.overTheFood []
                  reachable_atLevelTwo leaked_atLevelTwo run_atLevelTwo)).
Defined.

Lemma only_level_up_leaks_witness :
  reachable Scenario.beforeFood
  /\ leakFree Scenario.beforeFood
  /\ step (Tick 1) Scenario.beforeFood [0; 0]%float
     = Some (Scenario.afterFoodRendered, [])
  /\ Scenario.afterFoodRendered.(level) = Scenario.beforeFood.(level)
  /\ leakFree Scenario.afterFoodRendered.
Proof.
  assert (Hfree : leakFree Scenario.beforeFood)
    by (intros i [<-|[]]; reflexivity).
  split; [exact reachable_beforeFood|]. split; [exact Hfree|].
  split; [exact step_beforeFood|]. split; [reflexivity|].
  destruct (only_level_up_leaks (Tick 1) Scenario.beforeFood [0; 0]%float
              Scenario.afterFoodRendered [] reachable_beforeFood Hfree
              step_beforeFood)
    as [Hok|(_ & Hl & _)]; [exact Hok | discriminate Hl].
Defined.

Lemma reset_starts_fresh_game_witness :
  exists s',
    resetGame Scenario.afterWall [0; 0]%float = Some (s', [])
    /\ s'.(status) = PLAYING /\ s'.(score) = 0
    /\ s'.(nextDirectionRef) = RIGHT
    /\ s'.(history) = Scenario.afterWall.(history)
    /\ Forall (inGrid s') s'.(snake).
Proof.
  pose proof (reset_starts_fresh_game Scenario.afterWall [0; 0]%float) as H.
  unfold afterReset in H.
  destruct (resetGame Scenario.afterWall [0; 0]%float) as [[s' tape']|] eqn:Hr;
    [|vm_compute in Hr; discriminate].
  assert (Htape : tape' = []) by (vm_compute in Hr; congruence).
  subst tape'. exists s'.
  destruct H as (Hst & Hsc & _ & _ & _ & _ & _ & Hnext & _ & Hgrid & _ & _ & Hh & _).
  repeat split; try assumption.
  apply Hgrid; vm_compute; discriminate.
Defined.

Lemma tick_frame_witness :
  ~ eatsFoodOf (capture Scenario.beforeWall) Scenario.beforeWall
  /\ gameTickOf (capture Scenario.beforeWall) Scenario.beforeWall []
     = Some (Scenario.afterWall, [])
  /\ Scenario.afterWall.(food) = Scenario.beforeWall.(food)
  /\ Scenario.afterWall.(nextDirectionRef) = Scenario.beforeWall.(nextDirectionRef).
Proof.
  assert (Hno : ~ eatsFoodOf (capture Scenario.beforeWall) Scenario.beforeWall).
  { intros [_ Hfree]. exact (Hfree collision_beforeWall). }
  split; [exact Hno|]. split; [exact tick_beforeWall|].
  pose proof (proj1 (tick_frame (capture Scenario.beforeWall)
                       Scenario.beforeWall [])) as H.
  unfold afterTickOf in H.
  change (gameTickOf (capture Scenario.beforeWall) Scenario.beforeWall [])
    with (gameTick Scenario.beforeWall []) in H.
  rewrite tick_beforeWall in H.
  destruct H as (_ & _ & _ & _ & Hnext & _ & _ & _ & Hfood).
  split; [exact (proj1 (Hfood Hno)) | exact Hnext].
Defined.

Lemma theme_incomplete_only_when_parsed_witness :
  let generateContent := fun _ : string => JS.Normal (Some "{}"%string) in
  let JSON_parse := fun _ : string => JS.Normal (Gemini.JsObject []) in
  ~ Gemini.complete
      (Gemini.generateLevelTheme generateContent JSON_parse 2 "Neon Genesis")
  /\ exists text v,
       generateContent (Gemini.contents 2 "Neon Genesis") = JS.Normal (Some text)
       /\ JSON_parse text = JS.Normal v /\ Gemini.asTheme v = None.
Proof.
  intros generateContent JSON_parse.
  assert (Hinc : ~ Gemini.complete
                   (Gemini.generateLevelTheme generateContent JSON_parse 2
                      "Neon Genesis")).
  { intros H. apply H. reflexivity. }
  split; [exact Hinc|].
  destruct (proj1 (theme_incomplete_only_when_parsed generateContent JSON_parse
                     2 "Neon Genesis"%string) Hinc)
    as (text & v & H1 & _ & H2 & H3 & _).
  exists text, v. repeat split; assumption.
Defined.

End ProgressFacts.
